(** * SOP checker: a shallow embedding of [checker.py] and its properties

    The development follows the layout of the program: the Python
    primitives the checker relies on (exceptions, [str.strip], list item
    assignment, [random.randint]), then the functions of [checker.py] in
    source order, then the properties of each of them.

    Conventions.
    - Python integers are [Z]; bit operations are [Z.lor], [Z.land],
      [Z.shiftl], [Z.shiftr].
    - A [str] is a [string]; its characters are the code points below 256.
    - A [set] of integers is a [gset Z], a [dict] keyed by strings is a
      [gmap string Z], a Python list is a [list].  The order in which a set
      is iterated is a parameter, [set_order].
    - A raised exception is the [Raise] case of [result]; statements are
      sequenced with the bind of that monad. *)

From Stdlib Require Import ZArith Lia Ascii String.
From stdpp Require Import gmap strings list pretty sorting.

Local Open Scope Z_scope.
Set Warnings "-clear-no-such-hyp".

(** ** Python primitives *)

(** The exceptions the checker can raise.  The three [ValueError]s of
    [validate_implicant] carry what their message is formatted from. *)
Inductive exception : Type :=
  | ValueError_zero_width
      (* "for n-bit=0, implicant must be an empty string." *)
  | ValueError_length (n_bit : Z) (impl : string)
      (* "implicant length error (expected {n_bit}): {impl!r}" *)
  | ValueError_illegal_char (impl : string)
      (* "illegal character in implicant (only 0/1/- allowed): {impl!r}" *)
  | ValueError_negative_shift
      (* "negative shift count", raised by [1 << p] when [p < 0] *)
  | IndexError_assignment.
      (* "list assignment index out of range" *)

Inductive result (A : Type) : Type :=
  | Ok (a : A)
  | Raise (e : exception).
Arguments Ok {A} a.
Arguments Raise {A} e.

Global Instance result_ret : MRet result := λ A a, Ok a.
Global Instance result_bind : MBind result := λ A B f m,
  match m with
  | Ok a => f a
  | Raise e => Raise e
  end.

Definition result_default {A : Type} (d : A) (r : result A) : A :=
  match r with
  | Ok a => a
  | Raise _ => d
  end.

Global Instance result_fmap : FMap result := λ A B f m,
  match m with
  | Ok a => Ok (f a)
  | Raise e => Raise e
  end.

(** [for x in xs: body], threading the loop state [s] and stopping at the
    first exception. *)
Fixpoint for_each {A S : Type} (body : S → A → result S) (xs : list A) (s : S)
    : result S :=
  match xs with
  | [] => Ok s
  | x :: rest => s' ← body s x; for_each body rest s'
  end.

(** [enumerate(xs)], counting from [start]. *)
Fixpoint enumerate_from {A : Type} (start : Z) (xs : list A) : list (Z * A) :=
  match xs with
  | [] => []
  | x :: rest => (start, x) :: enumerate_from (start + 1) rest
  end.
Definition enumerate {A : Type} (xs : list A) : list (Z * A) := enumerate_from 0 xs.

(** [len(s)] and iteration over the characters of a [str]. *)
Definition chars (s : string) : list ascii := list_ascii_of_string s.
Definition len_str (s : string) : Z := Z.of_nat (length (chars s)).

(** [str.isspace] on the code points below 256: TAB, LF, VT, FF, CR, the
    separators 0x1c-0x1f, SPACE, NEL (0x85) and NBSP (0xa0). *)
Definition is_space (c : ascii) : bool :=
  let n := nat_of_ascii c in
  ((9 <=? n) && (n <=? 13) || (28 <=? n) && (n <=? 32)
   || (n =? 133) || (n =? 160))%nat.

Fixpoint lstrip_chars (cs : list ascii) : list ascii :=
  match cs with
  | [] => []
  | c :: rest => if is_space c then lstrip_chars rest else cs
  end.

(** [s.strip()]: leading and trailing whitespace removed. *)
Definition strip (s : string) : string :=
  string_of_list_ascii (rev (lstrip_chars (rev (lstrip_chars (chars s))))).

(** [1 << p]. *)
Definition shl1 (p : Z) : result Z :=
  if decide (p < 0) then Raise ValueError_negative_shift else Ok (Z.shiftl 1 p).

(** [xs[i] = x]: a negative index counts from the end, an index out of
    range raises. *)
Definition setitem {A : Type} (xs : list A) (i : Z) (x : A) : result (list A) :=
  let n := Z.of_nat (length xs) in
  let i' := if decide (i < 0) then i + n else i in
  if decide (0 ≤ i' < n) then Ok (<[Z.to_nat i' := x]> xs)
  else Raise IndexError_assignment.

(** A Python set is iterated in an order that the language does not fix and
    that depends on the interpreter and on how the set was built; what is
    guaranteed is that every member is visited exactly once.  The order that
    the running interpreter follows is a parameter of the model. *)
Class set_order : Type := SetOrder {
  iterate : gset Z → list Z;
  iterate_members : ∀ X : gset Z, iterate X ≡ₚ elements X;
}.

(** One such order, under which the examples are evaluated: ascending. *)
Global Instance ascending : set_order.
Proof.
  refine {| iterate := λ X, merge_sort Z.le (elements X) |}.
  intros X. apply merge_sort_Permutation.
Defined.

(** The random-number stream.  The global generator of [random] is made
    explicit as the list of raw draws still to come; [randint a b] reduces
    the next draw into [[a, b]].  An exhausted stream keeps answering [a]. *)
Definition rng : Type := list Z.

Definition randint (a b : Z) (g : rng) : Z * rng :=
  match g with
  | [] => (a, [])
  | r :: g' => (a + r `mod` (b - a + 1), g')
  end.

(** ** [read_sop_file]

    The argument [lines] is what iterating over the open file yields;
    [read_line] is the body of the loop. *)
Definition read_line (n_bit : Z) (implicants : list string) (ln : string) : list string :=
  let line := strip ln in
  if decide (line = "") then
    if decide (n_bit = 0) then implicants ++ [""] else implicants
  else implicants ++ [line].

Definition read_sop_file (lines : list string) (n_bit : Z) : list string :=
  fold_left (read_line n_bit) lines [].

(** ** [validate_implicant] *)
Definition legal_char (ch : ascii) : bool :=
  bool_decide (ch = "0"%char) || bool_decide (ch = "1"%char)
  || bool_decide (ch = "-"%char).

Fixpoint check_chars (impl : string) (cs : list ascii) : result unit :=
  match cs with
  | [] => Ok ()
  | ch :: rest =>
      if legal_char ch then check_chars impl rest
      else Raise (ValueError_illegal_char impl)
  end.

Definition validate_implicant (impl : string) (n_bit : Z) : result unit :=
  if decide (n_bit = 0) then
    if decide (impl ≠ "") then Raise ValueError_zero_width else Ok ()
  else if decide (len_str impl ≠ n_bit) then Raise (ValueError_length n_bit impl)
  else check_chars impl (chars impl).

(** ** [iter_implicant_minterms] *)

(** The first loop: [base_val] and [free_positions] after the characters
    [cs], the first of which has index [i]. *)
Fixpoint scan_implicant (n_bit i : Z) (cs : list ascii)
    (base_val : Z) (free_positions : list Z) : result (Z * list Z) :=
  match cs with
  | [] => Ok (base_val, free_positions)
  | ch :: rest =>
      let bitpos := n_bit - 1 - i in
      if decide (ch = "1"%char) then
        b ← shl1 bitpos;
        scan_implicant n_bit (i + 1) rest (Z.lor base_val b) free_positions
      else if decide (ch = "-"%char) then
        scan_implicant n_bit (i + 1) rest base_val (free_positions ++ [bitpos])
      else
        scan_implicant n_bit (i + 1) rest base_val free_positions
  end.

(** The [while j < free_cnt] loop: [ps] is [free_positions[j:]]. *)
Fixpoint fill_free (ps : list Z) (v m : Z) : result Z :=
  match ps with
  | [] => Ok v
  | p :: rest =>
      v' ← (if decide (Z.land m 1 ≠ 0) then b ← shl1 p; Ok (Z.lor v b) else Ok v);
      fill_free rest v' (Z.shiftr m 1)
  end.

(** The values the generator yields, in order; [Raise] when producing
    them raises. *)
Definition iter_implicant_minterms (impl : string) (n_bit : Z) : result (list Z) :=
  if decide (n_bit = 0) then Ok [0]
  else
    '(base_val, free_positions) ← scan_implicant n_bit 0 (chars impl) 0 [];
    let free_cnt := Z.of_nat (length free_positions) in
    for_each
      (λ yielded mask, v ← fill_free free_positions base_val mask; Ok (yielded ++ [v]))
      (seqZ 0 (Z.shiftl 1 free_cnt)) [].

(** ** [reservoir_add] *)
Definition reservoir_add {A : Type} (sample : list A) (k total_seen : Z) (item : A)
    (g : rng) : result (list A * rng) :=
  if decide (k ≤ 0) then Ok (sample, g)
  else if decide (total_seen ≤ k) then Ok (sample ++ [item], g)
  else
    let '(j, g') := randint 1 total_seen g in
    if decide (j ≤ k) then
      sample' ← setitem sample (j - 1) item; Ok (sample', g')
    else Ok (sample, g').

(** ** [count_literals] *)
Definition count_literals (implicants : list string) : Z :=
  fold_left
    (λ c impl,
       fold_left
         (λ c ch,
            if bool_decide (ch = "0"%char) || bool_decide (ch = "1"%char)
            then c + 1 else c)
         (chars impl) c)
    implicants 0.

(** ** [main]

    [argparse] is the boundary of the model: [main] starts from the triple
    that [parse_spec_file] returns and from the parsed flags. *)
Record arguments : Type := {
  quiet : bool;
  summary : bool;
  sample : Z;
}.

(** The local variables of [main] that the report is printed from. *)
Record verdict : Type := {
  implicants : list string;
  lit_count : Z;
  fail_literal_product : bool;
  dup_count : Z;
  dup_sample : list string;
  covered_on : gset Z;
  off_hit_count : Z;
  off_hit_sample : list Z;
  uncovered_count : Z;
  uncovered_sample : list Z;
  passed : bool;
}.

(** [len(on_set)]. *)
Definition len_set (X : gset Z) : Z := Z.of_nat (size X).

(** Lines 92-93. *)
Definition validate_all (impls : list string) (n_bit : Z) : result unit :=
  for_each (λ _ impl, validate_implicant impl n_bit) impls ().

(** Lines 99-109: the state is [(seen, dup_count, dup_sample)] and the
    random stream. *)
Definition dup_step (k : Z) (st : gmap string Z * Z * list string * rng)
    (entry : Z * string) : result (gmap string Z * Z * list string * rng) :=
  let '(seen, dup_count, dup_sample, g) := st in
  let '(idx, impl) := entry in
  match seen !! impl with
  | Some first =>
      let dup_count := dup_count + 1 in
      '(dup_sample, g) ←
        reservoir_add dup_sample k dup_count
          ("line " +:+ pretty first +:+ " and line " +:+ pretty idx +:+ ": " +:+ impl) g;
      Ok (seen, dup_count, dup_sample, g)
  | None => Ok (<[impl := idx]> seen, dup_count, dup_sample, g)
  end.

Definition dup_check (impls : list string) (k : Z) (g : rng)
    : result (gmap string Z * Z * list string * rng) :=
  for_each (dup_step k) (enumerate impls) (∅, 0, [], g).

(** Line 114. *)
Definition valid_implicants (impls : list string) : list string :=
  omap (λ impl, if decide (strip impl = "") then None else Some (strip impl)) impls.

(** Lines 118-122: the state is [(covered_on, off_hit_count, off_hit_sample)]
    and the random stream. *)
Definition cover_step (on_set union_allowed : gset Z) (k : Z)
    (st : gset Z * Z * list Z * rng) (m : Z) : result (gset Z * Z * list Z * rng) :=
  let '(covered_on, off_hit_count, off_hit_sample, g) := st in
  if decide (m ∈ on_set) then Ok ({[m]} ∪ covered_on, off_hit_count, off_hit_sample, g)
  else if decide (m ∉ union_allowed) then
    let off_hit_count := off_hit_count + 1 in
    '(off_hit_sample, g) ← reservoir_add off_hit_sample k off_hit_count m g;
    Ok (covered_on, off_hit_count, off_hit_sample, g)
  else Ok st.

(** Lines 111-122. *)
Definition cover_check (n_bit : Z) (on_set union_allowed : gset Z)
    (impls : list string) (k : Z) (g : rng) : result (gset Z * Z * list Z * rng) :=
  let valid_implicants := valid_implicants impls in
  let st := (∅, 0, [], g) in
  if decide (valid_implicants ≠ []) then
    for_each
      (λ st impl,
         ms ← iter_implicant_minterms impl n_bit;
         for_each (cover_step on_set union_allowed k) ms st)
      valid_implicants st
  else Ok st.

(** Lines 124-134: the loop body with sampling (lines 128-130) and without
    (lines 133-134); the state is [(uncovered_count, uncovered_sample)] and
    the random stream. *)
Definition uncovered_step_sampled (covered_on : gset Z) (k : Z)
    (st : Z * list Z * rng) (m : Z) : result (Z * list Z * rng) :=
  let '(uncovered_count, uncovered_sample, g) := st in
  if decide (m ∉ covered_on) then
    let uncovered_count := uncovered_count + 1 in
    '(uncovered_sample, g) ← reservoir_add uncovered_sample k uncovered_count m g;
    Ok (uncovered_count, uncovered_sample, g)
  else Ok st.

Definition uncovered_step_counted (covered_on : gset Z)
    (st : Z * list Z * rng) (m : Z) : result (Z * list Z * rng) :=
  let '(uncovered_count, uncovered_sample, g) := st in
  if decide (m ∉ covered_on) then Ok (uncovered_count + 1, uncovered_sample, g)
  else Ok st.

(** [for m in on_set] visits the members in the order of the interpreter. *)
Definition uncovered_check {order : set_order} (on_set covered_on : gset Z) (k : Z)
    (g : rng) : result (Z * list Z * rng) :=
  if decide (k > 0) then
    for_each (uncovered_step_sampled covered_on k) (iterate on_set) (0, [], g)
  else
    for_each (uncovered_step_counted covered_on) (iterate on_set) (0, [], g).

(** Lines 88-136: everything [main] computes before it prints. *)
Definition verify {order : set_order} (n_bit : Z) (on_set dc_set : gset Z)
    (sop_lines : list string) (sample : Z) (g : rng) : result verdict :=
  let union_allowed := on_set ∪ dc_set in
  let implicants := read_sop_file sop_lines n_bit in
  _ ← validate_all implicants n_bit;
  let lit_count := count_literals implicants in
  let literal_product_expect := len_set on_set * n_bit in
  let fail_literal_product :=
    bool_decide (n_bit > 0) && bool_decide (len_set on_set > 0)
    && bool_decide (lit_count >= literal_product_expect) in
  let k := Z.max 0 sample in
  '(_, dup_count, dup_sample, g) ← dup_check implicants k g;
  '(covered_on, off_hit_count, off_hit_sample, g) ←
    cover_check n_bit on_set union_allowed implicants k g;
  '(uncovered_count, uncovered_sample, g) ← uncovered_check on_set covered_on k g;
  let passed :=
    bool_decide (dup_count = 0) && bool_decide (uncovered_count = 0)
    && bool_decide (off_hit_count = 0) && negb fail_literal_product in
  Ok {| implicants := implicants; lit_count := lit_count;
        fail_literal_product := fail_literal_product;
        dup_count := dup_count; dup_sample := dup_sample;
        covered_on := covered_on;
        off_hit_count := off_hit_count; off_hit_sample := off_hit_sample;
        uncovered_count := uncovered_count; uncovered_sample := uncovered_sample;
        passed := passed |}.

(** *** The report *)

(** [str * n]. *)
Fixpoint repeat_str (s : string) (n : nat) : string :=
  match n with
  | O => ""
  | S n => s +:+ repeat_str s n
  end.

(** [str(xs)] for a list whose items are already rendered. *)
Fixpoint join_comma (items : list string) : string :=
  match items with
  | [] => ""
  | [x] => x
  | x :: rest => x +:+ ", " +:+ join_comma rest
  end.
Definition repr_list (items : list string) : string := "[" +:+ join_comma items +:+ "]".

(** [repr(s)] for the strings of [dup_sample]: they hold letters, digits,
    spaces, [:] and [-] only, so [repr] is the text between single quotes. *)
Definition repr_str (s : string) : string := "'" +:+ s +:+ "'".

Definition pass_fail (b : bool) : string := if b then "PASS" else "FAIL".

(** Lines 138-143. *)
Definition print_quiet (v : verdict) : list string :=
  if passed v then ["PASS " +:+ pretty (lit_count v)] else ["FAIL"].

Definition print_stats (n_bit : Z) (on_set dc_set : gset Z) (v : verdict) : list string :=
  [ "bit width: " +:+ pretty n_bit;
    "on-set size: " +:+ pretty (len_set on_set);
    "dc-set size: " +:+ pretty (len_set dc_set);
    "SOP implicants: " +:+ pretty (Z.of_nat (length (implicants v)));
    "SOP literals: " +:+ pretty (lit_count v) ].

(** Lines 145-152. *)
Definition print_summary (n_bit : Z) (on_set dc_set : gset Z) (v : verdict) : list string :=
  print_stats n_bit on_set dc_set v ++ ["result: " +:+ pass_fail (passed v)].

(** Lines 154-197. *)
Definition print_detailed (n_bit : Z) (on_set dc_set : gset Z) (k : Z) (v : verdict)
    : list string :=
  let examples (xs : list string) : string :=
    if bool_decide (k > 0) && bool_decide (xs ≠ []) then " examples: " +:+ repr_list xs
    else "" in
  [repeat_str "=" 60] ++ print_stats n_bit on_set dc_set v
  ++ [repeat_str "-" 60]
  ++ (if decide (dup_count v ≠ 0) then
        ["[ERROR] duplicate implicants found (" +:+ pretty (dup_count v) +:+ ")."
         +:+ examples (repr_str <$> dup_sample v)]
      else ["[OK] no duplicate implicants."])
  ++ [repeat_str "-" 60]
  ++ (if fail_literal_product v then
        ["[ERROR] literal count >= |on-set| * n_bit (" +:+ pretty (lit_count v)
         +:+ " >= " +:+ pretty (len_set on_set) +:+ " * " +:+ pretty n_bit +:+ ")."]
      else
        ["[OK] literal count < |on-set| * n_bit."]
        ++ (if decide (len_set on_set = 0) then ["[NOTE] |on-set| = 0 (trivially satisfied)."]
            else []))
  ++ [repeat_str "-" 60]
  ++ (if decide (uncovered_count v ≠ 0) then
        ["[ERROR] on-set not covered (" +:+ pretty (uncovered_count v) +:+ " terms)."
         +:+ examples (pretty <$> uncovered_sample v)]
      else ["[OK] all on-set terms covered."])
  ++ [repeat_str "-" 60]
  ++ (if decide (off_hit_count v ≠ 0) then
        ["[ERROR] SOP covers off-set (" +:+ pretty (off_hit_count v) +:+ " terms)."
         +:+ examples (pretty <$> off_hit_sample v)]
      else ["[OK] SOP does not cover off-set."])
  ++ [repeat_str "=" 60]
  ++ ["[RESULT] " +:+ pass_fail (passed v)].

(** *** The process

    [stdout] holds the printed lines; an entry [e] of [stderr] is the line
    ["[EXCEPTION] " + str(e)]. *)
Record outcome : Type := {
  stdout : list string;
  stderr : list exception;
  exit_code : Z;
}.

(** [main]: the lines it prints, or the exception it raises. *)
Definition main {order : set_order} (n_bit : Z) (on_set dc_set : gset Z)
    (sop_lines : list string) (args : arguments) (g : rng) : result (list string) :=
  v ← verify n_bit on_set dc_set sop_lines (sample args) g;
  if quiet args then Ok (print_quiet v)
  else if summary args then Ok (print_summary n_bit on_set dc_set v)
  else Ok (print_detailed n_bit on_set dc_set (Z.max 0 (sample args)) v).

(** Lines 199-204: [main] under the handler that reports an exception and
    exits with status 1. *)
Definition run {order : set_order} (n_bit : Z) (on_set dc_set : gset Z)
    (sop_lines : list string) (args : arguments) (g : rng) : outcome :=
  match main n_bit on_set dc_set sop_lines args g with
  | Ok out => {| stdout := out; stderr := []; exit_code := 0 |}
  | Raise e => {| stdout := []; stderr := [e]; exit_code := 1 |}
  end.

(** * Notions used to state the properties *)

(** The bit positions of the occurrences of [c] in [cs], whose first
    character has index [i]. *)
Fixpoint positions_of (c : ascii) (n i : Z) (cs : list ascii) : list Z :=
  match cs with
  | [] => []
  | ch :: rest =>
      (if decide (ch = c) then [n - 1 - i] else []) ++ positions_of c n (i + 1) rest
  end.

(** Whether the loop of [fill_free] sets bit [b]. *)
Fixpoint mask_bit (ps : list Z) (m b : Z) : bool :=
  match ps with
  | [] => false
  | p :: rest => bool_decide (b = p) && Z.odd m || mask_bit rest (Z.shiftr m 1) b
  end.

(** The mask that selects the bits of [v] at the positions [ps]. *)
Fixpoint mask_of (v : Z) (ps : list Z) : Z :=
  match ps with
  | [] => 0
  | p :: rest => Z.b2z (Z.testbit v p) + 2 * mask_of v rest
  end.

(** The number of free positions of an implicant. *)
Definition free_count (impl : string) : Z :=
  Z.of_nat (length (filter (λ ch, ch = "-"%char) (chars impl))).

(** The cube of an implicant at width [n]: the minterms whose bits agree
    with its fixed positions, character [i] constraining bit [n - 1 - i]. *)
Definition in_cube (impl : string) (n v : Z) : Prop :=
  0 ≤ v < 2 ^ n
  ∧ ∀ (i : nat) (ch : ascii), chars impl !! i = Some ch →
      (ch = "0"%char → Z.testbit v (n - 1 - Z.of_nat i) = false)
      ∧ (ch = "1"%char → Z.testbit v (n - 1 - Z.of_nat i) = true).

(** The invariant of a sample list between two calls of [reservoir_add]:
    after [count] items it holds [min count k] of them. *)
Definition sample_inv {A : Type} (k count : Z) (sample : list A) : Prop :=
  Z.of_nat (length sample) = Z.min count k.

(** The number of implicants of [impls] already in [seen] or repeating an
    earlier one. *)
Fixpoint count_dups (seen : gset string) (impls : list string) : Z :=
  match impls with
  | [] => 0
  | impl :: rest =>
      if decide (impl ∈ seen) then 1 + count_dups seen rest
      else count_dups ({[impl]} ∪ seen) rest
  end.

(** The off-set of a specification. *)
Definition off_set (on_set dc_set : gset Z) (m : Z) : Prop :=
  (m ∉ on_set) ∧ (m ∉ dc_set).

Global Instance off_set_dec on_set dc_set m : Decision (off_set on_set dc_set m).
Proof. unfold off_set. apply _. Defined.

(** What one implicant contributes to the coverage loop, and the
    (implicant, minterm) pairs the loop visits, in order. *)
Definition minterms_of (impl : string) (n_bit : Z) : list Z :=
  result_default [] (iter_implicant_minterms impl n_bit).

Definition events_of (n_bit : Z) (impls : list string) : list (string * Z) :=
  impls ≫= λ impl, (λ m, (impl, m)) <$> minterms_of impl n_bit.

Definition enumeration_events (n_bit : Z) (impls : list string) : list (string * Z) :=
  events_of n_bit (valid_implicants impls).

(** What [verify] computes, said without the random stream: every counter
    of the verdict is a function of the specification and of the
    implicants, and each sample list holds [min count k] examples. *)
Record verdict_spec (n_bit : Z) (on_set dc_set : gset Z) (impls : list string)
    (k : Z) (v : verdict) : Prop := {
  spec_implicants : implicants v = impls;
  spec_lit_count : lit_count v = count_literals impls;
  spec_fail_literal_product :
    fail_literal_product v
    = bool_decide (n_bit > 0) && bool_decide (len_set on_set > 0)
      && bool_decide (count_literals impls >= len_set on_set * n_bit);
  spec_dup_count : dup_count v = count_dups ∅ impls;
  spec_covered_on :
    covered_on v = on_set ∩ list_to_set (enumeration_events n_bit impls).*2;
  spec_off_hit_count :
    off_hit_count v
    = Z.of_nat (length (filter (λ e, off_set on_set dc_set e.2)
                          (enumeration_events n_bit impls)));
  spec_uncovered_count :
    uncovered_count v = Z.of_nat (size (on_set ∖ covered_on v));
  spec_passed :
    passed v
    = bool_decide (dup_count v = 0) && bool_decide (uncovered_count v = 0)
      && bool_decide (off_hit_count v = 0) && negb (fail_literal_product v);
  spec_dup_sample : sample_inv k (dup_count v) (dup_sample v);
  spec_off_hit_sample : sample_inv k (off_hit_count v) (off_hit_sample v);
  spec_uncovered_sample : sample_inv k (uncovered_count v) (uncovered_sample v);
}.

(** The fields of the verdict that the specification and the implicants
    determine: everything but the three sample lists. *)
Definition counters (v : verdict)
    : list string * Z * bool * Z * gset Z * Z * Z * bool :=
  (implicants v, lit_count v, fail_literal_product v, dup_count v,
   covered_on v, off_hit_count v, uncovered_count v, passed v).

(** The number of ['0'] and ['1'] characters of the implicants. *)
Definition literals (impls : list string) : Z :=
  Z.of_nat (length (filter (λ ch, ch = "0"%char ∨ ch = "1"%char) (impls ≫= chars))).

(** A file line that holds only the line feed. *)
Definition LF : string := String "010"%char "".

(** An implicant is invalid when its length differs from the bit width, when
    it holds a character other than [0], [1] and [-], or when it is not
    empty at width 0. *)
Definition invalid_implicant (impl : string) (n_bit : Z) : Prop :=
  len_str impl ≠ n_bit
  ∨ Exists (λ ch, ch ≠ "0"%char ∧ ch ≠ "1"%char ∧ ch ≠ "-"%char) (chars impl)
  ∨ (n_bit = 0 ∧ impl ≠ "").

Global Instance invalid_implicant_dec impl n_bit : Decision (invalid_implicant impl n_bit).
Proof. unfold invalid_implicant. apply _. Defined.

(** The errors of [validate_implicant] about the implicant [impl]. *)
Definition InvalidImplicantError (impl : string) (n_bit : Z) (e : exception) : Prop :=
  e = ValueError_zero_width ∨ e = ValueError_length n_bit impl
  ∨ e = ValueError_illegal_char impl.

(** The calls [main] makes for one sample list: the counter is incremented
    and [reservoir_add] is called with it, once per qualifying item. *)
Fixpoint reservoir_feed {A : Type} (sample : list A) (k count : Z) (items : list A)
    (g : rng) : result (list A * rng) :=
  match items with
  | [] => Ok (sample, g)
  | item :: rest =>
      '(sample, g) ← reservoir_add sample k (count + 1) item g;
      reservoir_feed sample k (count + 1) rest g
  end.

(** * Further notions *)

(** A sample list against the items offered to it so far: it holds
    [min (number of items) k] of them, only items that were offered, and
    all of them in order while they fit. *)
Definition offered_inv {A : Type} (k : Z) (items sample : list A) : Prop :=
  Z.of_nat (length sample) = Z.min (Z.of_nat (length items)) k
  ∧ Forall (λ x, x ∈ items) sample
  ∧ (Z.of_nat (length items) ≤ k → sample = items).

(** The example text of line 107. *)
Definition dup_text (first idx : Z) (impl : string) : string :=
  "line " +:+ pretty first +:+ " and line " +:+ pretty idx +:+ ": " +:+ impl.

(** The examples the duplicate loop offers to its sample, in order, from
    index [idx] on with the dictionary [seen]. *)
Fixpoint dup_items (idx : Z) (seen : gmap string Z) (impls : list string) : list string :=
  match impls with
  | [] => []
  | impl :: rest =>
      match seen !! impl with
      | Some first => dup_text first idx impl :: dup_items (idx + 1) seen rest
      | None => dup_items (idx + 1) (<[impl := idx]> seen) rest
      end
  end.

(** The minterms the coverage loop offers to its sample, in order. *)
Definition off_hit_items (n_bit : Z) (on_set dc_set : gset Z) (impls : list string)
    : list Z :=
  filter (off_set on_set dc_set) (enumeration_events n_bit impls).*2.

(** The on-set members the last loop offers to its sample, in the order in
    which the on-set is iterated. *)
Definition uncovered_items {order : set_order} (on_set covered : gset Z) : list Z :=
  filter (λ m, m ∉ covered) (iterate on_set).

(** Index [f] is the first place where [impl] occurs in [impls]. *)
Definition first_occurrence (impls : list string) (f : nat) (impl : string) : Prop :=
  impls !! f = Some impl ∧ ∀ f' : nat, (f' < f)%nat → impls !! f' ≠ Some impl.

(** A duplicate example that tells the truth about [impls]: it names an
    implicant, the place of its first occurrence and a later place where it
    occurs again. *)
Definition genuine_duplicate (impls : list string) (example : string) : Prop :=
  ∃ (i j : nat) (impl : string),
    example = dup_text (Z.of_nat i) (Z.of_nat j) impl
    ∧ first_occurrence impls i impl
    ∧ impls !! j = Some impl
    ∧ (i < j)%nat.



(** The integer an implicant without free position writes in binary, most
    significant bit first: ['1'] is 1, any other character 0. *)
Definition bin_value (impl : string) : Z :=
  fold_left (λ acc ch, 2 * acc + Z.b2z (bool_decide (ch = "1"%char))) (chars impl) 0.

(** The number of ['-'] characters of the implicants. *)
Definition dashes (impls : list string) : Z :=
  Z.of_nat (length (filter (λ ch, ch = "-"%char) (impls ≫= chars))).

(** * The specification loader and the harness side of the quiet line

    More Python primitives first.  [int] refuses a decimal text with more
    digits than the limit of the interpreter; that limit is the parameter
    [max_str_digits] of the functions below.  The same limit on the other
    direction, [str] of an integer, is not modelled: [pretty] writes an
    integer of any size. *)

(** [s.split()]: the maximal runs of non-whitespace characters; [cur] holds
    the run being read, last character first. *)
Fixpoint split_chars (cs cur : list ascii) : list string :=
  match cs with
  | [] =>
      match cur with
      | [] => []
      | _ => [string_of_list_ascii (rev cur)]
      end
  | c :: rest =>
      if is_space c then
        match cur with
        | [] => split_chars rest []
        | _ => string_of_list_ascii (rev cur) :: split_chars rest []
        end
      else split_chars rest (c :: cur)
  end.

Definition split (s : string) : list string := split_chars (chars s) [].

(** The value of a decimal digit. *)
Definition digit_value (c : ascii) : option Z :=
  let n := nat_of_ascii c in
  if ((48 <=? n) && (n <=? 57))%nat then Some (Z.of_nat n - 48) else None.

(** The digits of an integer literal: at least one digit, single underscores
    allowed between digits. *)
Fixpoint int_digits (cs : list ascii) (acc : Z) (after_digit : bool) : option Z :=
  match cs with
  | [] => if after_digit then Some acc else None
  | c :: rest =>
      match digit_value c with
      | Some d => int_digits rest (10 * acc + d) true
      | None =>
          if decide (c = "_"%char) then
            if after_digit then int_digits rest acc false else None
          else None
      end
  end.

(** The limit on the digits of a text that [int] converts:
    [max_str_digits] is [sys.get_int_max_str_digits()], which is 4300 unless
    the interpreter is configured otherwise and 0 when the limit is off; a
    text of at most 640 digits is never checked.  Underscores are not
    counted. *)
Definition default_max_str_digits : Z := 4300.
Definition str_digits_check_threshold : Z := 640.

Definition digit_count (cs : list ascii) : Z :=
  Z.of_nat (length (filter (λ c, is_Some (digit_value c)) cs)).

Definition over_digit_limit (max_str_digits digits : Z) : bool :=
  bool_decide (digits > str_digits_check_threshold)
  && bool_decide (max_str_digits > 0)
  && bool_decide (digits > max_str_digits).

(** The text after the sign: well-formed digits, then the limit. *)
Definition int_literal (max_str_digits : Z) (cs : list ascii) : option Z :=
  z ← int_digits cs 0 false;
  if over_digit_limit max_str_digits (digit_count cs) then None else Some z.

(** [int(s)] in base 10; [None] stands for the [ValueError] it raises:
    surrounding whitespace is dropped, then an optional sign, then the
    digits. *)
Definition py_int (max_str_digits : Z) (s : string) : option Z :=
  match chars (strip s) with
  | [] => None
  | c :: cs =>
      if decide (c = "+"%char) then int_literal max_str_digits cs
      else if decide (c = "-"%char) then Z.opp <$> int_literal max_str_digits cs
      else int_literal max_str_digits (c :: cs)
  end.

(** ** [parse_spec_file] *)

(** What the loader can raise: an [IndexError] when the file has fewer than
    three lines, a [ValueError] when [int] refuses a text. *)
Inductive spec_exception : Type :=
  | IndexError_line
      (* "list index out of range" *)
  | ValueError_literal (text : string).
      (* the [ValueError] of [int(text)]: "invalid literal for int() with
         base 10: {text!r}", or "Exceeds the limit ..." for a text with too
         many digits *)

Inductive loaded (A : Type) : Type :=
  | Loaded (a : A)
  | Failed (e : spec_exception).
Arguments Loaded {A} a.
Arguments Failed {A} e.

Global Instance loaded_ret : MRet loaded := λ A a, Loaded a.
Global Instance loaded_bind : MBind loaded := λ A B f m,
  match m with
  | Loaded a => f a
  | Failed e => Failed e
  end.

(** [lines[i]]. *)
Definition line_at (lines : list string) (i : nat) : loaded string :=
  match lines !! i with
  | Some line => Loaded line
  | None => Failed IndexError_line
  end.

(** [int(text)]. *)
Definition to_int (max_str_digits : Z) (text : string) : loaded Z :=
  match py_int max_str_digits text with
  | Some z => Loaded z
  | None => Failed (ValueError_literal text)
  end.

(** [{int(tok) for tok in toks}]: the tokens are converted in order. *)
Fixpoint int_set (max_str_digits : Z) (toks : list string) : loaded (gset Z) :=
  match toks with
  | [] => Loaded ∅
  | tok :: rest =>
      z ← to_int max_str_digits tok; X ← int_set max_str_digits rest; Loaded ({[z]} ∪ X)
  end.

(** [{int(tok) for tok in line.split()} if line else set()]. *)
Definition set_line (max_str_digits : Z) (line : string) : loaded (gset Z) :=
  if decide (line ≠ "") then int_set max_str_digits (split line) else Loaded ∅.

(** Lines 6-12; [raw_lines] is what [f.readlines()] returns. *)
Definition parse_spec_file (max_str_digits : Z) (raw_lines : list string)
    : loaded (Z * gset Z * gset Z) :=
  let lines := strip <$> raw_lines in
  first ← line_at lines 0;
  n_bit ← to_int max_str_digits first;
  second ← line_at lines 1;
  on_set ← set_line max_str_digits second;
  third ← line_at lines 2;
  dc_set ← set_line max_str_digits third;
  Loaded (n_bit, on_set, dc_set).

(** ** [parse_checker_quiet_line] and [get_student_id] of [evaluator.py] *)

(** The line boundaries of [str.splitlines]: LF, VT, FF, CR, the separators
    0x1c-0x1e and NEL. *)
Definition is_line_break (c : ascii) : bool :=
  let n := nat_of_ascii c in
  ((10 <=? n) && (n <=? 13) || (28 <=? n) && (n <=? 30) || (n =? 133))%nat.

(** [s.splitlines()]: [cur] holds the line being read, last character first;
    CR LF is one boundary; a final boundary opens no further line. *)
Fixpoint splitlines_chars (cs cur : list ascii) : list string :=
  match cs with
  | [] =>
      match cur with
      | [] => []
      | _ => [string_of_list_ascii (rev cur)]
      end
  | c :: rest =>
      if is_line_break c then
        string_of_list_ascii (rev cur)
        :: match rest with
           | c' :: rest' =>
               if decide (c = "013"%char ∧ c' = "010"%char) then splitlines_chars rest' []
               else splitlines_chars rest []
           | [] => []
           end
      else splitlines_chars rest (c :: cur)
  end.

Definition splitlines (s : string) : list string := splitlines_chars (chars s) [].

(** [s.startswith(prefix)]. *)
Definition startswith (s prefix : string) : bool := String.prefix prefix s.

Fixpoint drop_spaces (cs : list ascii) : list ascii :=
  match cs with
  | [] => []
  | c :: rest => if is_space c then drop_spaces rest else cs
  end.

Fixpoint take_digits (cs : list ascii) : list ascii * list ascii :=
  match cs with
  | [] => ([], [])
  | c :: rest =>
      match digit_value c with
      | Some _ => let '(ds, tail) := take_digits rest in (c :: ds, tail)
      | None => ([], cs)
      end
  end.

(** [re.match(r"^PASS\s+(\d+)\s*$", last)], giving group 1: the text must
    be [PASS], at least one whitespace character, at least one digit (the
    group takes them all), whitespace up to the end. *)
Definition match_pass_count (last : string) : option string :=
  match chars last with
  | "P"%char :: "A"%char :: "S"%char :: "S"%char :: c :: rest =>
      if is_space c then
        let '(ds, tail) := take_digits (drop_spaces rest) in
        match ds, drop_spaces tail with
        | _ :: _, [] => Some (string_of_list_ascii ds)
        | _, _ => None
        end
      else None
  | _ => None
  end.

(** Lines 70-76; [None] stands for a [ValueError] of [int]. *)
Definition parse_checker_quiet_line (max_str_digits : Z) (s : string)
    : option (bool * option Z) :=
  let lines :=
    omap (λ ln, if decide (strip ln ≠ "") then Some (strip ln) else None)
      (splitlines (strip s)) in
  let last := default "" (last lines) in
  if startswith last "PASS" then
    match match_pass_count last with
    | Some digits => lit ← py_int max_str_digits digits; Some (true, Some lit)
    | None => Some (true, None)
    end
  else Some (false, None).

(** [s[1:]]. *)
Definition drop_first (s : string) : string :=
  match s with
  | EmptyString => EmptyString
  | String _ rest => rest
  end.

(** Lines 49-53; [None] stands for the [IndexError] of [name.split()[0]]. *)
Definition get_student_id (name : string) : option string :=
  match split name with
  | [] => None
  | sid :: _ => Some (if startswith sid "\" then drop_first sid else sid)
  end.

(** What the process writes on its standard output: every printed line
    followed by a line feed. *)
Definition stdout_text (lines : list string) : string :=
  foldr (λ line text, line +:+ LF +:+ text) "" lines.

(** [" ".join(toks)]. *)
Fixpoint unwords (toks : list string) : string :=
  match toks with
  | [] => ""
  | [tok] => tok
  | tok :: rest => tok +:+ " " +:+ unwords rest
  end.

(** An integer whose decimal text [int] refuses under the limit
    [max_str_digits]: the limit is on and the integer has more digits than
    both the limit and the threshold. *)
Definition too_long (max_str_digits z : Z) : Prop :=
  0 < max_str_digits ∧ 10 ^ Z.max max_str_digits str_digits_check_threshold ≤ Z.abs z.

Global Instance too_long_dec max_str_digits z : Decision (too_long max_str_digits z).
Proof. unfold too_long. apply _. Defined.

(** The first text that [int] refuses, if any. *)
Definition first_refused (max_str_digits : Z) (texts : list string) : option string :=
  snd <$> list_find (λ text, py_int max_str_digits text = None) texts.

(** * The meaning of the verdict *)

(** A solution is a correct cover of a specification at width [n_bit]: no
    implicant is repeated, every on-set minterm lies in the cube of some
    implicant, and no cube holds a minterm outside the on-set and the
    don't-care set. *)
Definition correct_cover (n_bit : Z) (on_set dc_set : gset Z) (impls : list string)
    : Prop :=
  NoDup impls
  ∧ (∀ m, m ∈ on_set → ∃ impl, impl ∈ impls ∧ in_cube impl n_bit m)
  ∧ (∀ impl m, impl ∈ impls → in_cube impl n_bit m → m ∈ on_set ∨ m ∈ dc_set).

(** The fields of the verdict other than the implicants and the samples. *)
Definition measures (v : verdict) : Z * bool * Z * gset Z * Z * Z * bool :=
  (lit_count v, fail_literal_product v, dup_count v, covered_on v,
   off_hit_count v, uncovered_count v, passed v).

(** * Properties *)

(** ** Bits *)

Lemma testbit_shl1 (p b : Z) : 0 ≤ p → Z.testbit (Z.shiftl 1 p) b = bool_decide (b = p).
Proof.
  intros Hp. rewrite Z.shiftl_1_l, Z.pow2_bits_eqb by done.
  case_bool_decide; [apply Z.eqb_eq | apply Z.eqb_neq]; lia.
Qed.

Lemma land_1_odd (m : Z) : Z.land m 1 ≠ 0 ↔ Z.odd m = true.
Proof.
  change 1 with (Z.ones 1). rewrite Z.land_ones by lia.
  change (2 ^ 1) with 2. rewrite <- Z.bit0_mod, Z.bit0_odd.
  destruct (Z.odd m); simpl; split; intros; try done; lia.
Qed.

Lemma testbit_high_bounded (n v : Z) :
  0 ≤ n → 0 ≤ v → (∀ b, n ≤ b → Z.testbit v b = false) → 0 ≤ v < 2 ^ n.
Proof. intros Hn Hv Hb. by apply Z.bounded_iff_bits_nonneg'. Qed.

Lemma bounded_testbit_high (n v b : Z) :
  0 ≤ n → 0 ≤ v < 2 ^ n → n ≤ b → Z.testbit v b = false.
Proof.
  intros Hn Hv Hb.
  by apply (proj1 (Z.bounded_iff_bits_nonneg' n v Hn (proj1 Hv))).
Qed.

(** ** The two loops of the enumerator *)

Lemma elem_of_positions_of c n i cs p :
  p ∈ positions_of c n i cs ↔ ∃ k : nat, cs !! k = Some c ∧ p = n - 1 - i - Z.of_nat k.
Proof.
  revert i. induction cs as [|ch rest IH]; intros i; simpl.
  - split; [by intros ?%elem_of_nil | by intros (k & ? & _)].
  - rewrite elem_of_app, IH. split.
    + intros [Hp | (k & Hk & ->)].
      * case_decide; [|by apply elem_of_nil in Hp].
        apply list_elem_of_singleton in Hp. exists 0%nat. split; [by subst|lia].
      * exists (S k). split; [done|lia].
    + intros ([|k] & Hk & ->); simpl in Hk.
      * left. injection Hk as ->. rewrite decide_True by done.
        apply list_elem_of_singleton. lia.
      * right. exists k. split; [done|lia].
Qed.

Lemma positions_of_length c n i cs :
  length (positions_of c n i cs) = length (filter (λ ch, ch = c) cs).
Proof.
  revert i. induction cs as [|ch rest IH]; intros i; simpl; [done|].
  rewrite length_app, IH, filter_cons. by case_decide.
Qed.

Lemma NoDup_positions_of c n i cs : NoDup (positions_of c n i cs).
Proof.
  revert i. induction cs as [|ch rest IH]; intros i; simpl; [constructor|].
  case_decide; simpl; [|done]. constructor; [|done].
  rewrite elem_of_positions_of. intros (k & _ & ?). lia.
Qed.

Lemma positions_of_disjoint c1 c2 n i cs p :
  p ∈ positions_of c1 n i cs → p ∈ positions_of c2 n i cs → c1 = c2.
Proof.
  rewrite !elem_of_positions_of. intros (k1 & H1 & ->) (k2 & H2 & ?).
  assert (k1 = k2) as -> by lia. congruence.
Qed.

Lemma positions_of_range c n i cs p :
  0 ≤ i → i + Z.of_nat (length cs) ≤ n → p ∈ positions_of c n i cs → 0 ≤ p < n - i.
Proof.
  intros Hi Hn. rewrite elem_of_positions_of. intros (k & Hk & ->).
  apply lookup_lt_Some in Hk. lia.
Qed.

Lemma scan_implicant_spec n i cs base free :
  0 ≤ i → i + Z.of_nat (length cs) ≤ n → 0 ≤ base →
  ∃ base',
    scan_implicant n i cs base free = Ok (base', free ++ positions_of "-" n i cs)
    ∧ 0 ≤ base'
    ∧ ∀ b, Z.testbit base' b
           = Z.testbit base b || bool_decide (b ∈ positions_of "1" n i cs).
Proof.
  revert i base free. induction cs as [|ch rest IH]; intros i base free Hi Hn Hb.
  - exists base. simpl. rewrite app_nil_r. split_and!; [done..|].
    intros b. by rewrite orb_false_r.
  - simpl in Hn |- *. unfold shl1.
    destruct (decide (ch = "1"%char)) as [->|Hne1].
    + rewrite decide_False by lia. simpl.
      destruct (IH (i + 1) (Z.lor base (Z.shiftl 1 (n - 1 - i))) free)
        as (base' & Hscan & Hnn & Hbits); [lia..| |].
      { apply Z.lor_nonneg. split; [done|]. rewrite Z.shiftl_1_l. lia. }
      exists base'. rewrite Hscan. split_and!; [done..|].
      intros b. rewrite Hbits, Z.lor_spec, testbit_shl1 by lia.
      rewrite <- orb_assoc. f_equal.
      apply eq_true_iff_eq.
      rewrite orb_true_iff, !bool_decide_eq_true, elem_of_cons. tauto.
    + destruct (decide (ch = "-"%char)) as [->|Hne2].
      * destruct (IH (i + 1) base (free ++ [n - 1 - i])) as (base' & Hscan & Hnn & Hbits);
          [lia..|done|].
        exists base'. rewrite Hscan, <- app_assoc. by split_and!.
      * destruct (IH (i + 1) base free) as (base' & Hscan & Hnn & Hbits); [lia..|done|].
        exists base'. by rewrite Hscan.
Qed.

Lemma fill_free_spec ps v m :
  Forall (λ p, 0 ≤ p) ps → 0 ≤ v →
  ∃ v', fill_free ps v m = Ok v' ∧ 0 ≤ v'
        ∧ ∀ b, Z.testbit v' b = Z.testbit v b || mask_bit ps m b.
Proof.
  intros Hps. revert v m. induction Hps as [|p rest Hp _ IH]; intros v m Hv; simpl.
  - exists v. split_and!; [done..|]. intros b. by rewrite orb_false_r.
  - destruct (decide (Z.land m 1 ≠ 0)) as [Hodd|Hodd]; rewrite land_1_odd in Hodd.
    + unfold shl1. rewrite decide_False by lia. simpl.
      destruct (IH (Z.lor v (Z.shiftl 1 p)) (Z.shiftr m 1)) as (v' & Hfill & Hnn & Hbits).
      { apply Z.lor_nonneg. split; [done|]. rewrite Z.shiftl_1_l. lia. }
      exists v'. split_and!; [done..|]. intros b.
      by rewrite Hbits, Z.lor_spec, testbit_shl1, Hodd, andb_true_r, orb_assoc.
    + simpl. destruct (IH v (Z.shiftr m 1) Hv) as (v' & Hfill & Hnn & Hbits).
      exists v'. split_and!; [done..|]. intros b. rewrite Hbits.
      apply not_true_is_false in Hodd. by rewrite Hodd, andb_false_r.
Qed.

Lemma mask_bit_not_elem ps m b : b ∉ ps → mask_bit ps m b = false.
Proof.
  revert m. induction ps as [|p rest IH]; intros m Hb; simpl; [done|].
  apply not_elem_of_cons in Hb as [Hne Hb].
  by rewrite bool_decide_eq_false_2, IH.
Qed.

Lemma mask_bit_lookup ps m (j : nat) b :
  NoDup ps → ps !! j = Some b → mask_bit ps m b = Z.testbit m (Z.of_nat j).
Proof.
  intros Hnd. revert m j.
  induction Hnd as [|p rest Hp Hnd IH]; intros m [|j] Hj;
    simpl in Hj; cbn [mask_bit]; try done.
  - injection Hj as ->. rewrite bool_decide_eq_true_2 by done.
    by rewrite mask_bit_not_elem, Z.bit0_odd, orb_false_r.
  - rewrite bool_decide_eq_false_2.
    + rewrite (IH _ j Hj), Z.shiftr_spec by lia. cbn [andb orb]. f_equal. lia.
    + intros ->. apply Hp. by eapply list_elem_of_lookup_2.
Qed.

Lemma mask_of_range v ps : 0 ≤ mask_of v ps < 2 ^ Z.of_nat (length ps).
Proof.
  induction ps as [|p rest IH]; simpl length; simpl mask_of; [simpl; lia|].
  rewrite Nat2Z.inj_succ, Z.pow_succ_r by lia.
  destruct (Z.testbit v p); simpl Z.b2z; lia.
Qed.

Lemma mask_bit_mask_of v ps b :
  mask_bit ps (mask_of v ps) b = bool_decide (b ∈ ps) && Z.testbit v b.
Proof.
  induction ps as [|p rest IH]; cbn [mask_bit mask_of].
  - by rewrite bool_decide_eq_false_2 by apply not_elem_of_nil.
  - assert (Z.odd (Z.b2z (Z.testbit v p) + 2 * mask_of v rest) = Z.testbit v p) as ->.
    { rewrite Z.odd_add_mul_2. by destruct (Z.testbit v p). }
    assert (Z.shiftr (Z.b2z (Z.testbit v p) + 2 * mask_of v rest) 1 = mask_of v rest) as ->.
    { rewrite Z.shiftr_div_pow2 by lia. change (2 ^ 1) with 2.
      destruct (Z.testbit v p); simpl Z.b2z; Z.to_euclidean_division_equations; lia. }
    rewrite IH. destruct (decide (b = p)) as [->|Hne].
    + rewrite (bool_decide_eq_true_2 (p = p)) by done.
      rewrite (bool_decide_eq_true_2 (p ∈ p :: rest)) by left.
      cbn [andb orb]. by destruct (Z.testbit v p), (bool_decide (p ∈ rest)).
    + rewrite (bool_decide_eq_false_2 (b = p)) by done. cbn [andb orb].
      f_equal. apply bool_decide_ext. rewrite elem_of_cons. tauto.
Qed.

(** ** Validation *)

Lemma check_chars_Ok impl cs :
  check_chars impl cs = Ok () ↔ Forall (λ ch, legal_char ch = true) cs.
Proof.
  induction cs as [|ch rest IH]; simpl; [by split|].
  rewrite Forall_cons. destruct (legal_char ch); [|by split; [|intros []]].
  rewrite IH. tauto.
Qed.

Lemma check_chars_Raise impl cs e :
  check_chars impl cs = Raise e → e = ValueError_illegal_char impl.
Proof.
  induction cs as [|ch rest IH]; simpl; [done|].
  destruct (legal_char ch); [done|congruence].
Qed.

Lemma chars_nil s : chars s = [] ↔ s = "".
Proof. destruct s; by split. Qed.

Lemma validate_implicant_Ok impl n :
  validate_implicant impl n = Ok () ↔
  (n = 0 ∧ impl = "")
  ∨ (n ≠ 0 ∧ len_str impl = n ∧ Forall (λ ch, legal_char ch = true) (chars impl)).
Proof.
  unfold validate_implicant. repeat case_decide.
  - split; [done|]. intros [[_ ?]|[? _]]; done.
  - split; [|done]. intros _. left. split; [done|].
    by destruct (decide (impl = "")).
  - split; [done|]. intros [[? _]|(_ & ? & _)]; done.
  - rewrite check_chars_Ok. split; [|intros [[? _]|(_ & _ & ?)]; done].
    intros ?. right. split_and!; [done| |done].
    by destruct (decide (len_str impl = n)).
Qed.

Lemma legal_char_cases ch :
  legal_char ch = true → ch = "0"%char ∨ ch = "1"%char ∨ ch = "-"%char.
Proof.
  unfold legal_char. rewrite !orb_true_iff, !bool_decide_eq_true. tauto.
Qed.

(** ** The enumerator yields the cube *)

Lemma for_each_collect {A B : Type} (f : A → result B) (g : A → B) xs acc :
  (∀ x, x ∈ xs → f x = Ok (g x)) →
  for_each (λ yielded x, v ← f x; Ok (yielded ++ [v])) xs acc = Ok (acc ++ (g <$> xs)).
Proof.
  revert acc. induction xs as [|x rest IH]; intros acc Hf; simpl.
  - by rewrite app_nil_r.
  - rewrite (Hf x) by left. simpl. rewrite IH.
    + by rewrite <- app_assoc.
    + intros y Hy. apply Hf. by right.
Qed.

(** What a non-zero-width valid implicant yields: one value per mask, whose
    bits are those of the literal ones and of the free positions the mask
    selects. *)
Lemma iter_implicant_minterms_masks impl n :
  n ≠ 0 → len_str impl = n →
  let ones := positions_of "1" n 0 (chars impl) in
  let free := positions_of "-" n 0 (chars impl) in
  ∃ g : Z → Z,
    iter_implicant_minterms impl n = Ok (g <$> seqZ 0 (2 ^ free_count impl))
    ∧ ∀ m, 0 ≤ g m
           ∧ ∀ b, Z.testbit (g m) b = bool_decide (b ∈ ones) || mask_bit free m b.
Proof.
  intros Hn0 Hlen ones free. unfold iter_implicant_minterms, len_str in *.
  rewrite decide_False by done.
  destruct (scan_implicant_spec n 0 (chars impl) 0 []) as (base & Hscan & Hnn & Hbase);
    [lia..|].
  rewrite Hscan. simpl. fold free.
  assert (Forall (λ p, 0 ≤ p) free) as Hfree.
  { apply Forall_forall. intros p Hp.
    apply positions_of_range in Hp; lia. }
  exists (λ m, result_default 0 (fill_free free base m)).
  assert (∀ m, fill_free free base m = Ok (result_default 0 (fill_free free base m))) as Hok.
  { intros m. destruct (fill_free_spec free base m Hfree Hnn) as (v & -> & _); done. }
  split.
  - rewrite Z.shiftl_1_l. unfold free_count, free.
    rewrite positions_of_length.
    by rewrite (for_each_collect (fill_free (positions_of "-" n 0 (chars impl)) base)
                 (λ m, result_default 0 (fill_free free base m))).
  - intros m. destruct (fill_free_spec free base m Hfree Hnn) as (v & Hv & Hvnn & Hbits).
    rewrite Hv. simpl. split; [done|]. intros b.
    by rewrite Hbits, Hbase, Z.testbit_0_l.
Qed.

Lemma elem_of_positions_of_0 c n cs p :
  p ∈ positions_of c n 0 cs ↔ ∃ k : nat, cs !! k = Some c ∧ p = n - 1 - Z.of_nat k.
Proof.
  rewrite elem_of_positions_of. split; intros (k & ? & ->); exists k; split; (done || lia).
Qed.

(** The masks below [2^f] and the cube of a valid implicant of non-zero
    width correspond one to one. *)
Lemma iter_implicant_minterms_bijection impl n :
  n ≠ 0 → len_str impl = n → Forall (λ ch, legal_char ch = true) (chars impl) →
  ∃ g : Z → Z,
    iter_implicant_minterms impl n = Ok (g <$> seqZ 0 (2 ^ free_count impl))
    ∧ (∀ m, in_cube impl n (g m))
    ∧ (∀ m1 m2, 0 ≤ m1 < 2 ^ free_count impl → 0 ≤ m2 < 2 ^ free_count impl →
         g m1 = g m2 → m1 = m2)
    ∧ (∀ v, in_cube impl n v → ∃ m, 0 ≤ m < 2 ^ free_count impl ∧ g m = v).
Proof.
  intros Hn0 Hlen Hlegal.
  destruct (iter_implicant_minterms_masks impl n Hn0 Hlen) as (g & Hiter & Hg).
  set (ones := positions_of "1" n 0 (chars impl)) in *.
  set (free := positions_of "-" n 0 (chars impl)) in *.
  assert (free_count impl = Z.of_nat (length free)) as Hf.
  { unfold free_count, free. by rewrite positions_of_length. }
  assert (0 < n) as Hn by (unfold len_str in Hlen; lia).
  assert (∀ b, 0 ≤ b < n →
            ∃ (i : nat) ch, chars impl !! i = Some ch ∧ legal_char ch = true
                            ∧ b = n - 1 - Z.of_nat i) as Hpos.
  { intros b Hb. unfold len_str in Hlen.
    destruct (lookup_lt_is_Some_2 (chars impl) (Z.to_nat (n - 1 - b))) as [ch Hch]; [lia|].
    exists (Z.to_nat (n - 1 - b)), ch. split_and!; [done| |lia].
    eapply Forall_forall in Hlegal; [done|]. by eapply list_elem_of_lookup_2. }
  assert (∀ p, p ∈ free → p ∉ ones) as Hdisj.
  { intros p Hp1 Hp2. by pose proof (positions_of_disjoint _ _ _ _ _ _ Hp1 Hp2). }
  exists g. split_and!; [done| | |].
  - intros m. destruct (Hg m) as [Hnn Hbits]. split.
    + apply testbit_high_bounded; [lia|done|]. intros b Hb.
      rewrite Hbits, bool_decide_eq_false_2, mask_bit_not_elem; [done| |].
      * intros Hin%positions_of_range; unfold len_str in *; lia.
      * intros Hin%positions_of_range; unfold len_str in *; lia.
    + intros i ch Hi. split; intros ->; rewrite Hbits.
      * rewrite bool_decide_eq_false_2, mask_bit_not_elem; [done| |].
        -- intros (k & Hk & ?)%elem_of_positions_of_0.
           assert (k = i) as -> by lia. congruence.
        -- intros (k & Hk & ?)%elem_of_positions_of_0.
           assert (k = i) as -> by lia. congruence.
      * rewrite bool_decide_eq_true_2; [done|].
        apply elem_of_positions_of_0. by exists i.
  - intros m1 m2 Hm1 Hm2 Heq. apply Z.bits_inj'. intros j Hj.
    destruct (decide (j < free_count impl)) as [Hlt|Hge].
    + destruct (lookup_lt_is_Some_2 free (Z.to_nat j)) as [p Hp]; [lia|].
      assert (p ∈ free) as Hin by by eapply list_elem_of_lookup_2.
      pose proof (proj2 (Hg m1) p) as H1. pose proof (proj2 (Hg m2) p) as H2.
      rewrite Heq, H2 in H1.
      rewrite bool_decide_eq_false_2 in H1 by by apply Hdisj.
      rewrite !(mask_bit_lookup free _ (Z.to_nat j) p) in H1
        by (done || apply NoDup_positions_of).
      rewrite Z2Nat.id in H1 by done. by simpl in H1.
    + rewrite !(bounded_testbit_high (free_count impl)); (done || lia).
  - intros v [Hv Hfix]. exists (mask_of v free). split.
    { rewrite Hf. apply mask_of_range. }
    apply Z.bits_inj'. intros b Hb.
    rewrite (proj2 (Hg _)), mask_bit_mask_of.
    destruct (decide (b < n)) as [Hlt|Hge].
    + destruct (Hpos b) as (i & ch & Hch & Hlegal' & ->); [lia|].
      destruct (Hfix i ch Hch) as [H0 H1].
      destruct (legal_char_cases ch Hlegal') as [->|[->| ->]].
      * rewrite H0 by done. rewrite andb_false_r, orb_false_r.
        apply bool_decide_eq_false_2.
        intros (k & Hk & ?)%elem_of_positions_of_0.
        assert (k = i) as -> by lia. congruence.
      * rewrite H1 by done. rewrite bool_decide_eq_true_2; [done|].
        apply elem_of_positions_of_0. by exists i.
      * assert (n - 1 - Z.of_nat i ∈ free) as Hin.
        { apply elem_of_positions_of_0. by exists i. }
        rewrite (bool_decide_eq_false_2 (_ ∈ ones)) by by apply Hdisj.
        by rewrite (bool_decide_eq_true_2 (_ ∈ free)).
    + rewrite (bounded_testbit_high n v b) by lia.
      rewrite andb_false_r, orb_false_r. apply bool_decide_eq_false_2.
      intros Hin%positions_of_range; unfold len_str in *; lia.
Qed.

(** The minterms the coverage loop gets from a validated implicant of
    non-zero width are those of its cube. *)
Lemma elem_of_minterms_of impl n v :
  n ≠ 0 → validate_implicant impl n = Ok () →
  v ∈ minterms_of impl n ↔ in_cube impl n v.
Proof.
  intros Hn [[? _]|(_ & Hlen & Hlegal)]%validate_implicant_Ok; [done|].
  destruct (iter_implicant_minterms_bijection impl n Hn Hlen Hlegal)
    as (g & Hiter & Hcube & _ & Hsurj).
  unfold minterms_of. rewrite Hiter. cbn [result_default].
  rewrite list_elem_of_fmap. split.
  - intros (m & -> & _). apply Hcube.
  - intros (m & Hm & <-)%Hsurj. exists m. split; [done|]. apply elem_of_seqZ. lia.
Qed.

(** C1. For a valid implicant [impl] at width [n] with [f] free positions the
    enumerator yields [2^f] pairwise distinct minterms, each in [[0, 2^n)],
    and the values yielded are exactly those of the cube of [impl] (character
    0 being the most significant bit); at width 0 it yields the single
    minterm 0. *)
Theorem iter_implicant_minterms_cube (impl : string) (n : Z) :
  validate_implicant impl n = Ok () →
  ∃ ms : list Z,
    iter_implicant_minterms impl n = Ok ms
    ∧ Z.of_nat (length ms) = 2 ^ free_count impl
    ∧ NoDup ms
    ∧ Forall (λ v, 0 ≤ v < 2 ^ n) ms
    ∧ (∀ v, v ∈ ms ↔ in_cube impl n v)
    ∧ (n = 0 → ms = [0]).
Proof.
  intros [[-> ->]|(Hn0 & Hlen & Hlegal)]%validate_implicant_Ok.
  - exists [0]. split_and!; try done.
    + apply NoDup_singleton.
    + by apply Forall_singleton.
    + intros v. rewrite list_elem_of_singleton. unfold in_cube. split.
      * intros ->. split; [done|]. by intros [|i] ch Hi.
      * intros [Hv _]. change (2 ^ 0) with 1 in Hv. lia.
  - destruct (iter_implicant_minterms_bijection impl n Hn0 Hlen Hlegal)
      as (g & Hiter & Hcube & Hinj & Hsurj).
    exists (g <$> seqZ 0 (2 ^ free_count impl)). split_and!.
    + done.
    + rewrite length_fmap, length_seqZ, Z2Nat.id; [done|].
      apply Z.pow_nonneg. lia.
    + apply NoDup_fmap_2_strong; [|apply NoDup_seqZ].
      intros m1 m2 Hm1%elem_of_seqZ Hm2%elem_of_seqZ. apply Hinj; lia.
    + apply Forall_fmap, Forall_forall. intros m _. apply Hcube.
    + intros v. rewrite list_elem_of_fmap. split.
      * intros (m & -> & _). apply Hcube.
      * intros (m & Hm & <-)%Hsurj. exists m. split; [done|]. apply elem_of_seqZ. lia.
    + done.
Qed.

Lemma iter_implicant_minterms_cube_witness :
  ∃ ms : list Z,
    iter_implicant_minterms "1-0-" 4 = Ok ms
    ∧ Z.of_nat (length ms) = 2 ^ free_count "1-0-"
    ∧ NoDup ms
    ∧ Forall (λ v, 0 ≤ v < 2 ^ 4) ms
    ∧ (∀ v, v ∈ ms ↔ in_cube "1-0-" 4 v)
    ∧ (4 = 0 → ms = [0]).
Proof. apply (iter_implicant_minterms_cube "1-0-" 4). reflexivity. Defined.

(** ** Reservoir sampling *)

Lemma randint_range a b g : a ≤ b → a ≤ (randint a b g).1 ≤ b.
Proof.
  intros Hab. destruct g as [|r g]; simpl; [lia|].
  pose proof (Z.mod_pos_bound r (b - a + 1)). lia.
Qed.

Lemma sample_inv_nil {A : Type} k : 0 ≤ k → sample_inv (A:=A) k 0 [].
Proof. unfold sample_inv. simpl. lia. Qed.

Lemma reservoir_add_spec {A : Type} (sample : list A) k count item g :
  0 ≤ k → 0 ≤ count → sample_inv k count sample →
  ∃ sample' g',
    reservoir_add sample k (count + 1) item g = Ok (sample', g')
    ∧ sample_inv k (count + 1) sample'.
Proof.
  unfold sample_inv, reservoir_add. intros Hk Hc Hinv.
  destruct (decide (k ≤ 0)); [exists sample, g; split; [done|lia]|].
  destruct (decide (count + 1 ≤ k)).
  { exists (sample ++ [item]), g. split; [done|]. rewrite length_app. simpl. lia. }
  pose proof (randint_range 1 (count + 1) g) as Hj.
  destruct (randint 1 (count + 1) g) as [j g']. simpl in Hj.
  destruct (decide (j ≤ k)); [|exists sample, g'; split; [done|lia]].
  unfold setitem. rewrite (decide_False (P := j - 1 < 0)) by lia.
  rewrite decide_True by lia. simpl.
  eexists _, g'. split; [done|]. rewrite length_insert. lia.
Qed.

(** ** The duplicate check *)

Lemma count_dups_nonneg seen impls : 0 ≤ count_dups seen impls.
Proof.
  revert seen. induction impls as [|impl rest IH]; intros seen; simpl; [done|].
  case_decide; [specialize (IH seen)|specialize (IH ({[impl]} ∪ seen))]; lia.
Qed.

Lemma dup_loop_spec k i impls (seen : gmap string Z) count (sample : list string) g :
  0 ≤ k → 0 ≤ count → sample_inv k count sample →
  ∃ seen' sample' g',
    for_each (dup_step k) (enumerate_from i impls) (seen, count, sample, g)
    = Ok (seen', count + count_dups (dom seen) impls, sample', g')
    ∧ sample_inv k (count + count_dups (dom seen) impls) sample'.
Proof.
  intros Hk. revert i seen count sample g.
  induction impls as [|impl rest IH]; intros i seen count sample g Hc Hinv; simpl.
  - exists seen, sample, g. rewrite Z.add_0_r. done.
  - destruct (seen !! impl) as [first|] eqn:Hseen.
    + rewrite decide_True by (apply elem_of_dom; eauto).
      destruct (reservoir_add_spec sample k count
                  ("line " +:+ pretty first +:+ " and line " +:+ pretty i +:+ ": " +:+ impl)
                  g Hk Hc Hinv) as (sample1 & g1 & -> & Hinv1).
      simpl.
      destruct (IH (i + 1) seen (count + 1) sample1 g1) as (seen' & sample' & g' & -> & Hinv');
        [lia|done|].
      exists seen', sample', g'. rewrite Z.add_assoc. done.
    + rewrite decide_False by (rewrite elem_of_dom, Hseen; by intros [? ?]).
      simpl.
      destruct (IH (i + 1) (<[impl := i]> seen) count sample g)
        as (seen' & sample' & g' & Heq & Hinv'); [lia|done|].
      rewrite dom_insert_L in Heq, Hinv'. rewrite Heq. by exists seen', sample', g'.
Qed.

(** ** The coverage check *)

Lemma cover_loop_spec on_set dc_set k ms (covered : gset Z) count (sample : list Z) g :
  0 ≤ k → 0 ≤ count → sample_inv k count sample →
  let hits := Z.of_nat (length (filter (off_set on_set dc_set) ms)) in
  ∃ covered' sample' g',
    for_each (cover_step on_set (on_set ∪ dc_set) k) ms (covered, count, sample, g)
    = Ok (covered', count + hits, sample', g')
    ∧ covered' = covered ∪ on_set ∩ list_to_set ms
    ∧ sample_inv k (count + hits) sample'.
Proof.
  intros Hk. revert covered count sample g.
  induction ms as [|m rest IH]; intros covered count sample g Hc Hinv; simpl.
  - exists covered, sample, g. rewrite Z.add_0_r. split_and!; [done|set_solver|done].
  - rewrite filter_cons. destruct (decide (m ∈ on_set)) as [Hon|Hon].
    + rewrite decide_False by (intros [? _]; done). simpl.
      destruct (IH ({[m]} ∪ covered) count sample g Hc Hinv)
        as (covered' & sample' & g' & -> & -> & Hinv').
      eexists _, sample', g'. split_and!; [done|set_solver|done].
    + destruct (decide (m ∉ on_set ∪ dc_set)) as [Hun|Hun].
      * rewrite decide_True by (split; set_solver).
        destruct (reservoir_add_spec sample k count m g Hk Hc Hinv)
          as (sample1 & g1 & -> & Hinv1).
        simpl.
        destruct (IH covered (count + 1) sample1 g1)
          as (covered' & sample' & g' & -> & -> & Hinv'); [lia|done|].
        eexists _, sample', g'. simpl length.
        replace (count + 1 + _) with
          (count + Z.of_nat (S (length (filter (off_set on_set dc_set) rest)))) in * by lia.
        split_and!; [done|set_solver|done].
      * rewrite decide_False by (intros [? ?]; set_solver). simpl.
        destruct (IH covered count sample g Hc Hinv)
          as (covered' & sample' & g' & -> & -> & Hinv').
        eexists _, sample', g'. split_and!; [done|set_solver|done].
Qed.

Lemma filter_pair_length {A : Type} (P : Z → Prop) `{!∀ m, Decision (P m)} (a : A) ms :
  length (filter (λ e : A * Z, P e.2) ((λ m, (a, m)) <$> ms)) = length (filter P ms).
Proof.
  induction ms as [|m rest IH]; [done|].
  rewrite fmap_cons, !filter_cons. simpl. case_decide; simpl; by rewrite IH.
Qed.

Lemma events_of_cons n_bit impl rest :
  events_of n_bit (impl :: rest)
  = ((λ m, (impl, m)) <$> minterms_of impl n_bit) ++ events_of n_bit rest.
Proof. done. Qed.

Lemma snd_pair_fmap {A : Type} (a : A) (ms : list Z) : ((λ m, (a, m)) <$> ms).*2 = ms.
Proof. induction ms as [|m rest IH]; [done|]. rewrite !fmap_cons. simpl. by f_equal. Qed.

Lemma cover_implicants_spec n_bit on_set dc_set k vs (covered : gset Z) count
    (sample : list Z) g :
  Forall (λ impl, ∃ ms, iter_implicant_minterms impl n_bit = Ok ms) vs →
  0 ≤ k → 0 ≤ count → sample_inv k count sample →
  ∃ covered' sample' g',
    for_each
      (λ st impl,
         ms ← iter_implicant_minterms impl n_bit;
         for_each (cover_step on_set (on_set ∪ dc_set) k) ms st)
      vs (covered, count, sample, g)
    = Ok (covered',
          count + Z.of_nat (length (filter (λ e, off_set on_set dc_set e.2)
                                      (events_of n_bit vs))),
          sample', g')
    ∧ covered' = covered ∪ on_set ∩ list_to_set (events_of n_bit vs).*2
    ∧ sample_inv k
        (count + Z.of_nat (length (filter (λ e, off_set on_set dc_set e.2)
                                     (events_of n_bit vs))))
        sample'.
Proof.
  intros Hvs Hk. revert covered count sample g.
  induction Hvs as [|impl rest [ms Hms] _ IH]; intros covered count sample g Hc Hinv.
  - exists covered, sample, g. simpl. rewrite Z.add_0_r.
    split_and!; [done|set_solver|done].
  - assert (minterms_of impl n_bit = ms) as Hmin by (unfold minterms_of; by rewrite Hms).
    rewrite events_of_cons, Hmin.
    rewrite filter_app, length_app, filter_pair_length, Nat2Z.inj_add, Z.add_assoc.
    rewrite fmap_app, list_to_set_app_L, snd_pair_fmap.
    cbn [for_each]. rewrite Hms. cbn [mbind result_bind].
    destruct (cover_loop_spec on_set dc_set k ms covered count sample g Hk Hc Hinv)
      as (covered1 & sample1 & g1 & Heq1 & Hcov1 & Hinv1).
    rewrite Heq1. cbn [mbind result_bind].
    destruct (IH covered1
                (count + Z.of_nat (length (filter (off_set on_set dc_set) ms))) sample1 g1)
      as (covered' & sample' & g' & Heq' & Hcov' & Hinv'); [lia|done|].
    rewrite Heq'. exists covered', sample', g'. split_and!; [done| |done].
    rewrite Hcov', Hcov1.
    generalize (list_to_set (C:=gset Z) ms).
    generalize (list_to_set (C:=gset Z) (events_of n_bit rest).*2).
    clear. set_solver.
Qed.

(** ** The uncovered count *)

Lemma size_difference_filter (X Y : gset Z) :
  size (X ∖ Y) = length (filter (λ m, m ∉ Y) (elements X)).
Proof.
  unfold size, set_size. simpl. apply Permutation_length, NoDup_Permutation.
  - apply NoDup_elements.
  - apply NoDup_filter, NoDup_elements.
  - intros m. rewrite list_elem_of_filter, !elem_of_elements. set_solver.
Qed.

Lemma size_difference_iterate {order : set_order} (X Y : gset Z) :
  size (X ∖ Y) = length (filter (λ m, m ∉ Y) (iterate X)).
Proof. rewrite size_difference_filter. by rewrite iterate_members. Qed.

Lemma elem_of_iterate {order : set_order} (X : gset Z) (m : Z) : m ∈ iterate X ↔ m ∈ X.
Proof. by rewrite iterate_members, elem_of_elements. Qed.

Lemma uncovered_sampled_spec (covered : gset Z) k xs count (sample : list Z) g :
  0 ≤ k → 0 ≤ count → sample_inv k count sample →
  ∃ sample' g',
    for_each (uncovered_step_sampled covered k) xs (count, sample, g)
    = Ok (count + Z.of_nat (length (filter (λ m, m ∉ covered) xs)), sample', g')
    ∧ sample_inv k (count + Z.of_nat (length (filter (λ m, m ∉ covered) xs))) sample'.
Proof.
  intros Hk. revert count sample g.
  induction xs as [|m rest IH]; intros count sample g Hc Hinv;
    cbn [for_each uncovered_step_sampled].
  - exists sample, g. simpl. by rewrite Z.add_0_r.
  - rewrite filter_cons. destruct (decide (m ∉ covered)) as [Hm|Hm].
    + destruct (reservoir_add_spec sample k count m g Hk Hc Hinv)
        as (sample1 & g1 & -> & Hinv1).
      cbn [mbind result_bind].
      destruct (IH (count + 1) sample1 g1) as (sample' & g' & -> & Hinv'); [lia|done|].
      exists sample', g'. simpl length.
      replace (count + 1 + _) with
        (count + Z.of_nat (S (length (filter (λ m, m ∉ covered) rest)))) in * by lia.
      done.
    + cbn [mbind result_bind].
      destruct (IH count sample g Hc Hinv) as (sample' & g' & -> & Hinv').
      by exists sample', g'.
Qed.

Lemma uncovered_counted_spec (covered : gset Z) xs count (sample : list Z) (g : rng) :
  for_each (uncovered_step_counted covered) xs (count, sample, g)
  = Ok (count + Z.of_nat (length (filter (λ m, m ∉ covered) xs)), sample, g).
Proof.
  revert count. induction xs as [|m rest IH]; intros count;
    cbn [for_each uncovered_step_counted].
  - simpl. by rewrite Z.add_0_r.
  - rewrite filter_cons. destruct (decide (m ∉ covered)); cbn [mbind result_bind];
      rewrite IH; [|done]. simpl length. do 3 f_equal. lia.
Qed.

Lemma uncovered_check_spec {order : set_order} (on_set covered : gset Z) k g :
  0 ≤ k →
  ∃ sample g',
    uncovered_check on_set covered k g
    = Ok (Z.of_nat (size (on_set ∖ covered)), sample, g')
    ∧ sample_inv k (Z.of_nat (size (on_set ∖ covered))) sample.
Proof.
  intros Hk. unfold uncovered_check. rewrite size_difference_iterate.
  destruct (decide (k > 0)).
  - destruct (uncovered_sampled_spec covered k (iterate on_set) 0 [] g)
      as (sample & g' & Heq & Hinv); [lia..|by apply sample_inv_nil|].
    rewrite Z.add_0_l in Heq, Hinv. by exists sample, g'.
  - rewrite uncovered_counted_spec. exists [], g. split; [done|].
    unfold sample_inv. simpl. lia.
Qed.

(** ** Validated solutions *)

Lemma validate_all_Ok impls n :
  validate_all impls n = Ok () ↔ Forall (λ impl, validate_implicant impl n = Ok ()) impls.
Proof.
  unfold validate_all. induction impls as [|impl rest IH]; cbn [for_each].
  - split; [constructor|done].
  - rewrite Forall_cons. destruct (validate_implicant impl n) as [[]|e]; cbn [mbind result_bind].
    + rewrite IH. tauto.
    + split; [done|by intros [? _]].
Qed.

(** [validate_all] raises what the first implicant that fails raises. *)
Lemma validate_all_Raise impls n e :
  validate_all impls n = Raise e ↔
  ∃ pre impl post,
    impls = pre ++ impl :: post
    ∧ Forall (λ impl, validate_implicant impl n = Ok ()) pre
    ∧ validate_implicant impl n = Raise e.
Proof.
  unfold validate_all. induction impls as [|impl rest IH]; cbn [for_each].
  - split; [done|]. intros (pre & ? & ? & Heq & _). by destruct pre.
  - destruct (validate_implicant impl n) as [[]|e'] eqn:Hv; cbn [mbind result_bind].
    + rewrite IH. split.
      * intros (pre & x & post & -> & Hpre & Hx).
        exists (impl :: pre), x, post. split_and!; [done|by constructor|done].
      * intros ([|y pre] & x & post & Heq & Hpre & Hx); simplify_eq/=; [congruence|].
        apply Forall_cons in Hpre as [_ Hpre]. by exists pre, x, post.
    + split.
      * intros [= ->]. by exists [], impl, rest.
      * intros ([|y pre] & x & post & Heq & Hpre & Hx); simplify_eq/=; [congruence|].
        apply Forall_cons in Hpre as [Hy _]. congruence.
Qed.

Lemma legal_char_not_space ch : legal_char ch = true → is_space ch = false.
Proof. by intros [->|[->| ->]]%legal_char_cases. Qed.

Lemma lstrip_chars_id cs : Forall (λ ch, is_space ch = false) cs → lstrip_chars cs = cs.
Proof. intros [|ch rest Hch _]; simpl; [done|]. by rewrite Hch. Qed.

Lemma strip_legal impl : Forall (λ ch, legal_char ch = true) (chars impl) → strip impl = impl.
Proof.
  intros Hlegal. unfold strip.
  assert (Forall (λ ch, is_space ch = false) (chars impl)) as Hns.
  { eapply Forall_impl; [done|]. apply legal_char_not_space. }
  rewrite (lstrip_chars_id (chars impl)) by done.
  rewrite lstrip_chars_id by by apply Forall_rev.
  rewrite rev_involutive. apply string_of_list_ascii_of_string.
Qed.

(** At a non-zero width every validated implicant passes the filter of
    line 114 and is enumerated. *)
Lemma valid_implicants_validated impls n :
  n ≠ 0 → validate_all impls n = Ok () → valid_implicants impls = impls.
Proof.
  intros Hn Hall%validate_all_Ok. unfold valid_implicants.
  induction Hall as [|impl rest Himpl _ IH]; [done|].
  apply validate_implicant_Ok in Himpl as [[? _]|(_ & Hlen & Hlegal)]; [done|].
  cbn [omap list_omap]. rewrite strip_legal by done.
  rewrite decide_False; [by rewrite IH|].
  intros ->. unfold len_str in Hlen. simpl in Hlen. lia.
Qed.

(** At width 0 the validated implicants are empty strings, which the filter
    of line 114 drops. *)
Lemma valid_implicants_zero_width impls :
  validate_all impls 0 = Ok () → valid_implicants impls = [].
Proof.
  intros Hall%validate_all_Ok. unfold valid_implicants.
  induction Hall as [|impl rest Himpl _ IH]; [done|].
  apply validate_implicant_Ok in Himpl as [[_ ->]|(? & _)]; [|done].
  cbn [omap list_omap]. by rewrite decide_True.
Qed.

Lemma valid_implicants_enumerable impls n :
  validate_all impls n = Ok () →
  Forall (λ impl, ∃ ms, iter_implicant_minterms impl n = Ok ms) (valid_implicants impls).
Proof.
  intros Hall. destruct (decide (n = 0)) as [->|Hn].
  - by rewrite valid_implicants_zero_width.
  - rewrite (valid_implicants_validated impls n) by done.
    apply validate_all_Ok in Hall. eapply Forall_impl; [done|].
    intros impl [[? _]|(_ & Hlen & _)]%validate_implicant_Ok; [done|].
    destruct (iter_implicant_minterms_masks impl n Hn Hlen) as (g & Hiter & _). eauto.
Qed.

(** At a non-zero width the events of the coverage loop are the pairs of an
    implicant of the solution and a minterm of its cube. *)
Lemma elem_of_enumeration_events n impls impl m :
  n ≠ 0 → validate_all impls n = Ok () →
  (impl, m) ∈ enumeration_events n impls ↔ impl ∈ impls ∧ in_cube impl n m.
Proof.
  intros Hn Hall. unfold enumeration_events, events_of.
  rewrite (valid_implicants_validated impls n) by done.
  apply validate_all_Ok in Hall.
  rewrite list_elem_of_bind. split.
  - intros (x & Hin & Hx). apply list_elem_of_fmap in Hin as (m' & [= -> ->] & Hm').
    split; [done|]. eapply Forall_forall in Hall; [|done].
    by apply elem_of_minterms_of in Hm'.
  - intros [Hin Hcube]. exists impl. split; [|done].
    apply list_elem_of_fmap. exists m. split; [done|].
    eapply Forall_forall in Hall; [|done]. by apply elem_of_minterms_of.
Qed.

Lemma cover_check_spec n_bit on_set dc_set impls k g :
  validate_all impls n_bit = Ok () → 0 ≤ k →
  let hits :=
    Z.of_nat (length (filter (λ e, off_set on_set dc_set e.2)
                        (enumeration_events n_bit impls))) in
  ∃ sample g',
    cover_check n_bit on_set (on_set ∪ dc_set) impls k g
    = Ok (on_set ∩ list_to_set (enumeration_events n_bit impls).*2, hits, sample, g')
    ∧ sample_inv k hits sample.
Proof.
  intros Hall Hk hits. unfold cover_check, enumeration_events in *.
  destruct (cover_implicants_spec n_bit on_set dc_set k (valid_implicants impls)
              ∅ 0 [] g (valid_implicants_enumerable _ _ Hall) Hk)
    as (covered & sample & g' & Heq & Hcov & Hinv); [lia|by apply sample_inv_nil|].
  rewrite Z.add_0_l in Heq, Hinv. rewrite union_empty_l_L in Hcov. subst covered.
  case_decide as Hvs.
  - rewrite Heq. by exists sample, g'.
  - subst hits. rewrite Hvs in *. simpl.
    exists [], g. split; [|by apply sample_inv_nil].
    by rewrite intersection_empty_r_L.
Qed.

(** ** The verdict of a validated solution *)

Lemma verify_Ok {order : set_order} n_bit on_set dc_set sop_lines sample g :
  validate_all (read_sop_file sop_lines n_bit) n_bit = Ok () →
  ∃ v,
    verify n_bit on_set dc_set sop_lines sample g = Ok v
    ∧ verdict_spec n_bit on_set dc_set (read_sop_file sop_lines n_bit) (Z.max 0 sample) v.
Proof.
  intros Hall. unfold verify. rewrite Hall. cbn [mbind result_bind].
  set (impls := read_sop_file sop_lines n_bit) in *.
  set (k := Z.max 0 sample).
  assert (0 ≤ k) as Hk by lia.
  destruct (dup_loop_spec k 0 impls ∅ 0 [] g Hk) as (seen & s1 & g1 & Hdup & Hinv1);
    [lia|by apply sample_inv_nil|].
  rewrite dom_empty_L, Z.add_0_l in Hdup, Hinv1.
  unfold dup_check, enumerate. rewrite Hdup. cbn [mbind result_bind].
  destruct (cover_check_spec n_bit on_set dc_set impls k g1 Hall Hk)
    as (s2 & g2 & Hcov & Hinv2).
  rewrite Hcov. cbn [mbind result_bind].
  destruct (uncovered_check_spec on_set
              (on_set ∩ list_to_set (enumeration_events n_bit impls).*2) k g2 Hk)
    as (s3 & g3 & Hunc & Hinv3).
  rewrite Hunc. cbn [mbind result_bind].
  eexists. split; [done|]. by constructor.
Qed.

Lemma verify_Raise {order : set_order} n_bit on_set dc_set sop_lines sample g e :
  validate_all (read_sop_file sop_lines n_bit) n_bit = Raise e →
  verify n_bit on_set dc_set sop_lines sample g = Raise e.
Proof. intros Hall. unfold verify. by rewrite Hall. Qed.

Lemma verdict_spec_counters n_bit on_set dc_set impls k1 k2 v1 v2 :
  verdict_spec n_bit on_set dc_set impls k1 v1 →
  verdict_spec n_bit on_set dc_set impls k2 v2 →
  counters v1 = counters v2.
Proof.
  intros [] []. unfold counters.
  repeat match goal with H : _ v1 = _ |- _ => rewrite H end.
  repeat match goal with H : _ v2 = _ |- _ => rewrite H end.
  congruence.
Qed.

(** ** Reading the SOP file *)

Lemma read_lines_acc n lines acc :
  fold_left (read_line n) lines acc = acc ++ fold_left (read_line n) lines [].
Proof.
  revert acc. induction lines as [|ln rest IH]; intros acc; simpl.
  - by rewrite app_nil_r.
  - rewrite IH, (IH (read_line n [] ln)), app_assoc. f_equal.
    unfold read_line. repeat case_decide; by rewrite ?app_nil_r.
Qed.

Lemma read_sop_file_app lines1 lines2 n :
  read_sop_file (lines1 ++ lines2) n = read_sop_file lines1 n ++ read_sop_file lines2 n.
Proof. unfold read_sop_file. by rewrite fold_left_app, read_lines_acc. Qed.

Lemma read_sop_file_cons ln rest n :
  read_sop_file (ln :: rest) n = read_sop_file [ln] n ++ read_sop_file rest n.
Proof. apply (read_sop_file_app [ln]). Qed.

(** C7. A line that is blank after trimming adds the empty implicant to the
    sequence when the bit width is 0 and adds nothing otherwise; at a
    non-zero width the run is the one of the file without that line. *)
Theorem read_sop_file_blank_line {order : set_order} (pre post : list string) (ln : string) (n_bit : Z) :
  strip ln = "" →
  read_sop_file (pre ++ ln :: post) n_bit
  = read_sop_file pre n_bit ++ (if decide (n_bit = 0) then [""] else [])
    ++ read_sop_file post n_bit
  ∧ (n_bit ≠ 0 →
     read_sop_file (pre ++ ln :: post) n_bit = read_sop_file (pre ++ post) n_bit
     ∧ ∀ on_set dc_set args g,
         run n_bit on_set dc_set (pre ++ ln :: post) args g
         = run n_bit on_set dc_set (pre ++ post) args g).
Proof.
  intros Hblank.
  assert (read_sop_file [ln] n_bit = if decide (n_bit = 0) then [""] else []) as Hln.
  { unfold read_sop_file, read_line. simpl. rewrite Hblank. by repeat case_decide. }
  split.
  - by rewrite read_sop_file_app, read_sop_file_cons, Hln.
  - intros Hn.
    assert (read_sop_file (pre ++ ln :: post) n_bit = read_sop_file (pre ++ post) n_bit)
      as Heq.
    { rewrite !read_sop_file_app, read_sop_file_cons, Hln. by rewrite decide_False. }
    split; [done|]. intros on_set dc_set args g. unfold run, main, verify. by rewrite Heq.
Qed.

Lemma read_sop_file_blank_line_witness :
  strip " " = ""
  ∧ read_sop_file (["01"] ++ " " :: ["1-"]) 2
    = read_sop_file ["01"] 2 ++ (if decide (2 = 0) then [""] else [])
      ++ read_sop_file ["1-"] 2
  ∧ read_sop_file ([] ++ " " :: []) 0
    = read_sop_file [] 0 ++ (if decide (0 = 0) then [""] else []) ++ read_sop_file [] 0.
Proof.
  split; [reflexivity|]. split.
  - exact (proj1 (read_sop_file_blank_line ["01"] ["1-"] " " 2 eq_refl)).
  - exact (proj1 (read_sop_file_blank_line [] [] " " 0 eq_refl)).
Defined.

(** ** Counting literals *)

Lemma count_literals_chars cs c :
  fold_left
    (λ c ch,
       if bool_decide (ch = "0"%char) || bool_decide (ch = "1"%char) then c + 1 else c)
    cs c
  = c + Z.of_nat (length (filter (λ ch, ch = "0"%char ∨ ch = "1"%char) cs)).
Proof.
  revert c. induction cs as [|ch rest IH]; intros c; simpl; [lia|].
  rewrite IH, filter_cons.
  destruct (decide (ch = "0"%char ∨ ch = "1"%char)) as [Hlit|Hlit].
  - assert (bool_decide (ch = "0"%char) || bool_decide (ch = "1"%char) = true) as ->.
    { rewrite orb_true_iff, !bool_decide_eq_true. done. }
    simpl length. lia.
  - assert (bool_decide (ch = "0"%char) || bool_decide (ch = "1"%char) = false) as ->.
    { apply not_true_is_false. rewrite orb_true_iff, !bool_decide_eq_true. done. }
    done.
Qed.

Lemma count_literals_literals impls : count_literals impls = literals impls.
Proof.
  unfold count_literals, literals.
  enough (∀ c,
    fold_left
      (λ c impl,
         fold_left
           (λ c ch,
              if bool_decide (ch = "0"%char) || bool_decide (ch = "1"%char)
              then c + 1 else c)
           (chars impl) c)
      impls c
    = c + Z.of_nat (length (filter (λ ch, ch = "0"%char ∨ ch = "1"%char)
                              (impls ≫= chars)))) as H by apply (H 0).
  induction impls as [|impl rest IH]; intros c; [simpl; lia|].
  cbn [fold_left].
  rewrite IH, count_literals_chars, bind_cons, filter_app, length_app. lia.
Qed.

(** * The claims about the verdict *)

(** C2. For a solution that passes validation the verdict is pass exactly
    when there is no duplicate, no uncovered on-set term, no off-set hit and
    the literal bound is not exceeded; under [--quiet] the program prints
    the single line [PASS <literal count>] when it passes and [FAIL]
    otherwise. *)
Theorem pass_iff_checks_and_terse_output {order : set_order} (n_bit : Z) (on_set dc_set : gset Z)
    (sop_lines : list string) (k : Z) (s : bool) (g : rng) :
  validate_all (read_sop_file sop_lines n_bit) n_bit = Ok () →
  ∃ v,
    verify n_bit on_set dc_set sop_lines k g = Ok v
    ∧ (passed v = true ↔
       dup_count v = 0 ∧ uncovered_count v = 0 ∧ off_hit_count v = 0
       ∧ fail_literal_product v = false)
    ∧ run n_bit on_set dc_set sop_lines {| quiet := true; summary := s; sample := k |} g
      = {| stdout := if passed v then ["PASS " +:+ pretty (lit_count v)] else ["FAIL"];
           stderr := []; exit_code := 0 |}.
Proof.
  intros Hall.
  destruct (verify_Ok n_bit on_set dc_set sop_lines k g Hall) as (v & Hv & Hspec).
  exists v. split_and!; [done| |].
  - rewrite (spec_passed _ _ _ _ _ _ Hspec).
    rewrite !andb_true_iff, !bool_decide_eq_true, negb_true_iff. tauto.
  - unfold run, main. cbn [sample quiet]. rewrite Hv. cbn [mbind result_bind].
    unfold print_quiet. by destruct (passed v).
Qed.

Lemma pass_iff_checks_and_terse_output_witness :
  validate_all (read_sop_file ["--"] 2) 2 = Ok ()
  ∧ ∃ v,
      verify 2 {[0; 1; 2; 3]} ∅ ["--"] 0 [] = Ok v
      ∧ (passed v = true ↔
         dup_count v = 0 ∧ uncovered_count v = 0 ∧ off_hit_count v = 0
         ∧ fail_literal_product v = false)
      ∧ run 2 {[0; 1; 2; 3]} ∅ ["--"] {| quiet := true; summary := false; sample := 0 |} []
        = {| stdout := if passed v then ["PASS " +:+ pretty (lit_count v)] else ["FAIL"];
             stderr := []; exit_code := 0 |}.
Proof.
  split; [reflexivity|].
  apply (pass_iff_checks_and_terse_output 2 {[0; 1; 2; 3]} ∅ ["--"] 0 false []).
  reflexivity.
Defined.

(** C3. The literal count is the number of ['0'] and ['1'] characters of the
    implicants read from the SOP file (['-'] is not counted); the
    literal-bound check fails exactly when the bit width is positive, the
    on-set is not empty and the literal count is at least
    [|on-set| * bit width]; with an empty on-set it never fails, and a
    failed bound fails the verdict.  At width 2 with an on-set of size 1
    and exactly [1 * 2] literals the bound fails, although the solution
    covers the on-set exactly. *)
Theorem literal_count_and_bound {order : set_order} (n_bit : Z) (on_set dc_set : gset Z)
    (sop_lines : list string) (k : Z) (g : rng) :
  validate_all (read_sop_file sop_lines n_bit) n_bit = Ok () →
  (∃ v,
     verify n_bit on_set dc_set sop_lines k g = Ok v
     ∧ implicants v = read_sop_file sop_lines n_bit
     ∧ lit_count v = count_literals (read_sop_file sop_lines n_bit)
     ∧ lit_count v = literals (read_sop_file sop_lines n_bit)
     ∧ (fail_literal_product v = true ↔
        n_bit > 0 ∧ len_set on_set > 0
        ∧ literals (read_sop_file sop_lines n_bit) >= len_set on_set * n_bit)
     ∧ (len_set on_set = 0 → fail_literal_product v = false)
     ∧ (fail_literal_product v = true → passed v = false))
  ∧ (∃ v,
       verify 2 {[1]} ∅ ["01"] k g = Ok v
       ∧ lit_count v = 2
       ∧ uncovered_count v = 0 ∧ off_hit_count v = 0 ∧ dup_count v = 0
       ∧ fail_literal_product v = true
       ∧ passed v = false).
Proof.
  intros Hall. split.
  - destruct (verify_Ok n_bit on_set dc_set sop_lines k g Hall) as (v & Hv & Hspec).
    destruct Hspec as [Himpls Hlit Hfail _ _ _ _ Hpass _ _ _].
    exists v. split_and!; [done..| | | |].
    + by rewrite Hlit, count_literals_literals.
    + rewrite Hfail, count_literals_literals.
      rewrite !andb_true_iff, !bool_decide_eq_true. tauto.
    + intros Hempty. rewrite Hfail. apply not_true_is_false.
      rewrite !andb_true_iff, !bool_decide_eq_true. lia.
    + intros Hf. rewrite Hpass, Hf. apply andb_false_r.
  - destruct (verify_Ok 2 {[1]} ∅ ["01"] k g eq_refl) as (v & Hv & Hspec).
    destruct Hspec as [_ Hlit Hfail Hdup Hcov Hoff Hunc Hpass _ _ _].
    assert (fail_literal_product v = true) as Hfail' by (rewrite Hfail; by vm_compute).
    assert (covered_on v = {[1]}) as Hcov' by (rewrite Hcov; by vm_compute).
    exists v. split_and!; [done| | | | |done|].
    + rewrite Hlit. by vm_compute.
    + rewrite Hunc, Hcov'. by vm_compute.
    + rewrite Hoff. by vm_compute.
    + rewrite Hdup. by vm_compute.
    + rewrite Hpass, Hfail'. apply andb_false_r.
Qed.

Lemma literal_count_and_bound_witness :
  validate_all (read_sop_file ["0-1"; " "; "-10"] 3) 3 = Ok ()
  ∧ (∃ v,
       verify 3 {[1; 2; 3; 6]} ∅ ["0-1"; " "; "-10"] 0 [] = Ok v
       ∧ implicants v = read_sop_file ["0-1"; " "; "-10"] 3
       ∧ lit_count v = count_literals (read_sop_file ["0-1"; " "; "-10"] 3)
       ∧ lit_count v = literals (read_sop_file ["0-1"; " "; "-10"] 3)
       ∧ (fail_literal_product v = true ↔
          3 > 0 ∧ len_set {[1; 2; 3; 6]} > 0
          ∧ literals (read_sop_file ["0-1"; " "; "-10"] 3) >= len_set {[1; 2; 3; 6]} * 3)
       ∧ (len_set {[1; 2; 3; 6]} = 0 → fail_literal_product v = false)
       ∧ (fail_literal_product v = true → passed v = false))
    ∧ (∃ v,
         verify 2 {[1]} ∅ ["01"] 0 [] = Ok v
         ∧ lit_count v = 2
         ∧ uncovered_count v = 0 ∧ off_hit_count v = 0 ∧ dup_count v = 0
         ∧ fail_literal_product v = true
         ∧ passed v = false).
Proof.
  split; [reflexivity|].
  apply (literal_count_and_bound 3 {[1; 2; 3; 6]} ∅ ["0-1"; " "; "-10"] 0 []). reflexivity.
Defined.

(** The boundary case of the literal bound: width 2, an on-set of size 1 and
    exactly [1 * 2] literals. *)
Example literal_bound_boundary :
  (λ v, (lit_count v, fail_literal_product v, passed v)) <$>
    match verify 2 {[1]} ∅ ["01"] 0 [] with Ok v => Some v | Raise _ => None end
  = Some (2, true, false).
Proof. reflexivity. Qed.

(** ** Coverage *)

(** C4. At width 0 with on-set [{0}] and a SOP file of one empty line, the
    only implicant is the empty string, which the enumerator would expand to
    minterm 0; the filter of line 114 drops it, so nothing is covered, one
    on-set term is uncovered and the verdict is fail. *)
Theorem zero_width_empty_implicant_dropped {order : set_order} (k : Z) (g : rng) :
  iter_implicant_minterms "" 0 = Ok [0]
  ∧ ∃ v,
      verify 0 {[0]} ∅ [LF] k g = Ok v
      ∧ implicants v = [""]
      ∧ valid_implicants (implicants v) = []
      ∧ covered_on v = ∅
      ∧ uncovered_count v = 1
      ∧ passed v = false
      ∧ stdout (run 0 {[0]} ∅ [LF] {| quiet := true; summary := false; sample := k |} g)
        = ["FAIL"].
Proof.
  split; [done|].
  destruct (verify_Ok 0 {[0]} ∅ [LF] k g eq_refl) as (v & Hv & Hspec).
  destruct Hspec as [Himpls _ Hfail Hdup Hcov Hoff Hunc Hpass _ _ _].
  change (read_sop_file [LF] 0) with [""] in *.
  change (enumeration_events 0 [""]) with (@nil (string * Z)) in *.
  assert (covered_on v = ∅) as Hcov' by (rewrite Hcov; set_solver).
  assert (uncovered_count v = 1) as Hunc'.
  { rewrite Hunc, Hcov', difference_empty_L, size_singleton. done. }
  assert (passed v = false) as Hpass'.
  { rewrite Hpass, Hunc'. by rewrite andb_false_r. }
  exists v. split_and!; try done.
  - by rewrite Himpls.
  - unfold run, main. cbn [sample quiet]. rewrite Hv. cbn [mbind result_bind stdout].
    unfold print_quiet. by rewrite Hpass'.
Qed.



(** Width 2, on-set [{0}], no don't-cares and the single implicant [--]:
    three off-set hits and a fail; minterm 3 reached from two implicants is
    counted twice. *)
Example off_hit_counted_per_occurrence :
  (λ v, (off_hit_count v, passed v)) <$>
    match verify 2 {[0]} ∅ ["--"] 0 [] with Ok v => Some v | Raise _ => None end
  = Some (3, false)
  ∧ events_of 2 ["1-"; "-1"] = [("1-", 2); ("1-", 3); ("-1", 1); ("-1", 3)]
  ∧ off_hit_count <$>
      match verify 2 ∅ ∅ ["1-"; "-1"] 0 [] with Ok v => Some v | Raise _ => None end
    = Some 4.
Proof. split_and!; reflexivity. Qed.

(** C5. At width 0 with an empty on-set, no don't-cares and a SOP file of
    one empty line, the only implicant is the empty string, whose
    enumeration is the single event of minterm 0, which is in neither the
    on-set nor the don't-care set: one off-set hit.  The filter of line 114
    drops the implicant before it is enumerated, so the program counts no
    hit and passes. *)
Theorem zero_width_off_set_hit_not_counted {order : set_order} (k : Z) (g : rng) :
  read_sop_file [LF] 0 = [""]
  ∧ iter_implicant_minterms "" 0 = Ok [0]
  ∧ events_of 0 (read_sop_file [LF] 0) = [("", 0)]
  ∧ off_set ∅ ∅ 0
  ∧ Z.of_nat (length (filter (λ e, off_set ∅ ∅ e.2) (events_of 0 (read_sop_file [LF] 0))))
    = 1
  ∧ ∃ v,
      verify 0 ∅ ∅ [LF] k g = Ok v
      ∧ implicants v = [""]
      ∧ valid_implicants (implicants v) = []
      ∧ off_hit_count v = 0
      ∧ passed v = true
      ∧ run 0 ∅ ∅ [LF] {| quiet := true; summary := false; sample := k |} g
        = {| stdout := ["PASS 0"]; stderr := []; exit_code := 0 |}.
Proof.
  split_and!; [done|done|done|by split|done|].
  destruct (verify_Ok 0 ∅ ∅ [LF] k g eq_refl) as (v & Hv & Hspec).
  destruct Hspec as [Himpls Hlit Hfail Hdup Hcov Hoff Hunc Hpass _ _ _].
  change (read_sop_file [LF] 0) with [""] in *.
  change (enumeration_events 0 [""]) with (@nil (string * Z)) in *.
  assert (off_hit_count v = 0) as Hoff' by by rewrite Hoff.
  assert (uncovered_count v = 0) as Hunc'.
  { rewrite Hunc, difference_disjoint_L, size_empty; [done|set_solver]. }
  assert (dup_count v = 0) as Hdup' by by rewrite Hdup.
  assert (passed v = true) as Hpass'.
  { rewrite Hpass, Hfail, Hoff', Hunc', Hdup'. done. }
  assert (lit_count v = 0) as Hlit' by by rewrite Hlit.
  exists v. split_and!; try done.
  - by rewrite Himpls.
  - unfold run, main. cbn [sample quiet]. rewrite Hv. cbn [mbind result_bind].
    unfold print_quiet. by rewrite Hpass', Hlit'.
Qed.

(** X24. At a non-zero width the covered set holds the on-set members that
    lie in the cube of some implicant read from the SOP file, and the
    uncovered count is the number of on-set members outside all these
    cubes, whatever the sample limit and the random stream. *)
Theorem uncovered_count_nonzero_width {order : set_order} (n_bit : Z)
    (on_set dc_set : gset Z) (sop_lines : list string) (k : Z) (g : rng) :
  validate_all (read_sop_file sop_lines n_bit) n_bit = Ok () →
  n_bit ≠ 0 →
  ∃ v,
    verify n_bit on_set dc_set sop_lines k g = Ok v
    ∧ uncovered_count v
      = Z.of_nat (size (on_set ∖ list_to_set
                          (events_of n_bit (read_sop_file sop_lines n_bit)).*2))
    ∧ ∀ m, m ∈ covered_on v
           ↔ m ∈ on_set
             ∧ ∃ impl, impl ∈ read_sop_file sop_lines n_bit ∧ in_cube impl n_bit m.
Proof.
  intros Hall Hn.
  destruct (verify_Ok n_bit on_set dc_set sop_lines k g Hall) as (v & Hv & Hspec).
  destruct Hspec as [_ _ _ _ Hcov _ Hunc _ _ _ _].
  assert (enumeration_events n_bit (read_sop_file sop_lines n_bit)
          = events_of n_bit (read_sop_file sop_lines n_bit)) as Hev.
  { unfold enumeration_events. by rewrite (valid_implicants_validated _ n_bit). }
  exists v. split_and!; [done| |].
  - rewrite Hunc, Hcov, Hev. do 2 f_equal.
    generalize (list_to_set (C:=gset Z)
                  (events_of n_bit (read_sop_file sop_lines n_bit)).*2).
    clear. set_solver.
  - intros m. rewrite Hcov, elem_of_intersection, elem_of_list_to_set.
    rewrite list_elem_of_fmap. split.
    + intros [Hon ([impl m'] & -> & Hin)]. split; [done|]. exists impl.
      by apply elem_of_enumeration_events in Hin.
    + intros [Hon (impl & Hin & Hcube)]. split; [done|]. exists (impl, m).
      split; [done|]. by apply elem_of_enumeration_events.
Qed.

Lemma uncovered_count_nonzero_width_witness :
  validate_all (read_sop_file ["0-"] 2) 2 = Ok ()
  ∧ 2 ≠ 0
  ∧ ∃ v,
      verify 2 {[0; 1; 2]} ∅ ["0-"] 3 [5] = Ok v
      ∧ uncovered_count v
        = Z.of_nat (size (({[0; 1; 2]} : gset Z) ∖ list_to_set
                            (events_of 2 (read_sop_file ["0-"] 2)).*2))
      ∧ ∀ m, m ∈ covered_on v
             ↔ m ∈ ({[0; 1; 2]} : gset Z)
               ∧ ∃ impl, impl ∈ read_sop_file ["0-"] 2 ∧ in_cube impl 2 m.
Proof.
  split; [reflexivity|]. split; [lia|].
  apply (uncovered_count_nonzero_width 2 {[0; 1; 2]} ∅ ["0-"] 3 [5]); [reflexivity|lia].
Defined.

(** Width 1, on-set [{0, 1}] and the implicant [0]: minterm 1 is uncovered,
    with and without sampling. *)
Example uncovered_on_set_term :
  uncovered_count <$>
    match verify 1 {[0; 1]} ∅ ["0"] 0 [] with Ok v => Some v | Raise _ => None end
  = Some 1
  ∧ uncovered_count <$>
      match verify 1 {[0; 1]} ∅ ["0"] 5 [7] with Ok v => Some v | Raise _ => None end
    = Some 1.
Proof. split; reflexivity. Qed.

(** ** Invalid implicants *)

Lemma legal_char_false ch :
  legal_char ch = false ↔ ch ≠ "0"%char ∧ ch ≠ "1"%char ∧ ch ≠ "-"%char.
Proof.
  unfold legal_char. rewrite !orb_false_iff, !bool_decide_eq_false. tauto.
Qed.

Lemma validate_implicant_invalid impl n :
  invalid_implicant impl n ↔ validate_implicant impl n ≠ Ok ().
Proof.
  rewrite validate_implicant_Ok. unfold invalid_implicant, len_str.
  split.
  - intros Hinv [[-> ->]|(Hn & Hlen & Hlegal)].
    + destruct Hinv as [?|[Hex|[_ ?]]]; [done| |done]. by apply Exists_nil in Hex.
    + destruct Hinv as [?|[Hex|[? _]]]; [done| |done].
      apply Exists_exists in Hex as (ch & Hin & Hch%legal_char_false).
      eapply Forall_forall in Hlegal; [|done]. congruence.
  - intros Hnot. destruct (decide (n = 0)) as [->|Hn].
    + right; right. split; [done|]. intros ->. apply Hnot. by left.
    + destruct (decide (Z.of_nat (length (chars impl)) = n)) as [Hlen|Hlen]; [|by left].
      right; left.
      destruct (decide (Exists (λ ch, ch ≠ "0"%char ∧ ch ≠ "1"%char ∧ ch ≠ "-"%char)
                          (chars impl))) as [|Hnone]; [done|].
      exfalso. apply Hnot. right. split_and!; [done..|].
      apply Forall_forall. intros ch Hin.
      destruct (legal_char ch) eqn:Hl; [done|].
      exfalso. apply Hnone, Exists_exists. exists ch. by rewrite <- legal_char_false.
Qed.

Lemma validate_implicant_error impl n e :
  validate_implicant impl n = Raise e → InvalidImplicantError impl n e.
Proof.
  unfold validate_implicant, InvalidImplicantError. repeat case_decide; try congruence.
  - intros [= <-]. by left.
  - intros [= <-]. right. by left.
  - intros ->%check_chars_Raise. right. by right.
Qed.

(** C8. When some implicant read from the SOP file is invalid, the run stops
    at the first one with the error [validate_implicant] raises for it: no
    verdict is computed, nothing is printed on the standard output, the error
    goes to the error stream and the exit code is 1. *)
Theorem invalid_implicant_fails_fast {order : set_order} (n_bit : Z) (on_set dc_set : gset Z)
    (sop_lines : list string) (args : arguments) (g : rng) :
  Exists (λ impl, invalid_implicant impl n_bit) (read_sop_file sop_lines n_bit) →
  ∃ pre impl post e,
    read_sop_file sop_lines n_bit = pre ++ impl :: post
    ∧ Forall (λ x, ¬ invalid_implicant x n_bit) pre
    ∧ invalid_implicant impl n_bit
    ∧ validate_implicant impl n_bit = Raise e
    ∧ InvalidImplicantError impl n_bit e
    ∧ verify n_bit on_set dc_set sop_lines (sample args) g = Raise e
    ∧ run n_bit on_set dc_set sop_lines args g
      = {| stdout := []; stderr := [e]; exit_code := 1 |}.
Proof.
  intros Hex.
  destruct (validate_all (read_sop_file sop_lines n_bit) n_bit) as [[]|e] eqn:Hall.
  { apply validate_all_Ok in Hall. apply Exists_exists in Hex as (impl & Hin & Hinv).
    eapply Forall_forall in Hall; [|done]. by apply validate_implicant_invalid in Hinv. }
  pose proof Hall as (pre & impl & post & Heq & Hpre & Himpl)%validate_all_Raise.
  exists pre, impl, post, e. split_and!; [done| | | done | | |].
  - eapply Forall_impl; [done|]. intros x Hx Hinv%validate_implicant_invalid. done.
  - apply validate_implicant_invalid. congruence.
  - by apply validate_implicant_error.
  - by apply verify_Raise.
  - unfold run, main. by rewrite (verify_Raise _ _ _ _ _ _ _ Hall).
Qed.

Lemma invalid_implicant_fails_fast_witness :
  Exists (λ impl, invalid_implicant impl 1) (read_sop_file ["0"; "2"; "11"] 1)
  ∧ ∃ pre impl post e,
      read_sop_file ["0"; "2"; "11"] 1 = pre ++ impl :: post
      ∧ Forall (λ x, ¬ invalid_implicant x 1) pre
      ∧ invalid_implicant impl 1
      ∧ validate_implicant impl 1 = Raise e
      ∧ InvalidImplicantError impl 1 e
      ∧ verify 1 {[0]} ∅ ["0"; "2"; "11"] 0 [] = Raise e
      ∧ run 1 {[0]} ∅ ["0"; "2"; "11"] {| quiet := true; summary := false; sample := 0 |} []
        = {| stdout := []; stderr := [e]; exit_code := 1 |}.
Proof.
  assert (Exists (λ impl, invalid_implicant impl 1) (read_sop_file ["0"; "2"; "11"] 1))
    as Hex by (apply (bool_decide_unpack _); vm_compute; exact I).
  split; [exact Hex|].
  exact (invalid_implicant_fails_fast 1 {[0]} ∅ ["0"; "2"; "11"]
           {| quiet := true; summary := false; sample := 0 |} [] Hex).
Defined.

(** The first invalid implicant decides the error. *)
Example first_violation_reported :
  run 1 {[0]} ∅ ["0"; "2"; "11"] {| quiet := false; summary := false; sample := 3 |} [4]
  = {| stdout := []; stderr := [ValueError_illegal_char "2"]; exit_code := 1 |}
  ∧ run 0 {[0]} ∅ ["1"] {| quiet := true; summary := false; sample := 0 |} []
    = {| stdout := []; stderr := [ValueError_zero_width]; exit_code := 1 |}.
Proof. split; reflexivity. Qed.

(** ** Bounded samples *)

(** However many items are fed, the list never holds more than [k]. *)
Lemma reservoir_feed_bounded {A : Type} (k : Z) (items : list A) (g : rng) :
  0 ≤ k →
  ∃ sample g',
    reservoir_feed [] k 0 items g = Ok (sample, g')
    ∧ Z.of_nat (length sample) = Z.min (Z.of_nat (length items)) k.
Proof.
  intros Hk.
  enough (∀ (sample : list A) count g, 0 ≤ count → sample_inv k count sample →
    ∃ sample' g',
      reservoir_feed sample k count items g = Ok (sample', g')
      ∧ sample_inv k (count + Z.of_nat (length items)) sample') as H.
  { destruct (H [] 0 g) as (s & g' & Heq & Hinv); [lia|by apply sample_inv_nil|].
    exists s, g'. split; [done|]. unfold sample_inv in Hinv. lia. }
  induction items as [|item rest IH]; intros sample count g0 Hc Hinv;
    cbn [reservoir_feed length].
  - exists sample, g0. by rewrite Z.add_0_r.
  - destruct (reservoir_add_spec sample k count item g0 Hk Hc Hinv)
      as (s1 & g1 & -> & Hinv1).
    cbn [mbind result_bind].
    destruct (IH s1 (count + 1) g1) as (s' & g' & -> & Hinv'); [lia|done|].
    exists s', g'. split; [done|].
    by replace (count + Z.of_nat (S (length rest)))
      with (count + 1 + Z.of_nat (length rest)) by lia.
Qed.

(** C9. With the sample limit [k = max(0, --sample)], each of the three
    sample lists of a run holds [min count k] examples, where [count] is the
    number of items offered to it: never more than [k], and none when
    [k = 0]. *)
Theorem sample_lists_bounded {order : set_order} (n_bit : Z) (on_set dc_set : gset Z)
    (sop_lines : list string) (sample : Z) (g : rng) :
  validate_all (read_sop_file sop_lines n_bit) n_bit = Ok () →
  ∃ v,
    verify n_bit on_set dc_set sop_lines sample g = Ok v
    ∧ Z.of_nat (length (dup_sample v)) = Z.min (dup_count v) (Z.max 0 sample)
    ∧ Z.of_nat (length (off_hit_sample v)) = Z.min (off_hit_count v) (Z.max 0 sample)
    ∧ Z.of_nat (length (uncovered_sample v)) = Z.min (uncovered_count v) (Z.max 0 sample)
    ∧ Z.of_nat (length (dup_sample v)) ≤ Z.max 0 sample
    ∧ Z.of_nat (length (off_hit_sample v)) ≤ Z.max 0 sample
    ∧ Z.of_nat (length (uncovered_sample v)) ≤ Z.max 0 sample
    ∧ (Z.max 0 sample = 0 →
       dup_sample v = [] ∧ off_hit_sample v = [] ∧ uncovered_sample v = []).
Proof.
  intros Hall.
  destruct (verify_Ok n_bit on_set dc_set sop_lines sample g Hall) as (v & Hv & Hspec).
  destruct Hspec as [_ _ _ _ _ _ _ _ Hdup Hoff Hunc].
  unfold sample_inv in *.
  exists v. split_and!; [done..|lia|lia|lia|].
  intros Hk. split_and!; apply length_zero_iff_nil; lia.
Qed.

Lemma sample_lists_bounded_witness :
  validate_all (read_sop_file ["--"; "--"; "--"] 2) 2 = Ok ()
  ∧ ∃ v,
      verify 2 {[0]} ∅ ["--"; "--"; "--"] 2 [5; 1; 4; 0; 3; 2; 6; 8] = Ok v
      ∧ Z.of_nat (length (dup_sample v)) = Z.min (dup_count v) (Z.max 0 2)
      ∧ Z.of_nat (length (off_hit_sample v)) = Z.min (off_hit_count v) (Z.max 0 2)
      ∧ Z.of_nat (length (uncovered_sample v)) = Z.min (uncovered_count v) (Z.max 0 2)
      ∧ Z.of_nat (length (dup_sample v)) ≤ Z.max 0 2
      ∧ Z.of_nat (length (off_hit_sample v)) ≤ Z.max 0 2
      ∧ Z.of_nat (length (uncovered_sample v)) ≤ Z.max 0 2
      ∧ (Z.max 0 2 = 0 →
         dup_sample v = [] ∧ off_hit_sample v = [] ∧ uncovered_sample v = []).
Proof.
  split; [reflexivity|].
  apply (sample_lists_bounded 2 {[0]} ∅ ["--"; "--"; "--"] 2 [5; 1; 4; 0; 3; 2; 6; 8]).
  reflexivity.
Defined.

(** Nine off-set hits offered to a sample of capacity 2. *)
Example off_hit_sample_capped :
  (λ v, (off_hit_count v, off_hit_sample v)) <$>
    match verify 2 {[0]} ∅ ["--"; "--"; "--"] 2 [5; 1; 4; 0; 3; 2; 6; 8] with
    | Ok v => Some v
    | Raise _ => None
    end
  = Some (9, [3; 2]).
Proof. reflexivity. Qed.

(** ** Determinism *)

(** C10. Two runs on the same inputs and flags that differ in the random
    stream agree on the implicants, the literal count, the three counters,
    the covered set, the literal-bound flag and the verdict, or raise the
    same error; their output is the same under [--quiet] and under
    [--summary]. *)
Theorem counters_independent_of_random_stream {order : set_order} (n_bit : Z) (on_set dc_set : gset Z)
    (sop_lines : list string) (k : Z) (g1 g2 : rng) :
  counters <$> verify n_bit on_set dc_set sop_lines k g1
  = counters <$> verify n_bit on_set dc_set sop_lines k g2
  ∧ (∀ s,
       run n_bit on_set dc_set sop_lines {| quiet := true; summary := s; sample := k |} g1
       = run n_bit on_set dc_set sop_lines {| quiet := true; summary := s; sample := k |} g2)
  ∧ run n_bit on_set dc_set sop_lines {| quiet := false; summary := true; sample := k |} g1
    = run n_bit on_set dc_set sop_lines {| quiet := false; summary := true; sample := k |} g2.
Proof.
  destruct (validate_all (read_sop_file sop_lines n_bit) n_bit) as [[]|e] eqn:Hall.
  - destruct (verify_Ok n_bit on_set dc_set sop_lines k g1 Hall) as (v1 & Hv1 & Hspec1).
    destruct (verify_Ok n_bit on_set dc_set sop_lines k g2 Hall) as (v2 & Hv2 & Hspec2).
    pose proof (verdict_spec_counters _ _ _ _ _ _ _ _ Hspec1 Hspec2) as Hc.
    unfold run, main. cbn [sample quiet summary]. rewrite Hv1, Hv2.
    cbn [mbind result_bind].
    unfold counters in Hc. injection Hc as Himpls Hlit Hfail Hdup Hcov Hoff Hunc Hpass.
    split_and!.
    + cbn [fmap result_fmap]. unfold counters. congruence.
    + intros s. unfold print_quiet. by rewrite Hpass, Hlit.
    + unfold print_summary, print_stats. by rewrite Hpass, Hlit, Himpls.
  - unfold run, main. cbn [sample].
    rewrite (verify_Raise n_bit on_set dc_set sop_lines k g1 e Hall).
    rewrite (verify_Raise n_bit on_set dc_set sop_lines k g2 e Hall).
    done.
Qed.

(** Two streams, two samples, one verdict. *)
Example random_stream_changes_samples_only :
  off_hit_sample <$>
    match verify 2 {[0]} ∅ ["--"] 1 [0; 1] with Ok v => Some v | Raise _ => None end
  = Some [1]
  ∧ off_hit_sample <$>
      match verify 2 {[0]} ∅ ["--"] 1 [1; 1] with Ok v => Some v | Raise _ => None end
    = Some [2]
  ∧ run 2 {[0]} ∅ ["--"] {| quiet := true; summary := false; sample := 1 |} [0; 1]
    = run 2 {[0]} ∅ ["--"] {| quiet := true; summary := false; sample := 1 |} [1; 1].
Proof. split_and!; reflexivity. Qed.

(** * Further properties *)

(** ** What the samples hold *)

Lemma offered_inv_nil {A : Type} k : 0 ≤ k → offered_inv (A:=A) k [] [].
Proof. intros Hk. split_and!; [simpl; lia|constructor|done]. Qed.

Lemma reservoir_add_offered {A : Type} (sample items : list A) k item g :
  0 ≤ k → offered_inv k items sample →
  ∃ sample' g',
    reservoir_add sample k (Z.of_nat (length items) + 1) item g = Ok (sample', g')
    ∧ offered_inv k (items ++ [item]) sample'.
Proof.
  unfold offered_inv, reservoir_add. intros Hk (Hlen & Hin & Hfull).
  assert (Forall (λ x, x ∈ items ++ [item]) sample) as Hin'.
  { eapply Forall_impl; [done|]. intros x Hx. apply elem_of_app. by left. }
  rewrite length_app. simpl length.
  destruct (decide (k ≤ 0)).
  { exists sample, g. split_and!; [done|lia|done|lia]. }
  destruct (decide (Z.of_nat (length items) + 1 ≤ k)).
  { exists (sample ++ [item]), g. split_and!; [done|rewrite length_app; simpl; lia| |].
    - apply Forall_app. split; [done|]. apply Forall_singleton, elem_of_app. right. by left.
    - intros _. by rewrite Hfull by lia. }
  pose proof (randint_range 1 (Z.of_nat (length items) + 1) g) as Hj.
  destruct (randint 1 (Z.of_nat (length items) + 1) g) as [j g']. simpl in Hj.
  destruct (decide (j ≤ k)); [|exists sample, g'; split_and!; [done|lia|done|lia]].
  unfold setitem. rewrite (decide_False (P := j - 1 < 0)) by lia.
  rewrite decide_True by lia. simpl.
  eexists _, g'. split_and!; [done|rewrite length_insert; lia| |lia].
  apply Forall_insert; [done|]. apply elem_of_app. right. by left.
Qed.

Lemma length_snoc_Z {A : Type} (items : list A) (x : A) :
  Z.of_nat (length items) + 1 = Z.of_nat (length (items ++ [x])).
Proof. rewrite length_app. simpl. lia. Qed.

Lemma dup_loop_offered k i impls (seen : gmap string Z) (items sample : list string) g :
  0 ≤ k → offered_inv k items sample →
  ∃ seen' sample' g',
    for_each (dup_step k) (enumerate_from i impls)
      (seen, Z.of_nat (length items), sample, g)
    = Ok (seen', Z.of_nat (length (items ++ dup_items i seen impls)), sample', g')
    ∧ offered_inv k (items ++ dup_items i seen impls) sample'.
Proof.
  intros Hk. revert i seen items sample g.
  induction impls as [|impl rest IH]; intros i seen items sample g Hinv;
    cbn [enumerate_from for_each dup_items dup_step].
  - exists seen, sample, g. by rewrite app_nil_r.
  - destruct (seen !! impl) as [first|] eqn:Hseen.
    + destruct (reservoir_add_offered sample items k (dup_text first i impl) g Hk Hinv)
        as (sample1 & g1 & Hadd & Hinv1).
      unfold dup_text in Hadd at 1. rewrite Hadd. cbn [mbind result_bind].
      rewrite (length_snoc_Z items (dup_text first i impl)).
      destruct (IH (i + 1) seen _ sample1 g1 Hinv1) as (seen' & sample' & g' & Heq & Hinv').
      rewrite <- app_assoc in Heq, Hinv'. rewrite Heq. by exists seen', sample', g'.
    + cbn [mbind result_bind]. apply IH. done.
Qed.

Lemma cover_loop_offered on_set dc_set k ms (covered : gset Z) (items sample : list Z) g :
  0 ≤ k → offered_inv k items sample →
  ∃ covered' sample' g',
    for_each (cover_step on_set (on_set ∪ dc_set) k) ms
      (covered, Z.of_nat (length items), sample, g)
    = Ok (covered',
          Z.of_nat (length (items ++ filter (off_set on_set dc_set) ms)), sample', g')
    ∧ offered_inv k (items ++ filter (off_set on_set dc_set) ms) sample'.
Proof.
  intros Hk. revert covered items sample g.
  induction ms as [|m rest IH]; intros covered items sample g Hinv;
    cbn [for_each cover_step].
  - exists covered, sample, g. by rewrite app_nil_r.
  - rewrite filter_cons. destruct (decide (m ∈ on_set)) as [Hon|Hon].
    + rewrite decide_False by (intros [? _]; done). cbn [mbind result_bind]. apply IH. done.
    + destruct (decide (m ∉ on_set ∪ dc_set)) as [Hun|Hun].
      * rewrite decide_True by (split; set_solver).
        destruct (reservoir_add_offered sample items k m g Hk Hinv)
          as (sample1 & g1 & Hadd & Hinv1).
        rewrite Hadd. cbn [mbind result_bind]. rewrite (length_snoc_Z items m).
        destruct (IH covered _ sample1 g1 Hinv1) as (covered' & sample' & g' & Heq & Hinv').
        rewrite <- app_assoc in Heq, Hinv'. rewrite Heq. by exists covered', sample', g'.
      * rewrite decide_False by (intros [? ?]; set_solver). cbn [mbind result_bind].
        apply IH. done.
Qed.

Lemma events_of_cons_values n_bit impl rest :
  (events_of n_bit (impl :: rest)).*2 = minterms_of impl n_bit ++ (events_of n_bit rest).*2.
Proof. by rewrite events_of_cons, fmap_app, snd_pair_fmap. Qed.

Lemma cover_implicants_offered n_bit on_set dc_set k vs (covered : gset Z)
    (items sample : list Z) g :
  Forall (λ impl, ∃ ms, iter_implicant_minterms impl n_bit = Ok ms) vs →
  0 ≤ k → offered_inv k items sample →
  ∃ covered' sample' g',
    for_each
      (λ st impl,
         ms ← iter_implicant_minterms impl n_bit;
         for_each (cover_step on_set (on_set ∪ dc_set) k) ms st)
      vs (covered, Z.of_nat (length items), sample, g)
    = Ok (covered',
          Z.of_nat (length (items ++ filter (off_set on_set dc_set) (events_of n_bit vs).*2)),
          sample', g')
    ∧ offered_inv k (items ++ filter (off_set on_set dc_set) (events_of n_bit vs).*2)
        sample'.
Proof.
  intros Hvs Hk. revert covered items sample g.
  induction Hvs as [|impl rest [ms Hms] _ IH]; intros covered items sample g Hinv.
  - exists covered, sample, g. cbn. by rewrite app_nil_r.
  - assert (minterms_of impl n_bit = ms) as Hmin by (unfold minterms_of; by rewrite Hms).
    rewrite events_of_cons_values, Hmin, filter_app, app_assoc.
    cbn [for_each]. rewrite Hms. cbn [mbind result_bind].
    destruct (cover_loop_offered on_set dc_set k ms covered items sample g Hk Hinv)
      as (covered1 & sample1 & g1 & Heq1 & Hinv1).
    rewrite Heq1. cbn [mbind result_bind]. by apply IH.
Qed.

Lemma uncovered_sampled_offered (covered : gset Z) k xs (items sample : list Z) g :
  0 ≤ k → offered_inv k items sample →
  ∃ sample' g',
    for_each (uncovered_step_sampled covered k) xs (Z.of_nat (length items), sample, g)
    = Ok (Z.of_nat (length (items ++ filter (λ m, m ∉ covered) xs)), sample', g')
    ∧ offered_inv k (items ++ filter (λ m, m ∉ covered) xs) sample'.
Proof.
  intros Hk. revert items sample g.
  induction xs as [|m rest IH]; intros items sample g Hinv;
    cbn [for_each uncovered_step_sampled].
  - exists sample, g. by rewrite app_nil_r.
  - rewrite filter_cons. destruct (decide (m ∉ covered)) as [Hm|Hm].
    + destruct (reservoir_add_offered sample items k m g Hk Hinv)
        as (sample1 & g1 & Hadd & Hinv1).
      rewrite Hadd. cbn [mbind result_bind]. rewrite (length_snoc_Z items m).
      destruct (IH _ sample1 g1 Hinv1) as (sample' & g' & Heq & Hinv').
      rewrite <- app_assoc in Heq, Hinv'. rewrite Heq. by exists sample', g'.
    + cbn [mbind result_bind]. by apply IH.
Qed.

Lemma uncovered_check_offered {order : set_order} (on_set covered : gset Z) k g :
  0 ≤ k →
  ∃ count sample g',
    uncovered_check on_set covered k g = Ok (count, sample, g')
    ∧ offered_inv k (uncovered_items on_set covered) sample.
Proof.
  intros Hk. unfold uncovered_check, uncovered_items. destruct (decide (k > 0)).
  - destruct (uncovered_sampled_offered covered k (iterate on_set) [] [] g Hk)
      as (sample & g' & Heq & Hinv); [by apply offered_inv_nil|].
    cbn [length app] in Heq, Hinv. change (Z.of_nat 0) with 0 in Heq.
    rewrite Heq. by eexists _, sample, g'.
  - rewrite uncovered_counted_spec. eexists _, [], g. split; [done|].
    split_and!; [simpl; lia|constructor|].
    intros Hlen. symmetry. apply length_zero_iff_nil. lia.
Qed.

(** The three sample lists of a validated run against what was offered to
    them. *)
Lemma verify_offered {order : set_order} n_bit on_set dc_set sop_lines sample g :
  validate_all (read_sop_file sop_lines n_bit) n_bit = Ok () →
  ∃ v,
    verify n_bit on_set dc_set sop_lines sample g = Ok v
    ∧ offered_inv (Z.max 0 sample) (dup_items 0 ∅ (read_sop_file sop_lines n_bit))
        (dup_sample v)
    ∧ offered_inv (Z.max 0 sample)
        (off_hit_items n_bit on_set dc_set (read_sop_file sop_lines n_bit))
        (off_hit_sample v)
    ∧ offered_inv (Z.max 0 sample) (uncovered_items on_set (covered_on v))
        (uncovered_sample v).
Proof.
  intros Hall. unfold verify. rewrite Hall. cbn [mbind result_bind].
  set (impls := read_sop_file sop_lines n_bit) in *.
  set (k := Z.max 0 sample).
  assert (0 ≤ k) as Hk by lia.
  destruct (dup_loop_offered k 0 impls ∅ [] [] g Hk) as (seen & s1 & g1 & Hdup & Hinv1);
    [by apply offered_inv_nil|].
  cbn [length app] in Hdup, Hinv1. change (Z.of_nat 0) with 0 in Hdup.
  unfold dup_check, enumerate. rewrite Hdup. cbn [mbind result_bind].
  unfold cover_check.
  destruct (cover_implicants_offered n_bit on_set dc_set k (valid_implicants impls)
              ∅ [] [] g1 (valid_implicants_enumerable _ _ Hall) Hk)
    as (cov & s2 & g2 & Hcov & Hinv2); [by apply offered_inv_nil|].
  cbn [length app] in Hcov, Hinv2. change (Z.of_nat 0) with 0 in Hcov.
  assert (offered_inv k (off_hit_items n_bit on_set dc_set impls)
            (if decide (valid_implicants impls ≠ []) then s2 else [])) as Hinv2'.
  { case_decide as Hvs; [done|].
    unfold off_hit_items, enumeration_events. rewrite Hvs. by apply offered_inv_nil. }
  case_decide as Hvs.
  - rewrite Hcov. cbn [mbind result_bind].
    destruct (uncovered_check_offered on_set cov k g2 Hk) as (c3 & s3 & g3 & Hunc & Hinv3).
    rewrite Hunc. cbn [mbind result_bind]. eexists. split; [done|]. by split_and!.
  - cbn [mbind result_bind].
    destruct (uncovered_check_offered on_set ∅ k g1 Hk) as (c3 & s3 & g3 & Hunc & Hinv3).
    rewrite Hunc. cbn [mbind result_bind]. eexists. split; [done|]. by split_and!.
Qed.

(** ** The uncovered count at width 0 *)

Lemma iterate_singleton {order : set_order} (m : Z) : iterate {[m]} = [m].
Proof.
  apply Permutation_singleton_r. by rewrite iterate_members, elements_singleton.
Qed.

(** C6. At width 0 with on-set [{0}] and a SOP file of one empty line, the
    enumeration of the only implicant holds minterm 0, so no on-set member
    is left outside the covered minterms: the exact count is 0.  The
    program reports one uncovered term, for every sample limit and random
    stream, and with a positive limit it lists minterm 0 as the example. *)
Theorem zero_width_uncovered_count_inexact {order : set_order} (k : Z) (g : rng) :
  events_of 0 (read_sop_file [LF] 0) = [("", 0)]
  ∧ Z.of_nat
      (size (({[0]} : gset Z) ∖ list_to_set (events_of 0 (read_sop_file [LF] 0)).*2))
    = 0
  ∧ ∃ v,
      verify 0 {[0]} ∅ [LF] k g = Ok v
      ∧ implicants v = read_sop_file [LF] 0
      ∧ uncovered_count v = 1
      ∧ (k > 0 → uncovered_sample v = [0])
      ∧ (k ≤ 0 → uncovered_sample v = []).
Proof.
  split; [done|]. split; [by vm_compute|].
  destruct (verify_Ok 0 {[0]} ∅ [LF] k g eq_refl) as (v & Hv & Hspec).
  destruct (verify_offered 0 {[0]} ∅ [LF] k g eq_refl)
    as (v' & Hv' & _ & _ & (Hlen & _ & Hall)).
  assert (v' = v) as -> by congruence.
  destruct Hspec as [Himpls _ _ _ Hcov _ Hunc _ _ _ _].
  change (read_sop_file [LF] 0) with [""] in *.
  change (enumeration_events 0 [""]) with (@nil (string * Z)) in *.
  assert (covered_on v = ∅) as Hcov' by (rewrite Hcov; set_solver).
  assert (uncovered_items {[0]} (covered_on v) = [0]) as Hitems.
  { unfold uncovered_items. rewrite Hcov', iterate_singleton.
    rewrite filter_cons, decide_True by set_solver. done. }
  rewrite Hitems in Hlen, Hall. cbn [length] in Hlen, Hall.
  exists v. split_and!; [done|done| | |].
  - rewrite Hunc, Hcov', difference_empty_L, size_singleton. done.
  - intros Hk. apply Hall. lia.
  - intros Hk. apply length_zero_iff_nil. lia.
Qed.

(** ** Duplicates *)

Lemma first_occurrence_app impls more f impl :
  first_occurrence impls f impl → first_occurrence (impls ++ more) f impl.
Proof.
  intros [Hf Hfirst]. pose proof (lookup_lt_Some _ _ _ Hf) as Hlt. split.
  - by rewrite lookup_app_l.
  - intros f' Hf'. rewrite lookup_app_l by lia. by apply Hfirst.
Qed.

Lemma dup_items_genuine pre rest (seen : gmap string Z) :
  (∀ impl,
     match seen !! impl with
     | Some first => ∃ f : nat, first = Z.of_nat f ∧ first_occurrence pre f impl
     | None => impl ∉ pre
     end) →
  Forall (genuine_duplicate (pre ++ rest)) (dup_items (Z.of_nat (length pre)) seen rest).
Proof.
  revert pre seen. induction rest as [|impl rest IH]; intros pre seen Hseen;
    cbn [dup_items]; [constructor|].
  assert (Z.of_nat (length pre) + 1 = Z.of_nat (length (pre ++ [impl]))) as Hlen
    by apply length_snoc_Z.
  assert (pre ++ impl :: rest = (pre ++ [impl]) ++ rest) as Happ
    by by rewrite <- app_assoc.
  pose proof (Hseen impl) as Himpl.
  destruct (seen !! impl) as [first|] eqn:Hlook.
  - destruct Himpl as (f & -> & Hfirst). constructor.
    + exists f, (length pre), impl. split_and!; [done| | |].
      * by apply first_occurrence_app.
      * by rewrite list_lookup_middle.
      * destruct Hfirst as [Hf _]. by apply lookup_lt_Some in Hf.
    + rewrite Hlen, Happ. apply IH. intros impl'. specialize (Hseen impl').
      destruct (seen !! impl') as [first'|] eqn:Hlook'.
      * destruct Hseen as (f' & -> & Hf'). exists f'. split; [done|].
        by apply first_occurrence_app.
      * rewrite not_elem_of_app, list_elem_of_singleton. split; [done|]. congruence.
  - rewrite Hlen, Happ. apply IH. intros impl'.
    destruct (decide (impl' = impl)) as [->|Hne].
    + rewrite lookup_insert_eq. exists (length pre). split; [done|]. split.
      * by rewrite list_lookup_middle.
      * intros f' Hf'. rewrite lookup_app_l by done. intros Hin.
        apply Himpl. by eapply list_elem_of_lookup_2.
    + rewrite lookup_insert_ne by done. specialize (Hseen impl').
      destruct (seen !! impl') as [first'|].
      * destruct Hseen as (f' & -> & Hf'). exists f'. split; [done|].
        by apply first_occurrence_app.
      * rewrite not_elem_of_app, list_elem_of_singleton. done.
Qed.

Lemma dup_items_length i (seen : gmap string Z) impls :
  Z.of_nat (length (dup_items i seen impls)) = count_dups (dom seen) impls.
Proof.
  revert i seen. induction impls as [|impl rest IH]; intros i seen;
    cbn [dup_items count_dups]; [done|].
  destruct (seen !! impl) as [first|] eqn:Hlook.
  - rewrite decide_True by (apply elem_of_dom; eauto).
    cbn [length]. rewrite Nat2Z.inj_succ, IH. lia.
  - rewrite decide_False by (rewrite elem_of_dom, Hlook; by intros [? ?]).
    by rewrite IH, dom_insert_L.
Qed.

Lemma count_dups_size (seen : gset string) impls :
  count_dups seen impls
  = Z.of_nat (length impls) + Z.of_nat (size seen)
    - Z.of_nat (size (seen ∪ list_to_set impls)).
Proof.
  revert seen. induction impls as [|impl rest IH]; intros seen;
    cbn [count_dups length list_to_set].
  - rewrite union_empty_r_L. lia.
  - destruct (decide (impl ∈ seen)) as [Hin|Hin]; rewrite IH.
    + replace (seen ∪ ({[impl]} ∪ list_to_set rest)) with (seen ∪ list_to_set rest)
        by set_solver.
      lia.
    + replace (seen ∪ ({[impl]} ∪ list_to_set rest))
        with (({[impl]} ∪ seen) ∪ list_to_set rest) by set_solver.
      rewrite (size_union {[impl]} seen) by set_solver. rewrite size_singleton. lia.
Qed.

Lemma count_dups_zero (seen : gset string) impls :
  count_dups seen impls = 0 ↔ NoDup impls ∧ ∀ impl, impl ∈ impls → impl ∉ seen.
Proof.
  revert seen. induction impls as [|impl rest IH]; intros seen; cbn [count_dups].
  - split; [|done]. intros _. split; [constructor|]. by intros ? ?%elem_of_nil.
  - rewrite NoDup_cons. destruct (decide (impl ∈ seen)) as [Hin|Hin].
    + pose proof (count_dups_nonneg seen rest). split; [lia|].
      intros [_ Hfresh]. destruct (Hfresh impl); [by left|done].
    + rewrite IH. split.
      * intros [Hnd Hfresh]. split_and!; [|done|].
        -- intros Hrest. apply (Hfresh impl Hrest). set_solver.
        -- intros x [->|Hx]%elem_of_cons; [done|]. specialize (Hfresh x Hx). set_solver.
      * intros [[Hni Hnd] Hfresh]. split; [done|]. intros x Hx.
        assert (x ∉ seen) by (apply Hfresh; by right).
        assert (x ≠ impl) by congruence. set_solver.
Qed.

(** X1. For a validated solution the duplicate count is the number of
    implicants read from the SOP file minus the number of distinct ones, and
    it is 0 exactly when no implicant is repeated. *)
Theorem dup_count_distinct {order : set_order} (n_bit : Z) (on_set dc_set : gset Z)
    (sop_lines : list string) (k : Z) (g : rng) :
  validate_all (read_sop_file sop_lines n_bit) n_bit = Ok () →
  ∃ v,
    verify n_bit on_set dc_set sop_lines k g = Ok v
    ∧ implicants v = read_sop_file sop_lines n_bit
    ∧ dup_count v
      = Z.of_nat (length (read_sop_file sop_lines n_bit))
        - Z.of_nat (size (list_to_set (read_sop_file sop_lines n_bit) : gset string))
    ∧ (dup_count v = 0 ↔ NoDup (read_sop_file sop_lines n_bit)).
Proof.
  intros Hall.
  destruct (verify_Ok n_bit on_set dc_set sop_lines k g Hall) as (v & Hv & Hspec).
  destruct Hspec as [Himpls _ _ Hdup _ _ _ _ _ _ _].
  exists v. rewrite Hdup. split_and!; [done..| |].
  - rewrite count_dups_size, size_empty, union_empty_l_L. lia.
  - rewrite count_dups_zero. split; [by intros [? _]|].
    intros Hnd. split; [done|]. intros impl _. apply not_elem_of_empty.
Qed.

Lemma dup_count_distinct_witness :
  validate_all (read_sop_file ["1-"; "1-"; "-0"] 2) 2 = Ok ()
  ∧ ∃ v,
      verify 2 {[2; 3]} ∅ ["1-"; "1-"; "-0"] 0 [] = Ok v
      ∧ implicants v = read_sop_file ["1-"; "1-"; "-0"] 2
      ∧ dup_count v
        = Z.of_nat (length (read_sop_file ["1-"; "1-"; "-0"] 2))
          - Z.of_nat (size (list_to_set (read_sop_file ["1-"; "1-"; "-0"] 2) : gset string))
      ∧ (dup_count v = 0 ↔ NoDup (read_sop_file ["1-"; "1-"; "-0"] 2)).
Proof.
  split; [reflexivity|].
  apply (dup_count_distinct 2 {[2; 3]} ∅ ["1-"; "1-"; "-0"] 0 []). reflexivity.
Defined.

(** Two equal lines give one duplicate. *)
Example dup_count_of_repeated_line :
  dup_count <$>
    match verify 2 {[0; 1; 2; 3]} ∅ ["--"; "--"] 0 [] with
    | Ok v => Some v
    | Raise _ => None
    end
  = Some 1.
Proof. reflexivity. Qed.

(** X2. Every duplicate example kept in the sample is genuine: it names an
    implicant of the solution, the index of its first occurrence and a later
    index where the same implicant occurs again (indices count the
    implicants read, from 0). *)
Theorem dup_sample_genuine {order : set_order} (n_bit : Z) (on_set dc_set : gset Z)
    (sop_lines : list string) (k : Z) (g : rng) :
  validate_all (read_sop_file sop_lines n_bit) n_bit = Ok () →
  ∃ v,
    verify n_bit on_set dc_set sop_lines k g = Ok v
    ∧ Forall (genuine_duplicate (implicants v)) (dup_sample v).
Proof.
  intros Hall.
  destruct (verify_Ok n_bit on_set dc_set sop_lines k g Hall) as (v & Hv & Hspec).
  destruct (verify_offered n_bit on_set dc_set sop_lines k g Hall)
    as (v' & Hv' & (_ & Hin & _) & _ & _).
  assert (v' = v) as -> by congruence.
  exists v. split; [done|]. rewrite (spec_implicants _ _ _ _ _ _ Hspec).
  pose proof (dup_items_genuine [] (read_sop_file sop_lines n_bit) ∅) as Hgen.
  cbn [length app] in Hgen. change (Z.of_nat 0) with 0 in Hgen.
  eapply Forall_impl; [exact Hin|]. intros example Hex. cbn beta in Hex.
  eapply Forall_forall in Hgen; [done| |done].
  intros impl. rewrite lookup_empty. apply not_elem_of_nil.
Qed.

Lemma dup_sample_genuine_witness :
  validate_all (read_sop_file ["1-"; "-0"; "1-"; "1-"] 2) 2 = Ok ()
  ∧ ∃ v,
      verify 2 {[2; 3]} ∅ ["1-"; "-0"; "1-"; "1-"] 1 [0; 1] = Ok v
      ∧ Forall (genuine_duplicate (implicants v)) (dup_sample v).
Proof.
  split; [reflexivity|].
  apply (dup_sample_genuine 2 {[2; 3]} ∅ ["1-"; "-0"; "1-"; "1-"] 1 [0; 1]). reflexivity.
Defined.

(** ** Examples of off-set hits and of uncovered terms *)

Lemma filter_snd_length {A : Type} (P : Z → Prop) `{!∀ m, Decision (P m)}
    (es : list (A * Z)) :
  length (filter P es.*2) = length (filter (λ e : A * Z, P e.2) es).
Proof.
  induction es as [|[a m] rest IH]; [done|].
  rewrite fmap_cons, !filter_cons. cbn [snd]. case_decide; simpl; by rewrite IH.
Qed.

(** X3. At a non-zero width every minterm kept as an off-set example lies
    in the cube of an implicant read from the SOP file and in neither the
    on-set nor the don't-care set, and every term kept as an uncovered
    example is an on-set member that lies in the cube of no implicant. *)
Theorem cover_samples_genuine {order : set_order} (n_bit : Z) (on_set dc_set : gset Z)
    (sop_lines : list string) (k : Z) (g : rng) :
  validate_all (read_sop_file sop_lines n_bit) n_bit = Ok () →
  n_bit ≠ 0 →
  ∃ v,
    verify n_bit on_set dc_set sop_lines k g = Ok v
    ∧ Forall
        (λ m, off_set on_set dc_set m
              ∧ ∃ impl, impl ∈ read_sop_file sop_lines n_bit ∧ in_cube impl n_bit m)
        (off_hit_sample v)
    ∧ Forall
        (λ m, m ∈ on_set
              ∧ ∀ impl, impl ∈ read_sop_file sop_lines n_bit → ¬ in_cube impl n_bit m)
        (uncovered_sample v).
Proof.
  intros Hall Hn.
  destruct (verify_Ok n_bit on_set dc_set sop_lines k g Hall) as (v & Hv & Hspec).
  destruct (verify_offered n_bit on_set dc_set sop_lines k g Hall)
    as (v' & Hv' & _ & (_ & Hoff & _) & (_ & Hunc & _)).
  assert (v' = v) as -> by congruence.
  destruct Hspec as [_ _ _ _ Hcov _ _ _ _ _ _].
  exists v. split_and!; [done| |].
  - eapply Forall_impl; [exact Hoff|]. intros m Hm. cbn beta in Hm.
    unfold off_hit_items in Hm. apply list_elem_of_filter in Hm as [Hm Hin].
    split; [done|]. apply list_elem_of_fmap in Hin as ([impl m'] & -> & Hin).
    exists impl. by apply elem_of_enumeration_events in Hin.
  - eapply Forall_impl; [exact Hunc|]. intros m Hm. cbn beta in Hm.
    unfold uncovered_items in Hm. apply list_elem_of_filter in Hm as [Hm Hin].
    apply elem_of_iterate in Hin. split; [done|]. intros impl Himpl Hcube.
    apply Hm. rewrite Hcov, elem_of_intersection, elem_of_list_to_set, list_elem_of_fmap.
    split; [done|]. exists (impl, m). split; [done|].
    by apply elem_of_enumeration_events.
Qed.

Lemma cover_samples_genuine_witness :
  validate_all (read_sop_file ["-1"; "1-"] 2) 2 = Ok ()
  ∧ 2 ≠ 0
  ∧ ∃ v,
      verify 2 {[0; 1]} {[2]} ["-1"; "1-"] 1 [3; 0; 2] = Ok v
      ∧ Forall
          (λ m, off_set {[0; 1]} {[2]} m
                ∧ ∃ impl, impl ∈ read_sop_file ["-1"; "1-"] 2 ∧ in_cube impl 2 m)
          (off_hit_sample v)
      ∧ Forall
          (λ m, m ∈ ({[0; 1]} : gset Z)
                ∧ ∀ impl, impl ∈ read_sop_file ["-1"; "1-"] 2 → ¬ in_cube impl 2 m)
          (uncovered_sample v).
Proof.
  split; [reflexivity|]. split; [lia|].
  apply (cover_samples_genuine 2 {[0; 1]} {[2]} ["-1"; "1-"] 1 [3; 0; 2]);
    [reflexivity|lia].
Defined.

(** The examples of that run: minterm 3 is hit twice and the second hit
    replaces the first in the sample; minterm 0 is uncovered. *)
Example cover_samples_of_run :
  (λ v, (off_hit_count v, off_hit_sample v, uncovered_count v, uncovered_sample v)) <$>
    match verify 2 {[0; 1]} {[2]} ["-1"; "1-"] 1 [3; 0; 2] with
    | Ok v => Some v
    | Raise _ => None
    end
  = Some (2, [3], 1, [0]).
Proof. reflexivity. Qed.

Lemma samples_complete_within_limit_aux {order : set_order} n_bit on_set dc_set sop_lines k g v :
  validate_all (read_sop_file sop_lines n_bit) n_bit = Ok () →
  verify n_bit on_set dc_set sop_lines k g = Ok v →
  (dup_count v ≤ Z.max 0 k →
   dup_sample v = dup_items 0 ∅ (read_sop_file sop_lines n_bit))
  ∧ (off_hit_count v ≤ Z.max 0 k →
     off_hit_sample v
     = off_hit_items n_bit on_set dc_set (read_sop_file sop_lines n_bit))
  ∧ (uncovered_count v ≤ Z.max 0 k →
     uncovered_sample v = uncovered_items on_set (covered_on v)).
Proof.
  intros Hall Hv.
  destruct (verify_Ok n_bit on_set dc_set sop_lines k g Hall) as (v0 & Hv0 & Hspec).
  assert (v0 = v) as -> by congruence.
  destruct (verify_offered n_bit on_set dc_set sop_lines k g Hall)
    as (v' & Hv' & (_ & _ & Hdup) & (_ & _ & Hoff) & (_ & _ & Hunc)).
  assert (v' = v) as -> by congruence.
  destruct Hspec as [Himpls _ _ Hdupc _ Hoffc Huncc _ _ _ _].
  split_and!.
  - intros Hle. apply Hdup. rewrite dup_items_length, dom_empty_L. by rewrite <- Hdupc.
  - intros Hle. apply Hoff. unfold off_hit_items. rewrite filter_snd_length.
    by rewrite <- Hoffc.
  - intros Hle. apply Hunc. unfold uncovered_items.
    rewrite <- size_difference_iterate. by rewrite <- Huncc.
Qed.

(** X4. A sample list whose counter does not exceed the sample limit holds
    every example, in the order the loop met them: all duplicates in file
    order, all off-set hits in enumeration order, all uncovered on-set terms
    in the order in which the interpreter iterates the on-set. *)
Theorem samples_complete_within_limit {order : set_order} (n_bit : Z)
    (on_set dc_set : gset Z) (sop_lines : list string) (k : Z) (g : rng) :
  validate_all (read_sop_file sop_lines n_bit) n_bit = Ok () →
  ∃ v,
    verify n_bit on_set dc_set sop_lines k g = Ok v
    ∧ implicants v = read_sop_file sop_lines n_bit
    ∧ (dup_count v ≤ Z.max 0 k →
       dup_sample v = dup_items 0 ∅ (read_sop_file sop_lines n_bit))
    ∧ (off_hit_count v ≤ Z.max 0 k →
       off_hit_sample v
       = off_hit_items n_bit on_set dc_set (read_sop_file sop_lines n_bit))
    ∧ (uncovered_count v ≤ Z.max 0 k →
       uncovered_sample v = filter (λ m, m ∉ covered_on v) (iterate on_set)).
Proof.
  intros Hall.
  destruct (verify_Ok n_bit on_set dc_set sop_lines k g Hall) as (v & Hv & Hspec).
  exists v. split; [done|]. split; [by destruct Hspec|].
  by apply (samples_complete_within_limit_aux n_bit on_set dc_set sop_lines k g).
Qed.

Lemma samples_complete_within_limit_witness :
  validate_all (read_sop_file ["--"; "--"] 2) 2 = Ok ()
  ∧ ∃ v,
      verify 2 {[0]} ∅ ["--"; "--"] 6 [] = Ok v
      ∧ implicants v = read_sop_file ["--"; "--"] 2
      ∧ (dup_count v ≤ Z.max 0 6 →
         dup_sample v = dup_items 0 ∅ (read_sop_file ["--"; "--"] 2))
      ∧ (off_hit_count v ≤ Z.max 0 6 →
         off_hit_sample v = off_hit_items 2 {[0]} ∅ (read_sop_file ["--"; "--"] 2))
      ∧ (uncovered_count v ≤ Z.max 0 6 →
         uncovered_sample v = filter (λ m, m ∉ covered_on v) (iterate {[0]})).
Proof.
  split; [reflexivity|].
  apply (samples_complete_within_limit 2 {[0]} ∅ ["--"; "--"] 6 []). reflexivity.
Defined.

(** Six off-set hits and one duplicate, all listed with a limit of 6. *)
Example samples_listed_in_order :
  (λ v, (dup_sample v, off_hit_sample v)) <$>
    match verify 2 {[0]} ∅ ["--"; "--"] 6 [] with Ok v => Some v | Raise _ => None end
  = Some (["line 0 and line 1: --"], [2; 1; 3; 2; 1; 3]).
Proof. reflexivity. Qed.

(** X5. When none of the three counters exceeds the sample limit the random
    stream is never consulted: the whole outcome of the process, in every
    mode, is the same for any two streams. *)
Theorem outcome_fixed_within_limit {order : set_order} (n_bit : Z) (on_set dc_set : gset Z)
    (sop_lines : list string) (args : arguments) (g1 g2 : rng) (v1 : verdict) :
  verify n_bit on_set dc_set sop_lines (sample args) g1 = Ok v1 →
  dup_count v1 ≤ Z.max 0 (sample args) →
  off_hit_count v1 ≤ Z.max 0 (sample args) →
  uncovered_count v1 ≤ Z.max 0 (sample args) →
  verify n_bit on_set dc_set sop_lines (sample args) g2 = Ok v1
  ∧ run n_bit on_set dc_set sop_lines args g1 = run n_bit on_set dc_set sop_lines args g2.
Proof.
  intros Hv1 Hdup Hoff Hunc.
  destruct (validate_all (read_sop_file sop_lines n_bit) n_bit) as [[]|e] eqn:Hall;
    [|by rewrite (verify_Raise _ _ _ _ _ _ _ Hall) in Hv1].
  destruct (verify_Ok n_bit on_set dc_set sop_lines (sample args) g2 Hall)
    as (v2 & Hv2 & Hspec2).
  destruct (verify_Ok n_bit on_set dc_set sop_lines (sample args) g1 Hall)
    as (v1' & Hv1' & Hspec1).
  assert (v1' = v1) as -> by congruence.
  pose proof (verdict_spec_counters _ _ _ _ _ _ _ _ Hspec1 Hspec2) as Hc.
  destruct (samples_complete_within_limit_aux n_bit on_set dc_set sop_lines
              (sample args) g1 v1 Hall Hv1) as (Hd1 & Ho1 & Hu1).
  destruct (samples_complete_within_limit_aux n_bit on_set dc_set sop_lines
              (sample args) g2 v2 Hall Hv2) as (Hd2 & Ho2 & Hu2).
  unfold counters in Hc. injection Hc as Himpls Hlit Hfail Hdupc Hcov Hoffc Huncc Hpass.
  assert (v2 = v1) as ->.
  { destruct v1, v2. cbn in *. subst.
    rewrite Hd1, Ho1, Hu1, Hd2, Ho2, Hu2 by lia. done. }
  split; [done|]. unfold run, main. by rewrite Hv1, Hv2.
Qed.

Lemma outcome_fixed_within_limit_witness :
  run 2 {[0]} ∅ ["--"; "--"] {| quiet := false; summary := false; sample := 6 |} [1; 2; 3]
  = run 2 {[0]} ∅ ["--"; "--"] {| quiet := false; summary := false; sample := 6 |} [9; 9].
Proof.
  refine (proj2 (outcome_fixed_within_limit 2 {[0]} ∅ ["--"; "--"]
                   {| quiet := false; summary := false; sample := 6 |} [1; 2; 3] [9; 9]
                   _ eq_refl _ _ _)); by vm_compute.
Defined.

(** ** The report and the exit status *)


Lemma last_app_singleton {A : Type} (l : list A) (x : A) : last (l ++ [x]) = Some x.
Proof. apply last_snoc. Qed.







(** ** Implicants without free positions *)

Lemma bin_fold_snoc cs c :
  fold_left (λ acc ch, 2 * acc + Z.b2z (bool_decide (ch = "1"%char))) (cs ++ [c]) 0
  = 2 * fold_left (λ acc ch, 2 * acc + Z.b2z (bool_decide (ch = "1"%char))) cs 0
    + Z.b2z (bool_decide (c = "1"%char)).
Proof. by rewrite fold_left_app. Qed.

Lemma bin_fold_bits cs :
  let value := fold_left (λ acc ch, 2 * acc + Z.b2z (bool_decide (ch = "1"%char))) cs 0 in
  0 ≤ value < 2 ^ Z.of_nat (length cs)
  ∧ ∀ (i : nat) ch, cs !! i = Some ch →
      Z.testbit value (Z.of_nat (length cs) - 1 - Z.of_nat i) = bool_decide (ch = "1"%char).
Proof.
  induction cs as [|c cs IH] using rev_ind.
  - split; [simpl; lia|]. by intros [|i] ch.
  - cbn zeta in *. rewrite bin_fold_snoc. destruct IH as [Hrange Hbits].
    rewrite length_app. cbn [length]. rewrite Nat2Z.inj_add.
    change (Z.of_nat 1) with 1. split.
    + rewrite Z.pow_add_r by lia. change (2 ^ 1) with 2.
      destruct (bool_decide (c = "1"%char)); simpl Z.b2z; lia.
    + intros i ch Hi. destruct (decide (i < length cs)%nat) as [Hlt|Hge].
      * rewrite lookup_app_l in Hi by done.
        replace (Z.of_nat (length cs) + 1 - 1 - Z.of_nat i)
          with (Z.succ (Z.of_nat (length cs) - 1 - Z.of_nat i)) by lia.
        rewrite Z.testbit_succ_r by lia. by apply Hbits.
      * pose proof (lookup_lt_Some _ _ _ Hi) as Hlen. rewrite length_app in Hlen.
        cbn [length] in Hlen. assert (i = length cs) as -> by lia.
        rewrite list_lookup_middle in Hi by done. injection Hi as ->.
        replace (Z.of_nat (length cs) + 1 - 1 - Z.of_nat (length cs)) with 0 by lia.
        apply Z.testbit_0_r.
Qed.

Lemma bin_value_in_cube impl n :
  len_str impl = n → in_cube impl n (bin_value impl).
Proof.
  intros <-. unfold in_cube, bin_value, len_str.
  destruct (bin_fold_bits (chars impl)) as [Hrange Hbits]. split; [done|].
  intros i ch Hi. rewrite (Hbits i ch Hi). by split; intros ->.
Qed.

(** X9. A valid implicant without ['-'] yields exactly one minterm: the
    integer its characters write in binary, most significant bit first. *)
Theorem fixed_implicant_yields_its_value (impl : string) (n_bit : Z) :
  validate_implicant impl n_bit = Ok () →
  free_count impl = 0 →
  iter_implicant_minterms impl n_bit = Ok [bin_value impl].
Proof.
  intros [[-> ->]|(Hn0 & Hlen & Hlegal)]%validate_implicant_Ok Hfree; [done|].
  destruct (iter_implicant_minterms_bijection impl n_bit Hn0 Hlen Hlegal)
    as (g & Hiter & _ & _ & Hsurj).
  rewrite Hiter, Hfree. change (seqZ 0 (2 ^ 0)) with [0]. cbn [fmap list_fmap].
  destruct (Hsurj (bin_value impl)) as (m & Hm & Hgm); [by apply bin_value_in_cube|].
  rewrite Hfree in Hm. change (2 ^ 0) with 1 in Hm.
  assert (m = 0) as -> by lia. by rewrite Hgm.
Qed.

Lemma fixed_implicant_yields_its_value_witness :
  validate_implicant "1011" 4 = Ok ()
  ∧ free_count "1011" = 0
  ∧ iter_implicant_minterms "1011" 4 = Ok [bin_value "1011"]
  ∧ bin_value "1011" = 11.
Proof.
  split_and!; [reflexivity..| |reflexivity].
  apply (fixed_implicant_yields_its_value "1011" 4); reflexivity.
Defined.

(** ** Literals, dashes and the literal bound *)

Lemma legal_chars_split cs :
  Forall (λ ch, legal_char ch = true) cs →
  (length (filter (λ ch, ch = "0"%char ∨ ch = "1"%char) cs)
   + length (filter (λ ch, ch = "-"%char) cs))%nat
  = length cs.
Proof.
  induction 1 as [|ch rest Hch _ IH]; [done|].
  rewrite !filter_cons. cbn [length].
  destruct (legal_char_cases ch Hch) as [->|[->| ->]];
    repeat case_decide; cbn [length]; try lia; naive_solver.
Qed.

Lemma literals_dashes impls n :
  validate_all impls n = Ok () →
  literals impls + dashes impls = n * Z.of_nat (length impls).
Proof.
  intros Hall%validate_all_Ok. unfold literals, dashes.
  induction Hall as [|impl rest Himpl _ IH]; [simpl; lia|].
  rewrite bind_cons, !filter_app, !length_app. cbn [length].
  apply validate_implicant_Ok in Himpl as [[-> ->]|(Hn & Hlen & Hlegal)].
  - cbn [chars list_ascii_of_string filter list_filter length] in *. lia.
  - pose proof (legal_chars_split _ Hlegal). unfold len_str in Hlen. lia.
Qed.

(** X10. In a validated solution every character is a literal or a dash:
    the literal count plus the number of ['-'] in the implicants read from
    the SOP file is the bit width times the number of implicants, so the
    literal count lies between 0 and that product. *)
Theorem literal_count_complements_dashes {order : set_order} (n_bit : Z)
    (on_set dc_set : gset Z) (sop_lines : list string) (k : Z) (g : rng) :
  validate_all (read_sop_file sop_lines n_bit) n_bit = Ok () →
  ∃ v,
    verify n_bit on_set dc_set sop_lines k g = Ok v
    ∧ implicants v = read_sop_file sop_lines n_bit
    ∧ lit_count v + dashes (read_sop_file sop_lines n_bit)
      = n_bit * Z.of_nat (length (read_sop_file sop_lines n_bit))
    ∧ 0 ≤ lit_count v ≤ n_bit * Z.of_nat (length (read_sop_file sop_lines n_bit)).
Proof.
  intros Hall.
  destruct (verify_Ok n_bit on_set dc_set sop_lines k g Hall) as (v & Hv & Hspec).
  destruct Hspec as [Himpls Hlit _ _ _ _ _ _ _ _ _].
  exists v. rewrite Hlit, count_literals_literals.
  pose proof (literals_dashes _ _ Hall) as Hsum.
  split_and!; [done..| |]; unfold literals, dashes in *; lia.
Qed.

Lemma literal_count_complements_dashes_witness :
  validate_all (read_sop_file ["1-0"; "--1"] 3) 3 = Ok ()
  ∧ ∃ v,
      verify 3 {[1]} ∅ ["1-0"; "--1"] 0 [] = Ok v
      ∧ implicants v = read_sop_file ["1-0"; "--1"] 3
      ∧ lit_count v + dashes (read_sop_file ["1-0"; "--1"] 3)
        = 3 * Z.of_nat (length (read_sop_file ["1-0"; "--1"] 3))
      ∧ 0 ≤ lit_count v ≤ 3 * Z.of_nat (length (read_sop_file ["1-0"; "--1"] 3)).
Proof.
  split; [reflexivity|].
  apply (literal_count_complements_dashes 3 {[1]} ∅ ["1-0"; "--1"] 0 []). reflexivity.
Defined.

(** Three literals and three dashes in two implicants of width 3. *)
Example literal_count_of_run :
  lit_count <$>
    match verify 3 {[1]} ∅ ["1-0"; "--1"] 0 [] with Ok v => Some v | Raise _ => None end
  = Some 3
  ∧ dashes (read_sop_file ["1-0"; "--1"] 3) = 3.
Proof. split; reflexivity. Qed.

Lemma size_list_to_set_le (l : list Z) : (size (list_to_set l : gset Z) ≤ length l)%nat.
Proof.
  induction l as [|x l IH]; [by rewrite list_to_set_nil, size_empty|].
  rewrite list_to_set_cons, size_union_alt, size_singleton. cbn [length].
  pose proof (subseteq_size (list_to_set l ∖ {[x]}) (list_to_set l : gset Z)) as Hle.
  assert ((list_to_set l ∖ {[x]} : gset Z) ⊆ list_to_set l) as Hsub by set_solver.
  specialize (Hle Hsub). lia.
Qed.

Lemma dashes_cons impl rest : dashes (impl :: rest) = free_count impl + dashes rest.
Proof.
  unfold dashes, free_count. rewrite bind_cons, filter_app, length_app. lia.
Qed.

Lemma dashes_nonneg impls : 0 ≤ dashes impls.
Proof. unfold dashes. lia. Qed.

Lemma free_count_nonneg impl : 0 ≤ free_count impl.
Proof. unfold free_count. lia. Qed.

Lemma events_of_length_fixed n impls :
  n ≠ 0 → validate_all impls n = Ok () → dashes impls = 0 →
  length (events_of n impls) = length impls.
Proof.
  intros Hn Hall%validate_all_Ok. induction Hall as [|impl rest Himpl _ IH]; [done|].
  rewrite dashes_cons. intros Hdash.
  pose proof (dashes_nonneg rest). pose proof (free_count_nonneg impl).
  rewrite events_of_cons, length_app, length_fmap, IH by lia. cbn [length].
  apply validate_implicant_Ok in Himpl as [[? _]|(_ & Hlen & Hlegal)]; [done|].
  destruct (iter_implicant_minterms_bijection impl n Hn Hlen Hlegal) as (g & Hiter & _).
  unfold minterms_of. rewrite Hiter. cbn [result_default].
  rewrite length_fmap, length_seqZ.
  replace (free_count impl) with 0 by lia. done.
Qed.

(** X11. Because a literal count equal to [|on-set| * bit width] already
    fails, a solution written without any ['-'] never passes when the bit
    width is positive and the on-set is not empty: covering the on-set takes
    at least [|on-set|] such implicants, each of [bit width] literals. *)
Theorem solution_without_dash_never_passes {order : set_order} (n_bit : Z) (on_set dc_set : gset Z)
    (sop_lines : list string) (k : Z) (g : rng) :
  validate_all (read_sop_file sop_lines n_bit) n_bit = Ok () →
  n_bit > 0 → on_set ≠ ∅ → dashes (read_sop_file sop_lines n_bit) = 0 →
  ∃ v, verify n_bit on_set dc_set sop_lines k g = Ok v ∧ passed v = false.
Proof.
  intros Hall Hn Hon Hdash.
  destruct (verify_Ok n_bit on_set dc_set sop_lines k g Hall) as (v & Hv & Hspec).
  exists v. split; [done|].
  destruct Hspec as [_ _ Hfail _ Hcov _ Hunc Hpass _ _ _].
  set (impls := read_sop_file sop_lines n_bit) in *.
  destruct (passed v) eqn:Hp; [exfalso|done]. symmetry in Hpass.
  rewrite !andb_true_iff, !bool_decide_eq_true, negb_true_iff in Hpass.
  destruct Hpass as [[[_ Hunc0] _] Hok].
  assert (size on_set ≠ 0%nat) as Hsize.
  { intros Hz%size_empty_iff. apply Hon. by apply leibniz_equiv. }
  assert (size (on_set ∖ covered_on v) = 0%nat) as Hempty%size_empty_iff by lia.
  assert (size (list_to_set (C:=gset Z) (enumeration_events n_bit impls).*2)
          ≤ length impls)%nat as Hle.
  { etrans; [apply size_list_to_set_le|].
    rewrite length_fmap. unfold enumeration_events.
    rewrite (valid_implicants_validated impls n_bit) by (done || lia).
    by rewrite events_of_length_fixed by (done || lia). }
  revert Hcov Hempty Hle.
  generalize (list_to_set (C:=gset Z) (enumeration_events n_bit impls).*2) as E.
  intros E Hcov Hempty Hle.
  assert (on_set ⊆ E) as Hsub.
  { intros m Hm. destruct (decide (m ∈ E)) as [|Hnot]; [done|]. exfalso.
    apply (not_elem_of_empty (C:=gset Z) m). rewrite <- Hempty.
    apply elem_of_difference. split; [done|].
    rewrite Hcov, elem_of_intersection. by intros [_ ?]. }
  apply subseteq_size in Hsub.
  pose proof (literals_dashes _ _ Hall) as Hsum. fold impls in Hsum.
  rewrite <- count_literals_literals in Hsum.
  rewrite Hfail in Hok. apply not_true_iff_false in Hok. apply Hok.
  rewrite !andb_true_iff, !bool_decide_eq_true. unfold len_set. split_and!; [lia..|nia].
Qed.

Lemma solution_without_dash_never_passes_witness :
  validate_all (read_sop_file ["00"; "11"] 2) 2 = Ok ()
  ∧ 2 > 0 ∧ ({[0; 3]} : gset Z) ≠ ∅ ∧ dashes (read_sop_file ["00"; "11"] 2) = 0
  ∧ ∃ v, verify 2 {[0; 3]} ∅ ["00"; "11"] 0 [] = Ok v ∧ passed v = false.
Proof.
  assert (({[0; 3]} : gset Z) ≠ ∅) as Hne by (apply (bool_decide_unpack _); by vm_compute).
  split_and!; [reflexivity|lia|exact Hne|reflexivity|].
  exact (solution_without_dash_never_passes 2 {[0; 3]} ∅ ["00"; "11"] 0 []
           eq_refl eq_refl Hne eq_refl).
Defined.

(** X12. A solution without implicants passes exactly when the on-set is
    empty, whatever the bit width and the don't-care set. *)
Theorem empty_solution_passes_iff_no_on_set {order : set_order} (n_bit : Z) (on_set dc_set : gset Z)
    (sop_lines : list string) (k : Z) (g : rng) :
  read_sop_file sop_lines n_bit = [] →
  ∃ v,
    verify n_bit on_set dc_set sop_lines k g = Ok v
    ∧ (passed v = true ↔ on_set = ∅)
    ∧ lit_count v = 0 ∧ dup_count v = 0 ∧ off_hit_count v = 0
    ∧ uncovered_count v = len_set on_set.
Proof.
  intros Hnil.
  assert (validate_all (read_sop_file sop_lines n_bit) n_bit = Ok ()) as Hall
    by by rewrite Hnil.
  destruct (verify_Ok n_bit on_set dc_set sop_lines k g Hall) as (v & Hv & Hspec).
  destruct Hspec as [_ Hlit Hfail Hdup Hcov Hoff Hunc Hpass _ _ _].
  rewrite Hnil in *. cbn in Hlit, Hdup, Hoff.
  change (enumeration_events n_bit []) with (@nil (string * Z)) in Hcov.
  assert (covered_on v = ∅) as Hcov' by (rewrite Hcov; set_solver).
  rewrite Hcov', difference_empty_L in Hunc.
  exists v. split_and!; [done| |done..].
  rewrite Hpass, Hfail, Hdup, Hoff, Hunc.
  change (count_literals []) with 0.
  rewrite !andb_true_iff, !bool_decide_eq_true, negb_true_iff.
  rewrite <- (leibniz_equiv_iff on_set ∅), <- size_empty_iff. split.
  - intros [[[_ ?] _] _]. lia.
  - intros Hsz. split_and!; [done|lia|done|].
    apply not_true_iff_false. rewrite !andb_true_iff, !bool_decide_eq_true.
    unfold len_set. lia.
Qed.

Lemma empty_solution_passes_iff_no_on_set_witness :
  read_sop_file [LF; " "] 3 = []
  ∧ ∃ v,
      verify 3 {[5]} {[1]} [LF; " "] 0 [] = Ok v
      ∧ (passed v = true ↔ ({[5]} : gset Z) = ∅)
      ∧ lit_count v = 0 ∧ dup_count v = 0 ∧ off_hit_count v = 0
      ∧ uncovered_count v = len_set {[5]}.
Proof.
  split; [reflexivity|].
  apply (empty_solution_passes_iff_no_on_set 3 {[5]} {[1]} [LF; " "] 0 []). reflexivity.
Defined.

(** ** Reading the SOP file, again *)

Lemma lstrip_chars_prefix cs :
  ∃ pre, cs = pre ++ lstrip_chars cs ∧ Forall (λ c, is_space c = true) pre.
Proof.
  induction cs as [|c rest (pre & Heq & Hpre)]; [by exists []|]. simpl.
  destruct (is_space c) eqn:Hc.
  - exists (c :: pre). split; [by rewrite Heq at 1|by constructor].
  - by exists [].
Qed.

Lemma lstrip_chars_head cs c rest : lstrip_chars cs = c :: rest → is_space c = false.
Proof.
  induction cs as [|c' cs IH]; simpl; [done|].
  destruct (is_space c') eqn:Hc; [done|]. by intros [= <- _].
Qed.

Lemma lstrip_chars_idem cs : lstrip_chars (lstrip_chars cs) = lstrip_chars cs.
Proof.
  destruct (lstrip_chars cs) as [|c rest] eqn:Heq; [done|].
  simpl. by rewrite (lstrip_chars_head _ _ _ Heq).
Qed.

Lemma strip_chars_idem cs :
  let stripped := rev (lstrip_chars (rev (lstrip_chars cs))) in
  rev (lstrip_chars (rev (lstrip_chars stripped))) = stripped.
Proof.
  cbn zeta.
  destruct (lstrip_chars_prefix (rev (lstrip_chars cs))) as (pre & Heq & _).
  set (b := lstrip_chars (rev (lstrip_chars cs))) in *.
  assert (lstrip_chars cs = rev b ++ rev pre) as Ha.
  { by rewrite <- rev_app_distr, <- Heq, rev_involutive. }
  assert (lstrip_chars (rev b) = rev b) as ->.
  { destruct (rev b) as [|c r] eqn:Hr; [done|]. simpl.
    by rewrite (lstrip_chars_head cs c (r ++ rev pre)). }
  rewrite rev_involutive. unfold b. by rewrite lstrip_chars_idem.
Qed.

Lemma chars_string_of_list cs : chars (string_of_list_ascii cs) = cs.
Proof. apply list_ascii_of_string_of_list_ascii. Qed.

Lemma strip_idem s : strip (strip s) = strip s.
Proof.
  unfold strip at 1. unfold strip at 1. rewrite chars_string_of_list.
  unfold strip. f_equal. apply strip_chars_idem.
Qed.

Lemma read_sop_file_closed lines n :
  read_sop_file lines n
  = if decide (n = 0) then strip <$> lines else filter (λ s, s ≠ "") (strip <$> lines).
Proof.
  induction lines as [|ln rest IH]; [by case_decide|].
  rewrite read_sop_file_cons, IH. unfold read_sop_file, read_line. cbn [fold_left].
  rewrite fmap_cons, filter_cons. repeat case_decide; simplify_eq/=; congruence.
Qed.

(** X13. [read_sop_file] trims every line; at width 0 it keeps them all, at
    any other width it keeps the non-blank ones, in order.  What it returns
    is free of surrounding whitespace, so reading its own result again
    changes nothing. *)
Theorem read_sop_file_trims_and_is_idempotent (lines : list string) (n_bit : Z) :
  read_sop_file lines n_bit
  = (if decide (n_bit = 0) then strip <$> lines
     else filter (λ s, s ≠ "") (strip <$> lines))
  ∧ Forall (λ impl, strip impl = impl ∧ (n_bit ≠ 0 → impl ≠ ""))
      (read_sop_file lines n_bit)
  ∧ read_sop_file (read_sop_file lines n_bit) n_bit = read_sop_file lines n_bit.
Proof.
  assert (Forall (λ impl, strip impl = impl ∧ (n_bit ≠ 0 → impl ≠ ""))
            (read_sop_file lines n_bit)) as Hall.
  { rewrite read_sop_file_closed. apply Forall_forall. intros impl Hin.
    case_decide as Hn.
    - apply list_elem_of_fmap in Hin as (ln & -> & _). split; [apply strip_idem|done].
    - apply list_elem_of_filter in Hin as [Hne Hin].
      apply list_elem_of_fmap in Hin as (ln & -> & _). split; [apply strip_idem|done]. }
  split_and!; [apply read_sop_file_closed|done|].
  rewrite (read_sop_file_closed (read_sop_file lines n_bit)).
  revert Hall. generalize (read_sop_file lines n_bit) as impls.
  intros impls Hall. case_decide as Hn.
  - induction Hall as [|impl rest [Hstrip _] _ IH]; [done|].
    by rewrite fmap_cons, Hstrip, IH.
  - induction Hall as [|impl rest [Hstrip Hne] _ IH]; [done|].
    rewrite fmap_cons, Hstrip, filter_cons, decide_True by by apply Hne.
    by rewrite IH.
Qed.

(** ** Text: trimming, splitting, decimal numbers *)

Lemma chars_app s1 s2 : chars (s1 +:+ s2) = chars s1 ++ chars s2.
Proof. induction s1 as [|c s1 IH]; [done|]. simpl. by rewrite <- IH. Qed.

Lemma string_of_chars s : string_of_list_ascii (chars s) = s.
Proof. apply string_of_list_ascii_of_string. Qed.

Lemma chars_inj s1 s2 : chars s1 = chars s2 → s1 = s2.
Proof. intros H. by rewrite <- (string_of_chars s1), H, string_of_chars. Qed.

Lemma lstrip_chars_spaces pre cs :
  Forall (λ c, is_space c = true) pre → lstrip_chars (pre ++ cs) = lstrip_chars cs.
Proof. induction 1 as [|c pre Hc _ IH]; [done|]. simpl. by rewrite Hc. Qed.

Lemma lstrip_chars_all_spaces post :
  Forall (λ c, is_space c = true) post → lstrip_chars post = [].
Proof.
  intros H. rewrite <- (app_nil_r post). by rewrite lstrip_chars_spaces.
Qed.

(** A text whose first and last characters are not whitespace. *)
Lemma strip_chars_trimmed mid post :
  lstrip_chars mid = mid → lstrip_chars (rev mid) = rev mid →
  Forall (λ c, is_space c = true) post →
  rev (lstrip_chars (rev (lstrip_chars (mid ++ post)))) = mid.
Proof.
  intros Hhead Hlast Hpost. destruct mid as [|c mid].
  - simpl. by rewrite (lstrip_chars_all_spaces post).
  - assert (is_space c = false) as Hc by by eapply lstrip_chars_head.
    assert (lstrip_chars ((c :: mid) ++ post) = (c :: mid) ++ post) as ->
      by (simpl; by rewrite Hc).
    rewrite rev_app_distr, lstrip_chars_spaces by by apply Forall_rev.
    by rewrite Hlast, rev_involutive.
Qed.

Lemma strip_trimmed (text : string) post :
  lstrip_chars (chars text) = chars text →
  lstrip_chars (rev (chars text)) = rev (chars text) →
  Forall (λ c, is_space c = true) post →
  strip (text +:+ string_of_list_ascii post) = text.
Proof.
  intros Hhead Hlast Hpost. unfold strip.
  rewrite chars_app, chars_string_of_list, strip_chars_trimmed by done.
  apply string_of_chars.
Qed.

Lemma strip_no_space (text : string) :
  Forall (λ c, is_space c = false) (chars text) → strip text = text.
Proof.
  intros Hns. unfold strip. rewrite (lstrip_chars_id (chars text)) by done.
  rewrite lstrip_chars_id by by apply Forall_rev.
  rewrite rev_involutive. apply string_of_chars.
Qed.

(** What [strip] removes: whitespace before and after. *)
Lemma strip_surround (s : string) :
  ∃ pre post,
    chars s = pre ++ chars (strip s) ++ post
    ∧ Forall (λ c, is_space c = true) pre
    ∧ Forall (λ c, is_space c = true) post.
Proof.
  unfold strip. rewrite chars_string_of_list.
  destruct (lstrip_chars_prefix (chars s)) as (pre & Heq & Hpre).
  destruct (lstrip_chars_prefix (rev (lstrip_chars (chars s)))) as (post & Heq' & Hpost).
  exists pre, (rev post). split_and!; [|done|by apply Forall_rev].
  rewrite Heq at 1. f_equal.
  rewrite <- rev_app_distr, <- Heq'. by rewrite rev_involutive.
Qed.

Lemma split_chars_spaces pre cs :
  Forall (λ c, is_space c = true) pre → split_chars (pre ++ cs) [] = split_chars cs [].
Proof. induction 1 as [|c pre Hc _ IH]; [done|]. simpl. by rewrite Hc. Qed.

Lemma split_chars_trailing cs post cur :
  Forall (λ c, is_space c = true) post →
  split_chars (cs ++ post) cur = split_chars cs cur.
Proof.
  intros Hpost. revert cur. induction cs as [|c cs IH]; intros cur; simpl.
  - revert cur. induction Hpost as [|c post Hc _ IH]; intros cur; [done|].
    simpl. rewrite Hc. destruct cur; [apply IH|]. by rewrite (IH []).
  - destruct (is_space c); [destruct cur|]; by rewrite ?IH.
Qed.

(** [split] does not see surrounding whitespace. *)
Lemma split_strip s : split (strip s) = split s.
Proof.
  unfold split. destruct (strip_surround s) as (pre & post & -> & Hpre & Hpost).
  by rewrite split_chars_spaces, split_chars_trailing.
Qed.

Lemma split_chars_token t rest cur :
  Forall (λ c, is_space c = false) t →
  split_chars (t ++ rest) cur = split_chars rest (rev t ++ cur).
Proof.
  intros Ht. revert cur. induction Ht as [|c t Hc _ IH]; intros cur; [done|].
  simpl. rewrite Hc, IH. by rewrite <- app_assoc.
Qed.

Lemma split_chars_pending cs cur : cur ≠ [] → split_chars cs cur ≠ [].
Proof.
  revert cur. induction cs as [|c cs IH]; intros cur Hcur; simpl.
  - by destruct cur.
  - destruct (is_space c); [by destruct cur|]. by apply IH.
Qed.

(** A text is blank exactly when it has no token. *)
Lemma strip_empty_iff_split s : strip s = "" ↔ split s = [].
Proof.
  rewrite <- split_strip. split; [by intros ->|].
  destruct (strip s) as [|c rest] eqn:Hs; [done|]. intros Hsplit. exfalso.
  assert (is_space c = false) as Hc.
  { pose proof (strip_idem s) as Hidem. rewrite Hs in Hidem.
    unfold strip in Hidem. apply (f_equal chars) in Hidem.
    rewrite chars_string_of_list in Hidem. cbn [chars list_ascii_of_string] in Hidem.
    fold (chars rest) in Hidem.
    destruct (is_space c) eqn:Hc; [|done]. exfalso.
    assert (length (c :: chars rest) ≤ length (chars rest))%nat as Hlen; [|simpl in Hlen; lia].
    rewrite <- Hidem at 1. rewrite length_rev.
    destruct (lstrip_chars_prefix (rev (lstrip_chars (c :: chars rest)))) as (p1 & Hp1 & _).
    destruct (lstrip_chars_prefix (chars rest)) as (p2 & Hp2 & _).
    apply (f_equal length) in Hp1, Hp2. rewrite length_app in Hp1, Hp2.
    rewrite length_rev in Hp1. simpl lstrip_chars in Hp1 |- *. rewrite Hc in Hp1 |- *. lia. }
  unfold split in Hsplit. cbn [chars list_ascii_of_string split_chars] in Hsplit.
  rewrite Hc in Hsplit. fold (chars rest) in Hsplit.
  by apply split_chars_pending in Hsplit.
Qed.

Lemma digit_value_pretty_char (m : N) :
  (m < 10)%N → digit_value (pretty_N_char m) = Some (Z.of_N m).
Proof.
  intros Hm.
  assert (m = 0 ∨ m = 1 ∨ m = 2 ∨ m = 3 ∨ m = 4 ∨ m = 5 ∨ m = 6 ∨ m = 7 ∨ m = 8 ∨ m = 9)%N
    as Hcases by lia.
  repeat destruct Hcases as [->|Hcases]; try subst m; reflexivity.
Qed.

Lemma digit_not_space c d : digit_value c = Some d → is_space c = false.
Proof.
  unfold digit_value, is_space. generalize (nat_of_ascii c) as n. intros n.
  destruct (48 <=? n)%nat eqn:H1; [|done]. destruct (n <=? 57)%nat eqn:H2; [|done].
  intros _. apply Nat.leb_le in H1, H2.
  rewrite !orb_false_iff, !andb_false_iff, !Nat.leb_gt, !Nat.eqb_neq. lia.
Qed.

Lemma digit_not_sign c d :
  digit_value c = Some d → c ≠ "+"%char ∧ c ≠ "-"%char ∧ c ≠ "_"%char.
Proof. intros Hd. split_and!; intros ->; discriminate Hd. Qed.

(** The digits [pretty_N_go] writes in front of [s], and how [int_digits]
    reads them back. *)
Lemma pretty_N_go_digits (x : N) (s : string) :
  ∃ ds : list ascii,
    chars (pretty_N_go x s) = ds ++ chars s
    ∧ Forall (λ c, is_Some (digit_value c)) ds
    ∧ (x = 0%N → ds = [])
    ∧ ((0 < x)%N →
       ds ≠ []
       ∧ ∀ rest acc b,
           int_digits (ds ++ rest) acc b
           = int_digits rest (acc * 10 ^ Z.of_nat (length ds) + Z.of_N x) true).
Proof.
  revert s. induction (N.lt_wf_0 x) as [x _ IH]; intros s.
  destruct (decide (x = 0%N)) as [->|Hx].
  { exists []. rewrite pretty_N_go_0. split_and!; [done|constructor|done|lia]. }
  assert (0 < x)%N as Hpos by lia.
  rewrite pretty_N_go_step by done.
  destruct (IH (x `div` 10)%N (N.div_lt x 10 Hpos eq_refl)
              (String (pretty_N_char (x `mod` 10)) s))
    as (ds & Hchars & Hdigits & Hzero & Hread).
  pose proof (digit_value_pretty_char (x `mod` 10) (N.mod_lt x 10 ltac:(done))) as Hd.
  exists (ds ++ [pretty_N_char (x `mod` 10)]).
  split_and!.
  - rewrite Hchars. by rewrite <- app_assoc.
  - apply Forall_app. split; [done|]. apply Forall_singleton. by rewrite Hd.
  - lia.
  - intros _. split; [by destruct ds|]. intros rest acc b.
    rewrite <- app_assoc. cbn [app].
    assert (Z.of_N x = 10 * Z.of_N (x `div` 10) + Z.of_N (x `mod` 10)) as Hdm.
    { rewrite (N.div_mod x 10) at 1 by done. by rewrite N2Z.inj_add, N2Z.inj_mul. }
    destruct (decide (x `div` 10 = 0)%N) as [Hq|Hq].
    + rewrite (Hzero Hq). cbn [app int_digits length]. rewrite Hd.
      f_equal. change (10 ^ Z.of_nat 1) with 10. rewrite Hdm, Hq.
      generalize (Z.of_N (x `mod` 10)). intros r. change (Z.of_N 0) with 0. lia.
    + destruct Hread as [_ Hread]; [by apply N.neq_0_lt_0|]. rewrite Hread.
      cbn [int_digits]. rewrite Hd. f_equal.
      rewrite length_app. cbn [length]. rewrite Nat2Z.inj_add, Z.pow_add_r by lia.
      change (10 ^ Z.of_nat 1) with 10. rewrite Hdm.
      generalize (Z.of_N (x `mod` 10)) (Z.of_N (x `div` 10))
        (10 ^ Z.of_nat (length ds)).
      intros r q pw. lia.
Qed.

(** The decimal text of a natural number. *)
Lemma pretty_nonneg_digits (z : Z) :
  0 ≤ z →
  chars (pretty z) ≠ []
  ∧ Forall (λ c, is_Some (digit_value c)) (chars (pretty z))
  ∧ int_digits (chars (pretty z)) 0 false = Some z.
Proof.
  intros Hz. destruct z as [|p|p]; [|clear Hz|lia].
  { split_and!; [done| |done]. apply Forall_singleton. by eexists. }
  change (pretty (Z.pos p)) with (pretty_N_go (N.pos p) "").
  destruct (pretty_N_go_digits (N.pos p) "") as (ds & Hchars & Hdigits & _ & Hread).
  destruct Hread as [Hne Hread]; [lia|].
  rewrite Hchars. cbn [chars list_ascii_of_string]. rewrite app_nil_r.
  split; [done|]. split; [done|].
  rewrite <- (app_nil_r ds), Hread. cbn [int_digits]. f_equal; lia.
Qed.

Lemma pretty_no_space (z : Z) : Forall (λ c, is_space c = false) (chars (pretty z)).
Proof.
  assert (∀ z, 0 ≤ z → Forall (λ c, is_space c = false) (chars (pretty z))) as Hnonneg.
  { intros z' Hz'. destruct (pretty_nonneg_digits z' Hz') as (_ & Hdigits & _).
    eapply Forall_impl; [done|]. intros c [d Hd]. by eapply digit_not_space. }
  destruct z as [|p|p]; [apply Hnonneg; lia..|].
  change (pretty (Z.neg p)) with ("-" +:+ pretty (Z.pos p)).
  rewrite chars_app. apply Forall_app. split; [by repeat constructor|].
  apply Hnonneg. lia.
Qed.

Lemma pretty_not_empty (z : Z) : pretty z ≠ "".
Proof.
  destruct z as [|p|p]; [done| |done].
  intros Heq. destruct (pretty_nonneg_digits (Z.pos p)) as (Hne & _); [lia|].
  by rewrite Heq in Hne.
Qed.

(** The number of digits that [str] writes. *)
Lemma digit_count_digits cs :
  Forall (λ c, is_Some (digit_value c)) cs → digit_count cs = Z.of_nat (length cs).
Proof.
  intros Hds. unfold digit_count. f_equal.
  induction Hds as [|c cs Hc _ IH]; [done|].
  rewrite filter_cons, decide_True by done. cbn [length]. by rewrite IH.
Qed.

Lemma pretty_N_go_length (x : N) (s : string) :
  ∃ ds : list ascii,
    chars (pretty_N_go x s) = ds ++ chars s
    ∧ (x = 0%N → ds = [])
    ∧ ((0 < x)%N →
       10 ^ (Z.of_nat (length ds) - 1) ≤ Z.of_N x < 10 ^ Z.of_nat (length ds)).
Proof.
  revert s. induction (N.lt_wf_0 x) as [x _ IH]; intros s.
  destruct (decide (x = 0%N)) as [->|Hx].
  { exists []. rewrite pretty_N_go_0. split_and!; [done|done|lia]. }
  assert (0 < x)%N as Hpos by lia.
  rewrite pretty_N_go_step by done.
  destruct (IH (x `div` 10)%N (N.div_lt x 10 Hpos eq_refl)
              (String (pretty_N_char (x `mod` 10)) s))
    as (ds & Hchars & Hzero & Hbound).
  exists (ds ++ [pretty_N_char (x `mod` 10)]). split_and!.
  - rewrite Hchars. by rewrite <- app_assoc.
  - lia.
  - intros _.
    assert (Z.of_N x = 10 * Z.of_N (x `div` 10) + Z.of_N (x `mod` 10)) as Hdm.
    { rewrite (N.div_mod x 10) at 1 by done. by rewrite N2Z.inj_add, N2Z.inj_mul. }
    assert (0 ≤ Z.of_N (x `mod` 10) < 10) as Hr.
    { split; [apply N2Z.is_nonneg|]. change 10 with (Z.of_N 10).
      apply N2Z.inj_lt. by apply N.mod_lt. }
    assert (0 < Z.of_N x) as Hxpos by (change 0 with (Z.of_N 0); by apply N2Z.inj_lt).
    assert (0 ≤ Z.of_N (x `div` 10)) as Hqnn by apply N2Z.is_nonneg.
    destruct (decide (x `div` 10 = 0)%N) as [Hq|Hq].
    + rewrite (Hzero Hq).
      change (Z.of_nat (length ([] ++ [pretty_N_char (x `mod` 10)]))) with 1.
      change (10 ^ (1 - 1)) with 1. change (10 ^ 1) with 10.
      rewrite Hq in Hdm. change (Z.of_N 0) with 0 in Hdm.
      revert Hdm Hr Hxpos. generalize (Z.of_N (x `mod` 10)) (Z.of_N x). intros r x'. lia.
    + assert (Z.of_N (x `div` 10) ≠ 0) as Hqne.
      { intros Heq. apply Hq. apply N2Z.inj. by rewrite Heq. }
      destruct Hbound as [Hlo Hhi]; [by apply N.neq_0_lt_0|].
      rewrite length_app. cbn [length]. rewrite Nat2Z.inj_add.
      change (Z.of_nat 1) with 1.
      assert (1 ≤ Z.of_nat (length ds)) as Hlen.
      { destruct ds; [|cbn [length]; lia]. cbn [length] in Hhi.
        change (10 ^ Z.of_nat 0) with 1 in Hhi.
        revert Hhi Hqnn Hqne. generalize (Z.of_N (x `div` 10)). intros q. lia. }
      revert Hlo Hhi Hlen. generalize (Z.of_nat (length ds)). intros l Hlo Hhi Hlen.
      replace (l + 1 - 1) with (Z.succ (l - 1)) by lia.
      replace (l + 1) with (Z.succ (Z.succ (l - 1))) by lia.
      replace l with (Z.succ (l - 1)) in Hhi by lia.
      rewrite !Z.pow_succ_r by lia. rewrite Z.pow_succ_r in Hhi by lia.
      revert Hlo Hhi Hdm Hr.
      generalize (10 ^ (l - 1)) (Z.of_N (x `div` 10)) (Z.of_N (x `mod` 10)) (Z.of_N x).
      intros pw q r x'. lia.
Qed.

Lemma pretty_digit_count (z : Z) :
  0 ≤ z →
  0 ≤ digit_count (chars (pretty z))
  ∧ (z = 0 → digit_count (chars (pretty z)) = 1)
  ∧ (0 < z →
     10 ^ (digit_count (chars (pretty z)) - 1) ≤ z
     < 10 ^ digit_count (chars (pretty z))).
Proof.
  intros Hz. split; [unfold digit_count; lia|]. split; [by intros ->|]. intros Hpos.
  destruct (pretty_nonneg_digits z Hz) as (_ & Hdigits & _).
  rewrite digit_count_digits by done.
  destruct z as [|p|p]; [lia| |lia].
  change (pretty (Z.pos p)) with (pretty_N_go (N.pos p) "").
  destruct (pretty_N_go_length (N.pos p) "") as (ds & Hchars & _ & Hbound).
  rewrite Hchars. cbn [chars list_ascii_of_string]. rewrite app_nil_r.
  apply Hbound. lia.
Qed.

(** The check of [int] on what [str] writes, in terms of the integer. *)
Lemma over_digit_limit_pretty (max_str_digits z : Z) :
  0 ≤ z →
  over_digit_limit max_str_digits (digit_count (chars (pretty z)))
  = bool_decide (too_long max_str_digits z).
Proof.
  intros Hz. destruct (pretty_digit_count z Hz) as (Hnn & Hzero & Hbound).
  unfold over_digit_limit, too_long, str_digits_check_threshold.
  rewrite <- !bool_decide_and. apply bool_decide_ext. rewrite Z.abs_eq by done.
  revert Hnn Hzero Hbound. generalize (digit_count (chars (pretty z))).
  intros n Hnn Hzero Hbound.
  assert (0 < 10 ^ Z.max max_str_digits 640) as Hpw by (apply Z.pow_pos_nonneg; lia).
  destruct (decide (z = 0)) as [->|Hne].
  { rewrite Hzero by done. lia. }
  destruct Hbound as [Hlo Hhi]; [lia|]. split.
  - intros [[Hn Hd] Hnd]. split; [lia|].
    etrans; [|exact Hlo]. apply Z.pow_le_mono_r; lia.
  - intros [Hd Hle].
    assert (Z.max max_str_digits 640 < n); [|lia].
    apply (Z.pow_lt_mono_r_iff 10); lia.
Qed.

Lemma int_literal_pretty (max_str_digits z : Z) :
  0 ≤ z →
  int_literal max_str_digits (chars (pretty z))
  = if decide (too_long max_str_digits z) then None else Some z.
Proof.
  intros Hz. destruct (pretty_nonneg_digits z Hz) as (_ & _ & Hread).
  unfold int_literal. rewrite Hread. cbn [mbind option_bind].
  rewrite over_digit_limit_pretty by done.
  destruct (decide (too_long max_str_digits z)).
  - by rewrite bool_decide_eq_true_2.
  - by rewrite bool_decide_eq_false_2.
Qed.

(** [int] reads back what [str] writes, unless it has too many digits. *)
Lemma py_int_pretty (max_str_digits z : Z) :
  py_int max_str_digits (pretty z)
  = if decide (too_long max_str_digits z) then None else Some z.
Proof.
  unfold py_int. rewrite strip_no_space by apply pretty_no_space.
  assert (∀ z', 0 ≤ z' →
            match chars (pretty z') with
            | [] => None
            | c :: cs =>
                if decide (c = "+"%char) then int_literal max_str_digits cs
                else if decide (c = "-"%char)
                     then Z.opp <$> int_literal max_str_digits cs
                     else int_literal max_str_digits (c :: cs)
            end = if decide (too_long max_str_digits z') then None else Some z')
    as Hnonneg.
  { intros z' Hz'. pose proof (int_literal_pretty max_str_digits z' Hz') as Hlit.
    destruct (pretty_nonneg_digits z' Hz') as (Hne & Hdigits & _).
    destruct (chars (pretty z')) as [|c cs]; [done|].
    apply Forall_cons in Hdigits as [[d Hd] _].
    destruct (digit_not_sign c d Hd) as (? & ? & _).
    by rewrite !decide_False by done. }
  destruct z as [|p|p]; [apply Hnonneg; lia..|].
  change (pretty (Z.neg p)) with ("-" +:+ pretty (Z.pos p)).
  rewrite chars_app. cbn [chars list_ascii_of_string app].
  rewrite decide_False, decide_True by done.
  fold (chars (pretty (Z.pos p))). rewrite int_literal_pretty by lia.
  assert (too_long max_str_digits (Z.neg p) ↔ too_long max_str_digits (Z.pos p)) as Habs
    by done.
  destruct (decide (too_long max_str_digits (Z.pos p)));
    destruct (decide (too_long max_str_digits (Z.neg p))); try done; tauto.
Qed.

(** ** The specification loader *)

Lemma py_int_strip max_str_digits text :
  py_int max_str_digits (strip text) = py_int max_str_digits text.
Proof. unfold py_int. by rewrite strip_idem. Qed.

(** A set line is read as its tokens: a blank line has none. *)
Lemma set_line_tokens max_str_digits line :
  set_line max_str_digits (strip line) = int_set max_str_digits (split line).
Proof.
  unfold set_line. case_decide as Hblank.
  - by rewrite split_strip.
  - apply strip_empty_iff_split in Hblank. by rewrite Hblank.
Qed.

Lemma first_refused_cons max_str_digits text texts :
  first_refused max_str_digits (text :: texts)
  = match py_int max_str_digits text with
    | None => Some text
    | Some _ => first_refused max_str_digits texts
    end.
Proof.
  unfold first_refused. cbn [list_find].
  destruct (py_int max_str_digits text) as [z|] eqn:Hint.
  - rewrite decide_False by done.
    by destruct (list_find (λ t, py_int max_str_digits t = None) texts) as [[i t]|].
  - by rewrite decide_True.
Qed.

(** The tokens are converted up to the first that [int] refuses. *)
Lemma int_set_first_refused max_str_digits toks :
  (∀ tok, first_refused max_str_digits toks = Some tok →
          int_set max_str_digits toks = Failed (ValueError_literal tok))
  ∧ (first_refused max_str_digits toks = None →
     ∃ X, int_set max_str_digits toks = Loaded X).
Proof.
  induction toks as [|tok rest [IHsome IHnone]]; [split; [done|by eexists]|].
  rewrite first_refused_cons. cbn [int_set]. unfold to_int.
  destruct (py_int max_str_digits tok) as [z|]; cbn [mbind loaded_bind].
  - split.
    + intros t Ht. by rewrite (IHsome t Ht).
    + intros Hnone. destruct (IHnone Hnone) as [X ->]. by eexists.
  - split; [by intros t [= <-]|done].
Qed.

Lemma split_unwords toks post :
  Forall (λ tok, tok ≠ "" ∧ Forall (λ c, is_space c = false) (chars tok)) toks →
  Forall (λ c, is_space c = true) post →
  split_chars (chars (unwords toks) ++ post) [] = toks.
Proof.
  intros Htoks Hpost. induction Htoks as [|tok rest [Hne Hns] Hrest IH].
  - by rewrite (split_chars_trailing [] post).
  - assert (rev (chars tok) ≠ []) as Hrev.
    { intros Hr. apply Hne, chars_inj. apply (f_equal (@rev ascii)) in Hr.
      by rewrite rev_involutive in Hr. }
    destruct rest as [|tok' rest].
    + cbn [unwords]. rewrite split_chars_token by done.
      rewrite app_nil_r, (split_chars_trailing [] post) by done. cbn [split_chars].
      destruct (rev (chars tok)) as [|c cs] eqn:Hr; [done|].
      by rewrite <- Hr, rev_involutive, string_of_chars.
    + change (unwords (tok :: tok' :: rest))
        with (tok +:+ " " +:+ unwords (tok' :: rest)).
      rewrite !chars_app, <- !app_assoc, split_chars_token by done.
      rewrite app_nil_r. cbn [chars list_ascii_of_string app split_chars].
      change (is_space " ") with true. cbn match.
      destruct (rev (chars tok)) as [|c cs] eqn:Hr; [done|].
      rewrite <- Hr, rev_involutive, string_of_chars. f_equal. apply IH.
Qed.

(** An integer of at most 640 digits is read under every limit. *)
Lemma not_too_long_small (max_str_digits z : Z) :
  Z.abs z < 10 ^ str_digits_check_threshold → ¬ too_long max_str_digits z.
Proof.
  unfold too_long, str_digits_check_threshold. intros Hsmall [_ Hle].
  assert (10 ^ 640 ≤ 10 ^ Z.max max_str_digits 640) as Hpw
    by (apply Z.pow_le_mono_r; lia).
  revert Hsmall Hle Hpw.
  generalize (10 ^ 640) (10 ^ Z.max max_str_digits 640) (Z.abs z).
  intros a b c. lia.
Qed.

Lemma int_set_pretty max_str_digits (zs : list Z) :
  Forall (λ z, ¬ too_long max_str_digits z) zs →
  int_set max_str_digits (pretty <$> zs) = Loaded (list_to_set zs).
Proof.
  induction 1 as [|z zs Hz _ IH]; [done|].
  cbn [fmap list_fmap int_set]. unfold to_int.
  rewrite py_int_pretty, decide_False by done.
  cbn [mbind loaded_bind]. change (list_fmap Z string pretty zs) with (pretty <$> zs).
  by rewrite IH.
Qed.

(** X14. The loader reads the first three lines and nothing else: the bit
    width is the integer of the first line, each set is made of the
    integers of the whitespace-separated tokens of its line, surrounding
    whitespace does not count and a blank set line is the empty set. *)
Theorem parse_spec_file_reads_three_lines (max_str_digits : Z) (l0 l1 l2 : string)
    (extra : list string) :
  parse_spec_file max_str_digits (l0 :: l1 :: l2 :: extra)
  = (n_bit ← to_int max_str_digits (strip l0);
     on_set ← int_set max_str_digits (split l1);
     dc_set ← int_set max_str_digits (split l2);
     Loaded (n_bit, on_set, dc_set))
  ∧ parse_spec_file max_str_digits (l0 :: l1 :: l2 :: extra)
    = parse_spec_file max_str_digits [l0; l1; l2].
Proof.
  assert (∀ more,
    parse_spec_file max_str_digits (l0 :: l1 :: l2 :: more)
    = (n_bit ← to_int max_str_digits (strip l0);
       on_set ← int_set max_str_digits (split l1);
       dc_set ← int_set max_str_digits (split l2);
       Loaded (n_bit, on_set, dc_set))) as Heq.
  { intros more. unfold parse_spec_file, line_at.
    cbn [fmap list_fmap lookup list_lookup mbind loaded_bind].
    by rewrite !set_line_tokens. }
  split; [apply Heq|]. by rewrite (Heq extra), (Heq []).
Qed.

(** X15. A specification file of fewer than three lines is always rejected.
    The error is the [ValueError] of the first text that [int] refuses,
    among the first line and then the tokens of the second line, and the
    [IndexError] of the missing line when [int] accepts them all. *)
Theorem parse_spec_file_short_file (max_str_digits : Z) (raw_lines : list string) :
  (length raw_lines < 3)%nat →
  parse_spec_file max_str_digits raw_lines
  = Failed
      match first_refused max_str_digits
              ((strip <$> take 1 raw_lines) ++ (drop 1 raw_lines ≫= split)) with
      | Some text => ValueError_literal text
      | None => IndexError_line
      end.
Proof.
  intros Hlen. unfold parse_spec_file, line_at.
  destruct raw_lines as [|l0 [|l1 [|l2 rest]]]; [| | |simpl in Hlen; lia];
    cbn [fmap list_fmap lookup list_lookup mbind loaded_bind take drop app
         mbind list_bind];
    [done|..]; rewrite first_refused_cons; unfold to_int at 1.
  - by destruct (py_int max_str_digits (strip l0)).
  - destruct (py_int max_str_digits (strip l0)); cbn [mbind loaded_bind]; [|done].
    rewrite set_line_tokens, app_nil_r.
    destruct (int_set_first_refused max_str_digits (split l1)) as [Hsome Hnone].
    destruct (first_refused max_str_digits (split l1)) as [tok|].
    + by rewrite (Hsome tok).
    + by destruct Hnone as [X ->].
Qed.

Lemma parse_spec_file_short_file_witness :
  (length ["3" +:+ LF; "1 x 2" +:+ LF] < 3)%nat
  ∧ parse_spec_file default_max_str_digits ["3" +:+ LF; "1 x 2" +:+ LF]
    = Failed
        match first_refused default_max_str_digits
                ((strip <$> take 1 ["3" +:+ LF; "1 x 2" +:+ LF])
                 ++ (drop 1 ["3" +:+ LF; "1 x 2" +:+ LF] ≫= split)) with
        | Some text => ValueError_literal text
        | None => IndexError_line
        end.
Proof.
  split; [simpl; lia|].
  apply (parse_spec_file_short_file default_max_str_digits ["3" +:+ LF; "1 x 2" +:+ LF]).
  simpl; lia.
Defined.

(** Short files: no line, a first line that is not an integer, and two
    good lines. *)
Example parse_spec_file_short_samples :
  parse_spec_file default_max_str_digits [] = Failed IndexError_line
  ∧ parse_spec_file default_max_str_digits ["abc"] = Failed (ValueError_literal "abc")
  ∧ parse_spec_file default_max_str_digits ["3" +:+ LF; "1 x 2" +:+ LF]
    = Failed (ValueError_literal "x")
  ∧ parse_spec_file default_max_str_digits ["3" +:+ LF; "1 2" +:+ LF]
    = Failed IndexError_line.
Proof. split_and!; by vm_compute. Qed.

(** X16. Loading a specification written in the documented format gives it
    back: the bit width in decimal on the first line, the on-set and the
    don't-care minterms in decimal separated by single spaces on the next
    two, each line ended by a line feed, provided that no number has more
    digits than [int] accepts.  Order and repetitions of the listed
    minterms do not matter and further lines are ignored. *)
Theorem parse_spec_file_of_rendered (max_str_digits n_bit : Z) (ons dcs : list Z)
    (extra : list string) :
  Forall (λ z, ¬ too_long max_str_digits z) (n_bit :: ons ++ dcs) →
  parse_spec_file max_str_digits
    ((pretty n_bit +:+ LF) :: (unwords (pretty <$> ons) +:+ LF)
     :: (unwords (pretty <$> dcs) +:+ LF) :: extra)
  = Loaded (n_bit, list_to_set ons, list_to_set dcs).
Proof.
  intros [Hn [Hons Hdcs]%Forall_app]%Forall_cons.
  assert (∀ zs : list Z, split (unwords (pretty <$> zs) +:+ LF) = pretty <$> zs) as Hsplit.
  { intros zs. unfold split. rewrite chars_app. apply split_unwords.
    - apply Forall_fmap, Forall_forall. intros z _. split.
      + apply pretty_not_empty.
      + apply pretty_no_space.
    - by repeat constructor. }
  unfold parse_spec_file, line_at.
  cbn [fmap list_fmap lookup list_lookup mbind loaded_bind].
  rewrite !set_line_tokens, !Hsplit, !int_set_pretty by done.
  unfold to_int. rewrite py_int_strip.
  assert (py_int max_str_digits (pretty n_bit +:+ LF) = Some n_bit) as ->; [|done].
  rewrite <- py_int_strip.
  rewrite (strip_trimmed (pretty n_bit) ["010"%char]).
  - by rewrite py_int_pretty, decide_False.
  - apply lstrip_chars_id, pretty_no_space.
  - apply lstrip_chars_id, Forall_rev, pretty_no_space.
  - by repeat constructor.
Qed.

Lemma parse_spec_file_of_rendered_witness :
  Forall (λ z, ¬ too_long default_max_str_digits z) (3 :: [5; 1; 5] ++ [-2])
  ∧ parse_spec_file default_max_str_digits
      ((pretty 3 +:+ LF) :: (unwords (pretty <$> [5; 1; 5]) +:+ LF)
       :: (unwords (pretty <$> [-2]) +:+ LF) :: ["more"])
    = Loaded (3, list_to_set [5; 1; 5], list_to_set [-2]).
Proof.
  assert (Forall (λ z, ¬ too_long default_max_str_digits z) (3 :: [5; 1; 5] ++ [-2]))
    as Hfit.
  { repeat (constructor; [apply not_too_long_small; by vm_compute|]). constructor. }
  split; [exact Hfit|].
  exact (parse_spec_file_of_rendered default_max_str_digits 3 [5; 1; 5] [-2] ["more"] Hfit).
Defined.

(** A bit width with too many digits is refused. *)
Lemma parse_spec_file_too_long (max_str_digits n_bit : Z) (rest : list string) :
  too_long max_str_digits n_bit →
  parse_spec_file max_str_digits ((pretty n_bit +:+ LF) :: rest)
  = Failed (ValueError_literal (pretty n_bit)).
Proof.
  intros Hlong. unfold parse_spec_file, line_at.
  cbn [fmap list_fmap lookup list_lookup mbind loaded_bind].
  rewrite (strip_trimmed (pretty n_bit) ["010"%char]).
  - unfold to_int. by rewrite py_int_pretty, decide_True.
  - apply lstrip_chars_id, pretty_no_space.
  - apply lstrip_chars_id, Forall_rev, pretty_no_space.
  - by repeat constructor.
Qed.

(** The limit at work: under the default limit a number of 4301 digits is
    refused and one of 4300 digits is read; with the limit off both are
    read. *)
Example py_int_digit_limit :
  py_int default_max_str_digits (pretty (10 ^ 4300)) = None
  ∧ py_int default_max_str_digits (pretty (10 ^ 4300 - 1)) = Some (10 ^ 4300 - 1)
  ∧ py_int 0 (pretty (10 ^ 4300)) = Some (10 ^ 4300)
  ∧ parse_spec_file default_max_str_digits [pretty (10 ^ 4300) +:+ LF; LF; LF]
    = Failed (ValueError_literal (pretty (10 ^ 4300))).
Proof.
  assert (0 < 10 ^ 4300) as Hpos by (apply Z.pow_pos_nonneg; lia).
  assert (too_long default_max_str_digits (10 ^ 4300)) as Hlong.
  { split; [done|].
    change (Z.max default_max_str_digits str_digits_check_threshold) with 4300.
    revert Hpos. generalize (10 ^ 4300). intros pw. lia. }
  split_and!.
  - by rewrite py_int_pretty, decide_True.
  - rewrite py_int_pretty, decide_False; [done|]. intros [_ Hle]. revert Hle Hpos.
    change (Z.max default_max_str_digits str_digits_check_threshold) with 4300.
    generalize (10 ^ 4300). intros pw. lia.
  - rewrite py_int_pretty, decide_False; [done|]. intros [Hlt _]. lia.
  - by apply parse_spec_file_too_long.
Qed.

(** A specification with a negative entry, a repetition and a blank
    don't-care line. *)
Example parse_spec_file_sample :
  parse_spec_file default_max_str_digits ["  4 " +:+ LF; "7 0  7 -1" +:+ LF; LF]
  = Loaded (4, {[7; 0; -1]}, ∅)
  ∧ parse_spec_file default_max_str_digits ["4"; "1 x"; ""]
    = Failed (ValueError_literal "x")
  ∧ parse_spec_file default_max_str_digits ["1_0"; "+3"; ""] = Loaded (10, {[3]}, ∅).
Proof. split_and!; by vm_compute. Qed.

(** ** The harness reads the quiet line *)

Lemma digit_not_line_break c d : digit_value c = Some d → is_line_break c = false.
Proof.
  unfold digit_value, is_line_break. generalize (nat_of_ascii c) as n. intros n.
  destruct (48 <=? n)%nat eqn:H1; [|done]. destruct (n <=? 57)%nat eqn:H2; [|done].
  intros _. apply Nat.leb_le in H1, H2.
  rewrite !orb_false_iff, !andb_false_iff, !Nat.leb_gt, !Nat.eqb_neq. lia.
Qed.

Lemma splitlines_chars_one_line cs cur :
  Forall (λ c, is_line_break c = false) cs → rev cur ++ cs ≠ [] →
  splitlines_chars cs cur = [string_of_list_ascii (rev cur ++ cs)].
Proof.
  intros Hcs. revert cur. induction Hcs as [|c cs Hc _ IH]; intros cur Hne.
  - rewrite app_nil_r in *. cbn [splitlines_chars]. by destruct cur.
  - cbn [splitlines_chars]. rewrite Hc, IH; cbn [rev]; rewrite <- app_assoc; done.
Qed.

Lemma take_digits_all ds :
  Forall (λ c, is_Some (digit_value c)) ds → take_digits ds = (ds, []).
Proof.
  induction 1 as [|c ds [d Hd] _ IH]; [done|]. cbn [take_digits]. by rewrite Hd, IH.
Qed.

(** The harness reads the literal count back from a [PASS] line, unless
    [int] refuses it. *)
Lemma parse_pass_line (max_str_digits lit : Z) :
  0 ≤ lit →
  parse_checker_quiet_line max_str_digits (stdout_text ["PASS " +:+ pretty lit])
  = if decide (too_long max_str_digits lit) then None else Some (true, Some lit).
Proof.
  intros Hlit. destruct (pretty_nonneg_digits lit Hlit) as (Hne & Hdigits & Hread).
  set (line := "PASS " +:+ pretty lit).
  assert (chars line
          = "P"%char :: "A"%char :: "S"%char :: "S"%char :: " "%char :: chars (pretty lit))
    as Hchars by done.
  assert (startswith line "PASS" = true) as Hprefix by done.
  clearbody line.
  assert (Forall (λ c, is_space c = false) (chars (pretty lit))) as Hns
    by apply pretty_no_space.
  assert (lstrip_chars (rev (chars line)) = rev (chars line)) as Hlast.
  { rewrite Hchars. cbn [rev]. rewrite <- !app_assoc.
    destruct (rev (chars (pretty lit))) as [|c cs] eqn:Hrev.
    - apply (f_equal (@rev ascii)) in Hrev. by rewrite rev_involutive in Hrev.
    - assert (is_space c = false) as Hc.
      { apply Forall_rev in Hns. rewrite Hrev in Hns. by apply Forall_cons in Hns as [? _]. }
      cbn [app lstrip_chars]. by rewrite Hc. }
  assert (strip line = line) as Hstrip.
  { unfold strip. rewrite <- (app_nil_r (chars line)).
    rewrite strip_chars_trimmed; [by rewrite string_of_chars|by rewrite Hchars|done|done]. }
  unfold parse_checker_quiet_line.
  assert (strip (stdout_text [line]) = line) as ->.
  { change (stdout_text [line]) with (line +:+ string_of_list_ascii ["010"%char]).
    apply strip_trimmed; [by rewrite Hchars|done|by repeat constructor]. }
  assert (splitlines line = [line]) as ->.
  { unfold splitlines. rewrite splitlines_chars_one_line.
    - cbn [rev app]. by rewrite string_of_chars.
    - rewrite Hchars. repeat (constructor; [done|]).
      eapply Forall_impl; [exact Hdigits|]. intros c [d Hd]. by eapply digit_not_line_break.
    - by rewrite Hchars. }
  assert (line ≠ "") as Hline by (intros ->; discriminate Hchars).
  cbn [omap list_omap]. rewrite Hstrip, decide_True by done.
  change (default "" (last [line])) with line. rewrite Hprefix.
  unfold match_pass_count. rewrite Hchars. change (is_space " ") with true. cbn match.
  assert (drop_spaces (chars (pretty lit)) = chars (pretty lit)) as ->.
  { destruct (chars (pretty lit)) as [|c cs]; [done|].
    apply Forall_cons in Hns as [Hc _]. cbn [drop_spaces]. by rewrite Hc. }
  rewrite take_digits_all by done. cbn [drop_spaces].
  destruct (chars (pretty lit)) as [|c cs] eqn:Hds; [done|].
  rewrite <- Hds, string_of_chars, py_int_pretty.
  by destruct (decide (too_long max_str_digits lit)).
Qed.

(** X17. What the harness reads from the standard output of a [--quiet] run
    is what the checker decided: the verdict, together with the literal
    count when the verdict is pass and with no count otherwise; a run that
    stopped on an error reads as a fail.  The one case in which the harness
    fails is a pass whose literal count has more digits than [int]
    accepts. *)
Theorem harness_reads_quiet_output {order : set_order} (max_str_digits n_bit : Z)
    (on_set dc_set : gset Z) (sop_lines : list string) (k : Z) (s : bool) (g : rng) :
  parse_checker_quiet_line max_str_digits
    (stdout_text
       (stdout (run n_bit on_set dc_set sop_lines
                  {| quiet := true; summary := s; sample := k |} g)))
  = match verify n_bit on_set dc_set sop_lines k g with
    | Ok v =>
        if passed v then
          if decide (too_long max_str_digits (lit_count v)) then None
          else Some (true, Some (lit_count v))
        else Some (false, None)
    | Raise _ => Some (false, None)
    end.
Proof.
  destruct (validate_all (read_sop_file sop_lines n_bit) n_bit) as [[]|e] eqn:Hall.
  - destruct (verify_Ok n_bit on_set dc_set sop_lines k g Hall) as (v & Hv & Hspec).
    unfold run, main. cbn [sample quiet]. rewrite Hv. cbn [mbind result_bind stdout].
    unfold print_quiet. destruct (passed v); [|reflexivity].
    apply parse_pass_line.
    rewrite (spec_lit_count _ _ _ _ _ _ Hspec), count_literals_literals.
    unfold literals. lia.
  - unfold run, main. cbn [sample]. rewrite (verify_Raise _ _ _ _ _ _ _ Hall).
    reflexivity.
Qed.

(** What the harness makes of other outputs. *)
Example parse_checker_quiet_line_samples :
  parse_checker_quiet_line default_max_str_digits "" = Some (false, None)
  ∧ parse_checker_quiet_line default_max_str_digits
      ("noise" +:+ LF +:+ "PASS   12  " +:+ LF +:+ LF)
    = Some (true, Some 12)
  ∧ parse_checker_quiet_line default_max_str_digits "PASSED" = Some (true, None)
  ∧ parse_checker_quiet_line default_max_str_digits ("PASS 3" +:+ LF +:+ "FAIL")
    = Some (false, None).
Proof. split_and!; by vm_compute. Qed.

(** ** Student identifiers *)

Lemma split_chars_tokens cs cur :
  Forall (λ c, is_space c = false) cur →
  Forall (λ tok, tok ≠ "" ∧ Forall (λ c, is_space c = false) (chars tok))
    (split_chars cs cur).
Proof.
  assert (∀ cur, cur ≠ [] → Forall (λ c, is_space c = false) cur →
            string_of_list_ascii (rev cur) ≠ ""
            ∧ Forall (λ c, is_space c = false) (chars (string_of_list_ascii (rev cur))))
    as Htok.
  { intros cur' Hne Hns. rewrite chars_string_of_list. split; [|by apply Forall_rev].
    intros Heq. apply (f_equal chars) in Heq. rewrite chars_string_of_list in Heq.
    apply (f_equal (@rev ascii)) in Heq. by rewrite rev_involutive in Heq. }
  revert cur. induction cs as [|c cs IH]; intros cur Hcur; cbn [split_chars].
  - destruct cur; [constructor|]. apply Forall_singleton. by apply Htok.
  - destruct (is_space c) eqn:Hc.
    + destruct cur; [by apply IH|]. constructor; [by apply Htok|by apply IH].
    + apply IH. by constructor.
Qed.

(** X18. [get_student_id] fails exactly on a blank name.  On a name that
    starts, after any whitespace, with a token (a non-empty text without
    whitespace, followed by whitespace or by the end of the name) it returns
    that token, without its first character when this is a backslash.  The
    result holds no whitespace, and whitespace around the name does not
    change it. *)
Theorem get_student_id_first_token (name : string) :
  (get_student_id name = None ↔ strip name = "")
  ∧ (∀ pre tok rest,
       chars name = pre ++ chars tok ++ rest →
       Forall (λ c, is_space c = true) pre →
       tok ≠ "" →
       Forall (λ c, is_space c = false) (chars tok) →
       (∀ c, head rest = Some c → is_space c = true) →
       get_student_id name
       = Some (if startswith tok "\" then drop_first tok else tok))
  ∧ (∀ sid, get_student_id name = Some sid → Forall (λ c, is_space c = false) (chars sid))
  ∧ get_student_id (strip name) = get_student_id name.
Proof.
  unfold get_student_id. split_and!.
  - rewrite strip_empty_iff_split. by destruct (split name).
  - intros pre tok rest Hname Hpre Hne Hns Hrest.
    assert (∃ more, split name = tok :: more) as [more ->]; [|done].
    unfold split. rewrite Hname, split_chars_spaces, split_chars_token by done.
    rewrite app_nil_r.
    assert (string_of_list_ascii (rev (rev (chars tok))) = tok) as Htok
      by by rewrite rev_involutive, string_of_chars.
    destruct (rev (chars tok)) as [|c0 cur] eqn:Hcur.
    { exfalso. apply Hne, chars_inj. apply (f_equal (@rev ascii)) in Hcur.
      by rewrite rev_involutive in Hcur. }
    destruct rest as [|c rest]; cbn [split_chars].
    + rewrite Htok. by eexists.
    + rewrite (Hrest c eq_refl), Htok. by eexists.
  - intros sid. pose proof (split_chars_tokens (chars name) [] ltac:(constructor)) as Htoks.
    fold (split name) in Htoks. destruct (split name) as [|tok rest]; [done|].
    apply Forall_cons in Htoks as [[_ Hns] _]. intros [= <-].
    destruct (startswith tok "\"); [|done].
    destruct tok as [|c tok]; [done|]. cbn [drop_first].
    cbn [chars list_ascii_of_string] in Hns. by apply Forall_cons in Hns as [_ ?].
  - by rewrite split_strip.
Qed.

Example get_student_id_samples :
  get_student_id "313510145 PA1" = Some "313510145"
  ∧ get_student_id "\313510145 late" = Some "313510145"
  ∧ get_student_id "   " = None.
Proof. split_and!; by vm_compute. Qed.

(** ** What a pass means *)

Lemma filter_length_zero {A : Type} (P : A → Prop) `{!∀ x, Decision (P x)} (l : list A) :
  Z.of_nat (length (filter P l)) = 0 ↔ ∀ x, x ∈ l → ¬ P x.
Proof.
  induction l as [|x l IH].
  - split; [by intros _ ? ?%elem_of_nil|done].
  - rewrite filter_cons. destruct (decide (P x)) as [Hx|Hx].
    + cbn [length]. split; [lia|]. intros Hall. destruct (Hall x); [by left|done].
    + rewrite IH. split.
      * intros Hall y [->|Hy]%elem_of_cons; [done|by apply Hall].
      * intros Hall y Hy. apply Hall. by right.
Qed.

(** X19. At a positive bit width the verdict of a validated solution is pass
    exactly when the implicants read from the SOP file are a correct cover
    (no repeated implicant, every on-set minterm in the cube of some
    implicant, no cube reaching outside the on-set and the don't-care set)
    and, unless the on-set is empty, their number of literals is below
    [|on-set| * bit width]. *)
Theorem pass_iff_correct_cover {order : set_order} (n_bit : Z) (on_set dc_set : gset Z)
    (sop_lines : list string) (k : Z) (g : rng) :
  validate_all (read_sop_file sop_lines n_bit) n_bit = Ok () →
  n_bit > 0 →
  ∃ v,
    verify n_bit on_set dc_set sop_lines k g = Ok v
    ∧ implicants v = read_sop_file sop_lines n_bit
    ∧ (passed v = true ↔
       correct_cover n_bit on_set dc_set (read_sop_file sop_lines n_bit)
       ∧ (on_set = ∅
          ∨ literals (read_sop_file sop_lines n_bit) < len_set on_set * n_bit)).
Proof.
  intros Hall Hn.
  destruct (verify_Ok n_bit on_set dc_set sop_lines k g Hall) as (v & Hv & Hspec).
  exists v. split; [done|].
  destruct Hspec as [Himpls Hlit Hfail Hdup Hcov Hoff Hunc Hpass _ _ _].
  split; [done|].
  set (impls := read_sop_file sop_lines n_bit) in *.
  assert (n_bit ≠ 0) as Hn0 by lia.
  assert (dup_count v = 0 ↔ NoDup impls) as Hdup0.
  { rewrite Hdup, count_dups_zero. split; [by intros [? _]|].
    intros Hnd. split; [done|]. intros impl _. apply not_elem_of_empty. }
  assert (off_hit_count v = 0 ↔
          ∀ impl m, impl ∈ impls → in_cube impl n_bit m → m ∈ on_set ∨ m ∈ dc_set)
    as Hoff0.
  { rewrite Hoff, filter_length_zero. split.
    - intros Hnone impl m Hin Hcube.
      assert ((impl, m) ∈ enumeration_events n_bit impls) as Hev
        by by apply elem_of_enumeration_events.
      specialize (Hnone _ Hev). unfold off_set in Hnone. cbn [snd] in Hnone.
      destruct (decide (m ∈ on_set)); [by left|].
      destruct (decide (m ∈ dc_set)); [by right|]. by destruct Hnone.
    - intros Hin [impl m] [Himpl Hcube]%elem_of_enumeration_events; [|done..].
      intros [Hon Hdc]. cbn [snd] in *. destruct (Hin impl m Himpl Hcube); done. }
  assert (uncovered_count v = 0 ↔
          ∀ m, m ∈ on_set → ∃ impl, impl ∈ impls ∧ in_cube impl n_bit m) as Hunc0.
  { rewrite Hunc.
    assert (∀ m, m ∈ covered_on v ↔
                 m ∈ on_set ∧ ∃ impl, impl ∈ impls ∧ in_cube impl n_bit m) as Hmem.
    { intros m. rewrite Hcov, elem_of_intersection, elem_of_list_to_set, list_elem_of_fmap.
      split.
      - intros [Hon ([impl m'] & -> & Hin)]. split; [done|]. exists impl.
        by apply elem_of_enumeration_events in Hin.
      - intros [Hon (impl & Hin & Hcube)]. split; [done|]. exists (impl, m).
        split; [done|]. by apply elem_of_enumeration_events. }
    split.
    - intros Hz m Hm.
      assert (size (on_set ∖ covered_on v) = 0%nat) as Hs%size_empty_iff by lia.
      destruct (decide (m ∈ covered_on v)) as [Hc|Hc]; [by apply Hmem in Hc as [_ ?]|].
      exfalso. apply (not_elem_of_empty (C:=gset Z) m). rewrite <- Hs.
      by apply elem_of_difference.
    - intros Hevery.
      assert (on_set ∖ covered_on v ≡ ∅) as Hs%size_empty_iff; [|lia].
      intros m. split; [|by intros ?%not_elem_of_empty].
      intros [Hon Hnc]%elem_of_difference. destruct Hnc. apply Hmem. auto. }
  assert (fail_literal_product v = false ↔
          on_set = ∅ ∨ literals impls < len_set on_set * n_bit) as Hfail0.
  { rewrite Hfail, <- not_true_iff_false, !andb_true_iff, !bool_decide_eq_true.
    rewrite count_literals_literals.
    assert (on_set = ∅ ↔ len_set on_set = 0) as ->.
    { unfold len_set. rewrite <- (leibniz_equiv_iff on_set ∅), <- size_empty_iff. lia. }
    unfold len_set. lia. }
  rewrite Hpass, !andb_true_iff, !bool_decide_eq_true, negb_true_iff.
  rewrite Hdup0, Hoff0, Hunc0, Hfail0. unfold correct_cover. tauto.
Qed.

Lemma pass_iff_correct_cover_witness :
  validate_all (read_sop_file ["1-"; "-1"] 2) 2 = Ok ()
  ∧ 2 > 0
  ∧ ∃ v,
      verify 2 {[1; 2; 3]} ∅ ["1-"; "-1"] 0 [] = Ok v
      ∧ implicants v = read_sop_file ["1-"; "-1"] 2
      ∧ (passed v = true ↔
         correct_cover 2 {[1; 2; 3]} ∅ (read_sop_file ["1-"; "-1"] 2)
         ∧ (({[1; 2; 3]} : gset Z) = ∅
            ∨ literals (read_sop_file ["1-"; "-1"] 2) < len_set {[1; 2; 3]} * 2)).
Proof.
  split; [reflexivity|]. split; [lia|].
  apply (pass_iff_correct_cover 2 {[1; 2; 3]} ∅ ["1-"; "-1"] 0 []); [reflexivity|lia].
Defined.

(** The cover above passes. *)
Example correct_cover_passes :
  stdout (run 2 {[1; 2; 3]} ∅ ["1-"; "-1"] {| quiet := true; summary := false; sample := 0 |} [])
  = ["PASS 2"].
Proof. reflexivity. Qed.

(** ** The verdict under changes of the inputs *)

Lemma read_sop_file_Permutation lines lines' n :
  lines ≡ₚ lines' → read_sop_file lines n ≡ₚ read_sop_file lines' n.
Proof.
  intros Hperm. rewrite !read_sop_file_closed. case_decide; by rewrite Hperm.
Qed.

Lemma validate_all_Permutation impls impls' n :
  impls ≡ₚ impls' → validate_all impls n = Ok () → validate_all impls' n = Ok ().
Proof. rewrite !validate_all_Ok. by intros ->. Qed.

Lemma verdict_spec_measures_perm n_bit on_set dc_set impls impls' k k' v v' :
  impls ≡ₚ impls' →
  verdict_spec n_bit on_set dc_set impls k v →
  verdict_spec n_bit on_set dc_set impls' k' v' →
  measures v = measures v'.
Proof.
  intros Hperm [_ Hlit Hfail Hdup Hcov Hoff Hunc Hpass _ _ _]
    [_ Hlit' Hfail' Hdup' Hcov' Hoff' Hunc' Hpass' _ _ _].
  assert (count_literals impls = count_literals impls') as Hl.
  { rewrite !count_literals_literals. unfold literals. by rewrite Hperm. }
  assert (count_dups ∅ impls = count_dups ∅ impls') as Hd.
  { rewrite !count_dups_size. by rewrite Hperm. }
  assert (enumeration_events n_bit impls ≡ₚ enumeration_events n_bit impls') as He.
  { unfold enumeration_events, events_of, valid_implicants. by rewrite Hperm. }
  assert (covered_on v = covered_on v') as Hc by (rewrite Hcov, Hcov'; by rewrite He).
  assert (off_hit_count v = off_hit_count v') as Ho by (rewrite Hoff, Hoff'; by rewrite He).
  unfold measures.
  rewrite Hpass, Hpass', Hunc, Hunc', Hfail, Hfail', Hlit, Hlit', Hdup, Hdup'.
  by rewrite Ho, Hc, Hl, Hd.
Qed.

(** X20. The order of the lines of the SOP file does not matter: two files
    with the same lines in a different order are validated together and get
    the same literal count, the same three counters, the same covered set
    and the same verdict, whatever the sample limits and random streams. *)
Theorem verdict_invariant_under_reordering {order : set_order} (n_bit : Z) (on_set dc_set : gset Z)
    (sop_lines sop_lines' : list string) (k k' : Z) (g g' : rng) :
  sop_lines ≡ₚ sop_lines' →
  validate_all (read_sop_file sop_lines n_bit) n_bit = Ok () →
  ∃ v v',
    verify n_bit on_set dc_set sop_lines k g = Ok v
    ∧ verify n_bit on_set dc_set sop_lines' k' g' = Ok v'
    ∧ implicants v ≡ₚ implicants v'
    ∧ measures v = measures v'.
Proof.
  intros Hperm Hall.
  pose proof (read_sop_file_Permutation _ _ n_bit Hperm) as Hperm'.
  pose proof (validate_all_Permutation _ _ _ Hperm' Hall) as Hall'.
  destruct (verify_Ok n_bit on_set dc_set sop_lines k g Hall) as (v & Hv & Hspec).
  destruct (verify_Ok n_bit on_set dc_set sop_lines' k' g' Hall') as (v' & Hv' & Hspec').
  exists v, v'. split_and!; [done..| |].
  - by rewrite (spec_implicants _ _ _ _ _ _ Hspec), (spec_implicants _ _ _ _ _ _ Hspec').
  - by eapply verdict_spec_measures_perm.
Qed.

Lemma verdict_invariant_under_reordering_witness :
  ["1-"; " "; "-1"] ≡ₚ ["-1"; "1-"; " "]
  ∧ validate_all (read_sop_file ["1-"; " "; "-1"] 2) 2 = Ok ()
  ∧ ∃ v v',
      verify 2 {[1; 2]} ∅ ["1-"; " "; "-1"] 0 [] = Ok v
      ∧ verify 2 {[1; 2]} ∅ ["-1"; "1-"; " "] 4 [7; 7] = Ok v'
      ∧ implicants v ≡ₚ implicants v'
      ∧ measures v = measures v'.
Proof.
  assert (["1-"; " "; "-1"] ≡ₚ ["-1"; "1-"; " "]) as Hperm.
  { exact (Permutation_app_comm ["1-"; " "] ["-1"]). }
  split; [exact Hperm|]. split; [reflexivity|].
  exact (verdict_invariant_under_reordering 2 {[1; 2]} ∅ _ _ 0 4 [] [7; 7] Hperm eq_refl).
Defined.

Lemma filter_length_impl {A : Type} (P Q : A → Prop)
    `{!∀ x, Decision (P x)} `{!∀ x, Decision (Q x)} (l : list A) :
  (∀ x, P x → Q x) → (length (filter P l) ≤ length (filter Q l))%nat.
Proof.
  intros Himpl. induction l as [|x l IH]; [done|].
  rewrite !filter_cons. destruct (decide (P x)) as [Hp|Hp].
  - rewrite decide_True by auto. cbn [length]. lia.
  - destruct (decide (Q x)); cbn [length]; lia.
Qed.

(** X21. Don't-cares can only help: when every don't-care of one
    specification is an on-set or don't-care minterm of another with the
    same bit width and on-set, a solution gets no more off-set hits under the
    second, the same other counters, and passes under the second if it
    passes under the first. *)
Theorem more_dont_cares_never_hurt {order : set_order} (n_bit : Z) (on_set dc_set dc_set' : gset Z)
    (sop_lines : list string) (k k' : Z) (g g' : rng) :
  validate_all (read_sop_file sop_lines n_bit) n_bit = Ok () →
  dc_set ⊆ on_set ∪ dc_set' →
  ∃ v v',
    verify n_bit on_set dc_set sop_lines k g = Ok v
    ∧ verify n_bit on_set dc_set' sop_lines k' g' = Ok v'
    ∧ off_hit_count v' ≤ off_hit_count v
    ∧ lit_count v' = lit_count v
    ∧ dup_count v' = dup_count v
    ∧ covered_on v' = covered_on v
    ∧ uncovered_count v' = uncovered_count v
    ∧ (passed v = true → passed v' = true).
Proof.
  intros Hall Hsub.
  destruct (verify_Ok n_bit on_set dc_set sop_lines k g Hall) as (v & Hv & Hspec).
  destruct (verify_Ok n_bit on_set dc_set' sop_lines k' g' Hall) as (v' & Hv' & Hspec').
  destruct Hspec as [_ Hlit Hfail Hdup Hcov Hoff Hunc Hpass _ _ _].
  destruct Hspec' as [_ Hlit' Hfail' Hdup' Hcov' Hoff' Hunc' Hpass' _ _ _].
  assert (off_hit_count v' ≤ off_hit_count v) as Hle.
  { rewrite Hoff, Hoff'. apply inj_le, filter_length_impl.
    intros [impl m] [Hon Hdc]. split; [done|]. cbn [snd] in *.
    intros Hm. apply Hsub in Hm. set_solver. }
  assert (0 ≤ off_hit_count v') as Hnn by (rewrite Hoff'; lia).
  assert (covered_on v' = covered_on v) as Hc by by rewrite Hcov, Hcov'.
  assert (uncovered_count v' = uncovered_count v) as Hu by by rewrite Hunc, Hunc', Hc.
  exists v, v'. split_and!; [done..|by rewrite Hlit, Hlit'|by rewrite Hdup, Hdup'|done|done|].
  rewrite Hpass, Hpass', Hfail, Hfail', Hu, Hdup, Hdup'.
  rewrite !andb_true_iff, !bool_decide_eq_true, !negb_true_iff.
  intros [[[? ?] ?] ?]. split_and!; [done..|lia|done].
Qed.

Lemma more_dont_cares_never_hurt_witness :
  validate_all (read_sop_file ["--"] 2) 2 = Ok ()
  ∧ ({[1; 0]} : gset Z) ⊆ {[0]} ∪ {[1; 2; 3]}
  ∧ ∃ v v',
      verify 2 {[0]} {[1; 0]} ["--"] 0 [] = Ok v
      ∧ verify 2 {[0]} {[1; 2; 3]} ["--"] 0 [] = Ok v'
      ∧ off_hit_count v' ≤ off_hit_count v
      ∧ lit_count v' = lit_count v
      ∧ dup_count v' = dup_count v
      ∧ covered_on v' = covered_on v
      ∧ uncovered_count v' = uncovered_count v
      ∧ (passed v = true → passed v' = true).
Proof.
  assert (({[1; 0]} : gset Z) ⊆ {[0]} ∪ {[1; 2; 3]}) as Hsub by set_solver.
  split; [reflexivity|]. split; [exact Hsub|].
  exact (more_dont_cares_never_hurt 2 {[0]} {[1; 0]} {[1; 2; 3]} ["--"] 0 0 [] []
           eq_refl Hsub).
Defined.

(** X22. An on-set entry outside [[0, 2^bit width)] can never be covered:
    with such an entry every validated solution fails. *)
Theorem out_of_range_on_set_fails {order : set_order} (n_bit : Z) (on_set dc_set : gset Z)
    (sop_lines : list string) (k : Z) (g : rng) (m : Z) :
  validate_all (read_sop_file sop_lines n_bit) n_bit = Ok () →
  m ∈ on_set → ¬ (0 ≤ m < 2 ^ n_bit) →
  ∃ v,
    verify n_bit on_set dc_set sop_lines k g = Ok v
    ∧ (m ∉ covered_on v) ∧ uncovered_count v > 0 ∧ passed v = false.
Proof.
  intros Hall Hm Hrange.
  destruct (verify_Ok n_bit on_set dc_set sop_lines k g Hall) as (v & Hv & Hspec).
  destruct Hspec as [_ _ _ _ Hcov _ Hunc Hpass _ _ _].
  assert (m ∉ covered_on v) as Hnc.
  { rewrite Hcov, elem_of_intersection, elem_of_list_to_set, list_elem_of_fmap.
    intros [_ ([impl m'] & -> & Hin)]. cbn [snd] in *.
    destruct (decide (n_bit = 0)) as [->|Hn].
    - unfold enumeration_events in Hin. rewrite valid_implicants_zero_width in Hin by done.
      by apply elem_of_nil in Hin.
    - apply elem_of_enumeration_events in Hin as [_ [Hr _]]; done. }
  assert (uncovered_count v > 0) as Hpos.
  { rewrite Hunc.
    assert (size (on_set ∖ covered_on v) ≠ 0%nat); [|lia].
    intros Hs%size_empty_iff. apply (not_elem_of_empty (C:=gset Z) m).
    rewrite <- Hs. by apply elem_of_difference. }
  exists v. split_and!; [done..|].
  rewrite Hpass. apply not_true_iff_false.
  rewrite !andb_true_iff, !bool_decide_eq_true. lia.
Qed.

Lemma out_of_range_on_set_fails_witness :
  validate_all (read_sop_file ["--"] 2) 2 = Ok ()
  ∧ 4 ∈ ({[0; 4]} : gset Z) ∧ ¬ (0 ≤ 4 < 2 ^ 2)
  ∧ ∃ v,
      verify 2 {[0; 4]} {[1; 2; 3]} ["--"] 0 [] = Ok v
      ∧ (4 ∉ covered_on v) ∧ uncovered_count v > 0 ∧ passed v = false.
Proof.
  assert (4 ∈ ({[0; 4]} : gset Z)) as Hin by set_solver.
  assert (¬ (0 ≤ 4 < 2 ^ 2)) as Hout by (change (2 ^ 2) with 4; lia).
  split; [reflexivity|]. split; [exact Hin|]. split; [exact Hout|].
  exact (out_of_range_on_set_fails 2 {[0; 4]} {[1; 2; 3]} ["--"] 0 [] 4 eq_refl Hin Hout).
Defined.
